(** * NormalJS: record lifecycle, scope composition, identity map, request
      and cache adapter, embedded from the TypeScript sources.

    Layout
    - [JS]            the fragment of JavaScript values the sources manipulate
    - [ScopeBuilder]  src/ScopeBuilder.ts
    - [CacheAdapter]  InMemoryCacheAdapter
    - [Rec]           src/Record.ts (sync, flush, write)
    - [Model]         Model.allocate and Model.create
    - [Request]       Request.then and Request._applyScopes
    - [Queries]       Model._inferTable, query, scope, unscoped
    - [Repository]    Repository.get_context and set_context

    Calls to collaborators that are outside the sources (the knex query
    builder, the cache, the event emitter, the field classes of Fields.js)
    are either logged as events of a trace or taken as section variables. *)

From stdpp Require Import gmap strings list fin_maps pretty.
From Stdlib Require Import ZArith Lia.

Set Warnings "-register-all".
Local Open Scope string_scope.
Local Open Scope Z_scope.
Local Open Scope list_scope.

(* ===================================================================== *)
(** ** JavaScript values *)
(* ===================================================================== *)

Module JS.

(** Plain data as the sources pass it around ([any]).  Objects keep their
    own enumerable string keys in [Object.keys] order. *)
Inductive jsval : Type :=
| JUndefined
| JNull
| JBool (b : bool)
| JNum (n : Z)
| JStr (s : string)
| JArr (xs : list jsval)
| JObj (kvs : list (string * jsval)).

(** A plain object literal, keys in [Object.keys] order. *)
Definition object : Type := list (string * jsval).

(** An outcome of a call that may throw (or of a promise that may reject). *)
Inductive outcome (A : Type) : Type :=
| Ok (a : A)
| Throw (msg : string).
Arguments Ok {A} a.
Arguments Throw {A} msg.

(** [!!v] : ToBoolean. *)
Definition truthy (v : jsval) : bool :=
  match v with
  | JUndefined | JNull => false
  | JBool b => b
  | JNum n => negb (n =? 0)
  | JStr s => negb (String.eqb s "")
  | JArr _ | JObj _ => true
  end.

(** [o.hasOwnProperty(k)] *)
Fixpoint hasOwnProperty (o : object) (k : string) : bool :=
  match o with
  | [] => false
  | (k', _) :: o' => if String.eqb k' k then true else hasOwnProperty o' k
  end.

(** [o[k]] on a plain object: [undefined] when the key is absent. *)
Fixpoint get (o : object) (k : string) : jsval :=
  match o with
  | [] => JUndefined
  | (k', v) :: o' => if String.eqb k' k then v else get o' k
  end.

(** [delete o[k]] *)
Fixpoint delete_key (o : object) (k : string) : object :=
  match o with
  | [] => []
  | (k', v) :: o' =>
      if String.eqb k' k then delete_key o' k else (k', v) :: delete_key o' k
  end.

(** [o[k] = v]: an existing key keeps its position, a new key goes last. *)
Fixpoint set_key (o : object) (k : string) (v : jsval) : object :=
  match o with
  | [] => [(k, v)]
  | (k', v') :: o' =>
      if String.eqb k' k then (k, v) :: o' else (k', v') :: set_key o' k v
  end.

(** [Object.keys(o)] *)
Definition keys (o : object) : list string := map fst o.

(** [v.k] for a value of any type; only plain objects carry data keys. *)
Definition prop (v : jsval) (k : string) : jsval :=
  match v with
  | JObj kvs => get kvs k
  | _ => JUndefined
  end.

(** [Array.isArray(v)] *)
Definition isArray (v : jsval) : bool :=
  match v with JArr _ => true | _ => false end.

(** [needle] occurs inside [hay]. *)
Definition occurs_in (needle hay : string) : Prop :=
  exists pre post : string, hay = pre +:+ needle +:+ post.

(** [xs.join(sep)] on strings. *)
Fixpoint join (sep : string) (xs : list string) : string :=
  match xs with
  | [] => ""
  | [x] => x
  | x :: xs' => x +:+ sep +:+ join sep xs'
  end.

(** [String(v)], as template literals and property keys coerce a value. *)
Fixpoint to_string (v : jsval) : string :=
  match v with
  | JUndefined => "undefined"
  | JNull => "null"
  | JBool true => "true"
  | JBool false => "false"
  | JNum n => pretty n
  | JStr s => s
  | JArr xs =>
      join ","
        (map (fun x =>
                match x with
                | JUndefined | JNull => ""
                | _ => to_string x
                end) xs)
  | JObj _ => "[object Object]"
  end.

(** [s.toLowerCase()] on ASCII letters. *)
Fixpoint toLowerCase (s : string) : string :=
  match s with
  | EmptyString => EmptyString
  | String c s' =>
      let n := Ascii.nat_of_ascii c in
      String (if (Nat.leb 65 n && Nat.leb n 90)%bool
              then Ascii.ascii_of_nat (n + 32) else c)
             (toLowerCase s')
  end.

(** [a ?? b] *)
Definition nullish (a b : jsval) : jsval :=
  match a with
  | JUndefined | JNull => b
  | _ => a
  end.

(** The key comparison of a [Map] (SameValueZero).  Values of this model
    are data, so an array or an object met as a key is a reference of its
    own and equals no key already stored. *)
Definition same_value_zero (a b : jsval) : bool :=
  match a, b with
  | JUndefined, JUndefined => true
  | JNull, JNull => true
  | JBool x, JBool y => Bool.eqb x y
  | JNum x, JNum y => x =? y
  | JStr x, JStr y => String.eqb x y
  | _, _ => false
  end.

(** A [Map] from values to [V], entries in insertion order. *)
Definition jsmap (V : Type) : Type := list (jsval * V).

Fixpoint map_get {V : Type} (m : jsmap V) (k : jsval) : option V :=
  match m with
  | [] => None
  | (k', v) :: m' => if same_value_zero k' k then Some v else map_get m' k
  end.

Definition map_has {V : Type} (m : jsmap V) (k : jsval) : bool :=
  bool_decide (is_Some (map_get m k)).

Fixpoint map_set {V : Type} (m : jsmap V) (k : jsval) (v : V) : jsmap V :=
  match m with
  | [] => [(k, v)]
  | (k', v') :: m' =>
      if same_value_zero k' k then (k', v) :: m' else (k', v') :: map_set m' k v
  end.

End JS.

Import JS.

(* ===================================================================== *)
(** ** src/ScopeBuilder.ts *)
(* ===================================================================== *)

Module ScopeBuilder.

Inductive Direction : Type := ASC | DESC.

(** [interface IncludeOption] *)
Inductive IncludeOption : Type :=
  MkInclude {
    relation : string;
    as_ : option string;
    required : option bool;
    inc_attributes : option (list string);
    through : option jsval;
    inc_include : option (list IncludeOption);
    inc_limit : option Z;
    inc_offset : option Z;
    inc_order : option (list (string * Direction))
  }.

(** [interface ScopeOptions].  [where_] is [JUndefined] when the key is
    absent; every other optional key is [None] when [undefined]. *)
Record ScopeOptions : Type :=
  MkScopeOptions {
    where_ : jsval;
    include : option (list IncludeOption);
    cache : option (bool + Z);
    order : option (list (string * Direction));
    limit : option Z;
    offset : option Z;
    attributes : option (list string)
  }.

(** [{}] *)
Definition empty_options : ScopeOptions :=
  MkScopeOptions JUndefined None None None None None None.

(** What a function scope returns: options, or the (already mutated)
    request. *)
Inductive ScopeResult : Type :=
| ReturnsOptions (o : ScopeOptions)
| ReturnsRequest.

(** [type ScopeDefinition]: an options object, or a function of the
    positional arguments.  The request handed to the function is not part
    of this model. *)
Inductive ScopeDefinition : Type :=
| DefOptions (o : ScopeOptions)
| DefFunction (f : list jsval -> ScopeResult).

(** [type ScopeRequest = string | { [name: string]: any[] }] *)
Inductive ScopeRequest : Type :=
| ByName (name : string)
| ByObject (entries : list (string * list jsval)).

(** [class ScopeBuilder]: [model] is kept by its name, the only part of it
    the class reads. *)
Record t : Type :=
  MkScopeBuilder {
    model_name : string;
    scopes : gmap string ScopeDefinition;
    defaultScope : option ScopeDefinition
  }.

Definition extractOptionsFromRequest : ScopeOptions := empty_options.

Definition normalizeScopeDefinition
    (definition : ScopeDefinition) (args : list jsval) : ScopeOptions :=
  match definition with
  | DefFunction f =>
      match f args with
      | ReturnsRequest => extractOptionsFromRequest
      | ReturnsOptions result => result
      end
  | DefOptions o => o
  end.

Definition normalizeInclude (i : string + IncludeOption) : IncludeOption :=
  match i with
  | inl name => MkInclude name None None None None None None None None
  | inr o => o
  end.

Definition mergeWhere (base incoming : jsval) : jsval :=
  if negb (truthy base) then incoming
  else if negb (truthy incoming) then base
  else if truthy (prop base "and") && isArray (prop base "and") then
    match prop base "and" with
    | JArr xs => JObj [("and", JArr (xs ++ [incoming]))]
    | _ => JObj [("and", JArr [base; incoming])]
    end
  else JObj [("and", JArr [base; incoming])].

(** [`${i.relation}:${i.as || ''}`] *)
Definition include_key (i : IncludeOption) : string :=
  relation i +:+ ":" +:+
  match as_ i with
  | Some a => a
  | None => ""
  end.

Definition set_include (i : IncludeOption) (inc : list IncludeOption)
  : IncludeOption :=
  MkInclude (relation i) (as_ i) (required i) (inc_attributes i) (through i)
            (Some inc) (inc_limit i) (inc_offset i) (inc_order i).

(** [result.find(r => key(r) === key)] followed by an assignment to the
    element found: the first element with that key is updated in place. *)
Fixpoint update_first (key : string) (f : IncludeOption -> IncludeOption)
    (result : list IncludeOption) : list IncludeOption :=
  match result with
  | [] => []
  | r :: rest =>
      if String.eqb (include_key r) key then f r :: rest
      else r :: update_first key f rest
  end.

Definition has_key (keys : list string) (key : string) : bool :=
  existsb (String.eqb key) keys.

(** One turn of the loop of [mergeIncludes] over [incoming]; the state is
    the pair [(result, keys)]. *)
Fixpoint mergeIncludes_step (inc : IncludeOption)
    (st : list IncludeOption * list string) {struct inc}
  : list IncludeOption * list string :=
  let '(result, keys) := st in
  let key := include_key inc in
  if negb (has_key keys key) then (result ++ [inc], keys ++ [key])
  else
    match inc_include inc with
    | Some ((_ :: _) as nested) =>
        (update_first key
           (fun existing =>
              let base :=
                match inc_include existing with
                | Some b => b
                | None => []
                end in
              set_include existing
                (fst ((fix loop (l : list IncludeOption)
                         (acc : list IncludeOption * list string) :=
                         match l with
                         | [] => acc
                         | x :: l' => loop l' (mergeIncludes_step x acc)
                         end) nested (base, map include_key base))))
           result, keys)
    | _ => (result, keys)
    end.

Definition mergeIncludes (base incoming : list IncludeOption)
  : list IncludeOption :=
  fst (fold_left (fun st inc => mergeIncludes_step inc st) incoming
         (base, map include_key base)).

Definition mergeOptions (base incoming : ScopeOptions) : ScopeOptions :=
  let merged := base in
  let merged :=
    if truthy (where_ incoming) then
      MkScopeOptions (mergeWhere (where_ base) (where_ incoming))
        (include merged) (cache merged) (order merged) (limit merged)
        (offset merged) (attributes merged)
    else merged in
  let merged :=
    match include incoming with
    | Some inc =>
        let normalizedIncoming := map (fun i => normalizeInclude (inr i)) inc in
        MkScopeOptions (where_ merged)
          (Some (mergeIncludes
                   (match include base with Some b => b | None => [] end)
                   normalizedIncoming))
          (cache merged) (order merged) (limit merged) (offset merged)
          (attributes merged)
    | None => merged
    end in
  MkScopeOptions (where_ merged) (include merged)
    (match cache incoming with Some c => Some c | None => cache merged end)
    (match order incoming with Some c => Some c | None => order merged end)
    (match limit incoming with Some c => Some c | None => limit merged end)
    (match offset incoming with Some c => Some c | None => offset merged end)
    (match attributes incoming with
     | Some c => Some c
     | None => attributes merged
     end).

(** [Object.keys(scopeReq)[0]] and [scopeReq[scopeName] || []]; an object
    without keys yields the name [undefined], which the template literal
    and the property lookup both read as the string "undefined". *)
Definition request_name (r : ScopeRequest) : string :=
  match r with
  | ByName s => s
  | ByObject [] => "undefined"
  | ByObject ((k, _) :: _) => k
  end.

Definition request_args (r : ScopeRequest) : list jsval :=
  match r with
  | ByName _ => []
  | ByObject [] => []
  | ByObject ((_, args) :: _) => args
  end.

Definition scope_not_defined (scopeName modelName : string) : string :=
  "Scope '" +:+ scopeName +:+ "' not defined on model '" +:+ modelName +:+ "'".

(** The members that a plain object inherits from [Object.prototype].
    The scopes of a builder are such an object (a [scopes] literal, [{}],
    or a spread of two), so [this.scopes[name]] and [name in this.scopes]
    find these members when the scopes have no key of that name. *)
Definition Object_prototype : list string :=
  ["constructor"; "__defineGetter__"; "__defineSetter__"; "hasOwnProperty";
   "__lookupGetter__"; "__lookupSetter__"; "isPrototypeOf";
   "propertyIsEnumerable"; "toString"; "valueOf"; "__proto__";
   "toLocaleString"].

(** The error of a method of [Object.prototype] called without receiver;
    the text of the message is the engine's. *)
Definition no_receiver : string :=
  "TypeError: Cannot convert undefined or null to object".

(** [normalizeScopeDefinition] on an inherited member.  [constructor] is
    [Object], which hands the request back, so the options are those of
    [extractOptionsFromRequest]; [toString], called without receiver,
    returns a string, and [__proto__] is [Object.prototype], an object
    that is not a function: neither carries an option.  Every other member
    is a function that throws for want of a receiver. *)
Definition inherited_scope (scopeName : string) : outcome ScopeOptions :=
  if String.eqb scopeName "constructor" then Ok extractOptionsFromRequest
  else if String.eqb scopeName "toString" || String.eqb scopeName "__proto__"
       then Ok empty_options
       else Throw no_receiver.

(** What [this.scopes[scopeName]] finds. *)
Inductive found : Type :=
| Own (scopeDef : ScopeDefinition)
| Inherited
| Missing.

Definition lookup_scope (sb : t) (scopeName : string) : found :=
  match scopes sb !! scopeName with
  | Some scopeDef => Own scopeDef
  | None =>
      if bool_decide (scopeName ∈ Object_prototype) then Inherited else Missing
  end.

(** The [for] loop of [applyScopes]. *)
Fixpoint apply_named (sb : t) (scopeRequests : list ScopeRequest)
    (merged : ScopeOptions) : outcome ScopeOptions :=
  match scopeRequests with
  | [] => Ok merged
  | scopeReq :: rest =>
      let scopeName := request_name scopeReq in
      let args := request_args scopeReq in
      match lookup_scope sb scopeName with
      | Missing => Throw (scope_not_defined scopeName (model_name sb))
      | Own scopeDef =>
          let scopeOptions := normalizeScopeDefinition scopeDef args in
          apply_named sb rest (mergeOptions merged scopeOptions)
      | Inherited =>
          match inherited_scope scopeName with
          | Throw msg => Throw msg
          | Ok scopeOptions =>
              apply_named sb rest (mergeOptions merged scopeOptions)
          end
      end
  end.

Definition applyScopes (sb : t) (scopeRequests : list ScopeRequest)
    (includeDefault : bool) : outcome ScopeOptions :=
  let merged := empty_options in
  let merged :=
    match includeDefault, defaultScope sb with
    | true, Some d => mergeOptions merged (normalizeScopeDefinition d [])
    | _, _ => merged
    end in
  apply_named sb scopeRequests merged.

(** [name in this.scopes] *)
Definition hasScope (sb : t) (name : string) : bool :=
  bool_decide (is_Some (scopes sb !! name))
  || bool_decide (name ∈ Object_prototype).

End ScopeBuilder.

(* ===================================================================== *)
(** ** InMemoryCacheAdapter *)
(* ===================================================================== *)

Module CacheAdapter.

(** [{ value: any; expires: number }], times in milliseconds. *)
Record entry : Type := MkEntry { value : jsval; expires : Z }.

(** [class InMemoryCacheAdapter] *)
Record t : Type :=
  MkAdapter {
    cache : gmap string entry;
    tags : gmap string (gset string)
  }.

Definition create : t := MkAdapter ∅ ∅.

(** [evictTimestamp && ...] on an optional number. *)
Definition marker_set (evictTimestamp : option Z) : bool :=
  match evictTimestamp with
  | Some ts => negb (ts =? 0)
  | None => false
  end.

(** [get(key, evictTimestamp?)]; [now] is the value of [Date.now()].
    Returns the value handed back and the adapter after the call. *)
Definition get (now : Z) (c : t) (key : string) (evictTimestamp : option Z)
  : jsval * t :=
  match cache c !! key with
  | None => (JNull, c)
  | Some entry =>
      if expires entry <? now then
        (JNull, MkAdapter (delete key (cache c)) (tags c))
      else if marker_set evictTimestamp
              && (expires entry <=? default 0 evictTimestamp) then
        (JNull, MkAdapter (delete key (cache c)) (tags c))
      else (value entry, c)
  end.

(** [set(key, value, ttl)], [ttl] in seconds; always returns [true]. *)
Definition set (now : Z) (c : t) (key : string) (v : jsval) (ttl : Z)
  : bool * t :=
  let expires := now + ttl * 1000 in
  (true, MkAdapter (<[key := MkEntry v expires]> (cache c)) (tags c)).

Definition del (c : t) (key : string) : t :=
  MkAdapter (delete key (cache c)) ((fun keys => keys ∖ {[key]}) <$> tags c).

Definition tagInvalidate (c : t) (tgs : list string) : t :=
  fold_left
    (fun c tag =>
       match tags c !! tag with
       | Some keys =>
           MkAdapter
             (fold_left (fun m key => delete key m) (elements keys) (cache c))
             (delete tag (tags c))
       | None => c
       end)
    tgs c.

Definition clear (c : t) : t := MkAdapter ∅ ∅.

Definition tagKey (c : t) (key : string) (tgs : list string) : t :=
  fold_left
    (fun c tag =>
       MkAdapter (cache c)
         (<[tag := default ∅ (tags c !! tag) ∪ {[key]}]> (tags c)))
    tgs c.

End CacheAdapter.

(* ===================================================================== *)
(** ** src/Record.ts *)
(* ===================================================================== *)

Module Rec.

(** [type AnyField]: the data of a field.  Its methods are the members of
    [FieldOps] below. *)
Record Field : Type :=
  MkField {
    name : string;
    column : string;
    stored : option bool;
    isDiscriminator : bool
  }.

(** The parts of a [Model] that records, allocation and creation read once
    the model is initialised.  [fields] lists [Object.values(model.fields)]
    in order, each field stored under its [name].  [repo_cache] tells
    whether [repo.cache] is an object; [transactional] is
    [repo.connection.transactional].  The identity map and the invalidation
    timestamp are mutable and live in [Model.state]. *)
Inductive Model : Type :=
  MkModel {
    model_name : string;
    table : string;
    fields : list Field;
    primaryField : Field;
    refField : option Field;
    inheritField : option Field;
    super : option Model;
    abstract : bool;
    cacheTTL : option Z;
    cacheInvalidation : bool;
    repo_cache : bool;
    transactional : bool
  }.

(** [model.inherits]: the name of the parent model. *)
Definition inherits (m : Model) : option string := model_name <$> super m.

(** The getter [model.cache]: the repository cache when the model has a
    positive TTL, else [null]; only its truthiness is read here. *)
Definition has_cache (m : Model) : bool :=
  match cacheTTL m with
  | Some ttl => (0 <? ttl) && repo_cache m
  | None => false
  end.

(** [_isReady: boolean | Promise<any>] *)
Inductive readiness : Type := Ready | NotReady | Pending.

(** [class Record] *)
Inductive record : Type :=
  MkRecord {
    _model : Model;
    _changes : gmap string jsval;
    _parent : option record;
    _data : gmap string jsval;
    _isReady : readiness;
    _flushed : bool;
    _isDirty : bool
  }.

(** What a property setter installed by [Field.attach] may touch. *)
Record tracking : Type :=
  MkTracking {
    t_changes : gmap string jsval;
    t_data : gmap string jsval;
    t_isDirty : bool
  }.

(** The methods of the field objects (Fields.js) and the accessors that
    [Field.attach] puts on the record prototype.  A hook or validator
    answers [Some msg] when it throws or rejects. *)
Class FieldOps : Type :=
  {
    deserialize : Field -> record -> jsval -> jsval;
    serialize : Field -> record -> jsval;
    toJSON : Field -> record -> jsval;
    validate : Field -> record -> option string;
    pre_create : Field -> record -> option string;
    post_create : Field -> record -> option string;
    pre_update : Field -> record -> option string;
    post_update : Field -> record -> option string;
    (** [record[field.name] = v] *)
    assign : Field -> record -> jsval -> tracking;
    (** [record.id] and [record.id = v] *)
    get_id : record -> jsval;
    set_id : record -> jsval -> tracking
  }.

(** What is sent to the collaborators, in order. *)
Inductive event : Type :=
| StorageUpdate (table : string) (id : jsval) (update : object)
| StorageInsert (table : string) (row : object)
| StorageLastId (table : string)
| CacheSet (model : string) (id : jsval) (json : object) (ttl : option Z)
| Emit (what : string) (model : string)
| InvalidateCache (model : string).

(** The answers of the external storage, which may depend on what was sent
    before.  [Some msg] is a rejection. *)
Class Storage : Type :=
  {
    update_rejects : list event -> string -> jsval -> object -> option string;
    insert_returning : list event -> string -> object -> outcome jsval;
    insert_rejects : list event -> string -> object -> option string;
    last_id : list event -> string -> outcome jsval
  }.

Definition with_parent (r : record) (p : option record) : record :=
  MkRecord (_model r) (_changes r) p (_data r) (_isReady r) (_flushed r)
           (_isDirty r).

Definition with_tracking (r : record) (t : tracking) : record :=
  MkRecord (_model r) (t_changes t) (_parent r) (t_data t) (_isReady r)
           (_flushed r) (t_isDirty t).

Definition with_isDirty (r : record) (b : bool) : record :=
  MkRecord (_model r) (_changes r) (_parent r) (_data r) (_isReady r)
           (_flushed r) b.

Definition with_isReady (r : record) (b : readiness) : record :=
  MkRecord (_model r) (_changes r) (_parent r) (_data r) b (_flushed r)
           (_isDirty r).

Definition with_flushed (r : record) (b : bool) : record :=
  MkRecord (_model r) (_changes r) (_parent r) (_data r) (_isReady r) b
           (_isDirty r).

(** [this._data[column]] *)
Definition data_at (r : record) (col : string) : jsval :=
  default JUndefined (_data r !! col).

(** The value a column shows: its pending change, else what is stored. *)
Definition current (r : record) (col : string) : jsval :=
  match _changes r !! col with
  | Some v => v
  | None => data_at r col
  end.

(** [model.fields[key]] *)
Definition field_named (m : Model) (key : string) : option Field :=
  find (fun f => String.eqb (name f) key) (fields m).

(** [Object.keys(this._changes).length > 0] *)
Definition has_changes (r : record) : bool :=
  negb (bool_decide (_changes r = ∅)).

(** An ancestor chain in which no record is dirty. *)
Fixpoint chain_clean (r : record) : bool :=
  match r with
  | MkRecord _ _ parent _ _ _ dirty =>
      negb dirty
      && match parent with
         | Some p => chain_clean p
         | None => true
         end
  end.

(** The record at the top of the parent chain. *)
Fixpoint root (r : record) : record :=
  match r with
  | MkRecord _ _ (Some p) _ _ _ _ => root p
  | MkRecord _ _ None _ _ _ _ => r
  end.

(** [model.fields.hasOwnProperty(key)] *)
Definition own_field (m : Model) (key : string) : bool :=
  bool_decide (is_Some (field_named m key)).

(** [key] names a field of the model of [r] or of one of its ancestors. *)
Fixpoint recognized (r : record) (key : string) : bool :=
  match r with
  | MkRecord m _ parent _ _ _ _ =>
      own_field m key
      || match parent with
         | Some p => recognized p key
         | None => false
         end
  end.

(** The number of updates sent to the storage. *)
Definition is_storage_update (e : event) : bool :=
  match e with
  | StorageUpdate _ _ _ => true
  | _ => false
  end.

Definition storage_updates (tr : list event) : nat :=
  length (List.filter is_storage_update tr).

Section WithFields.
Context `{FieldOps}.

(** The key of [data] read for a field in [sync]: the name of the field,
    else its column, else none ([continue]). *)
Definition sync_key (data : object) (field : Field) : option string :=
  if hasOwnProperty data (name field) then Some (name field)
  else if hasOwnProperty data (column field) then Some (column field)
  else None.

(** One turn of the loop of [sync]. *)
Definition sync_field (data : object) (r : record) (field : Field) : record :=
  match sync_key data field with
  | None => r
  | Some key =>
      if String.eqb (column field) (column (primaryField (_model r)))
         && truthy (data_at r (column field))
      then r
      else
        MkRecord (_model r)
          (delete (column field) (_changes r))
          (_parent r)
          (<[column field := deserialize field r (get data key)]> (_data r))
          (_isReady r) (_flushed r) (_isDirty r)
  end.

Fixpoint sync (r : record) (data : object) {struct r} : record :=
  match r with
  | MkRecord m changes parent dat ready flushed dirty =>
      let parent' :=
        match parent with
        | Some p => Some (sync p data)
        | None => None
        end in
      let r1 :=
        fold_left (sync_field data) (fields m)
          (MkRecord m changes parent' dat ready flushed dirty) in
      with_isDirty (with_isReady r1 Ready) (has_changes r1)
  end.

(** [new Record(model, data, parent)] *)
Definition constructor (model : Model) (data : object) (parent : option record)
  : record :=
  let this := MkRecord model ∅ parent ∅ NotReady false false in
  let this := sync this data in
  MkRecord (_model this) (_changes this) (_parent this) (_data this)
    (if (1 <? Z.of_nat (length (keys data))) then Ready else NotReady)
    false false.

Definition toRawJSON (r : record) : object :=
  fold_left
    (fun json field =>
       match toJSON field r with
       | JUndefined => json
       | value => set_key json (name field) value
       end)
    (fields (_model r)) [].

(** [Promise.all] over one hook of every field of the list. *)
Fixpoint all_hooks (hook : Field -> record -> option string)
    (fs : list Field) (r : record) : option string :=
  match fs with
  | [] => None
  | field :: rest =>
      match hook field r with
      | Some msg => Some msg
      | None => all_hooks hook rest r
      end
  end.

(** The loop of [flush] that validates and builds the update object. *)
Fixpoint build_update (fs : list Field) (r : record) (update : object)
  : outcome object :=
  match fs with
  | [] => Ok update
  | field :: rest =>
      if bool_decide (stored field = Some false) then build_update rest r update
      else
        match validate field r with
        | Some msg => Throw msg
        | None =>
            build_update rest r
              (if bool_decide (is_Some (_changes r !! column field))
               then set_key update (column field) (serialize field r)
               else update)
        end
  end.

(** [for (const key in update) ... model.fields[key].post_update(this)]:
    the keys of [update] are columns, looked up among the field names. *)
Fixpoint updated_fields (m : Model) (ks : list string) : option (list Field) :=
  match ks with
  | [] => Some []
  | key :: rest =>
      match field_named m key with
      | None => None
      | Some f => cons f <$> updated_fields m rest
      end
  end.

Definition undefined_post_update : string :=
  "TypeError: Cannot read properties of undefined (reading 'post_update')".

End WithFields.

Section WithStorage.
Context `{FieldOps} `{Storage}.

(** The body of [if (this._isDirty) { ... }] in [flush], for a record of
    a class that overrides none of [pre_update], [pre_validate] and
    [post_update]: the three methods of [class Record] are [return this].
    [flush_dirty_hooked] below is the body with the hooks of the class. *)
Definition flush_dirty (r : record) (tr : list event)
  : outcome unit * record * list event :=
  let m := _model r in
  let r := with_isDirty r false in
  match all_hooks pre_update (fields m) r with
  | Some msg => (Throw msg, r, tr)
  | None =>
      match build_update (fields m) r [] with
      | Throw msg => (Throw msg, r, tr)
      | Ok update =>
          let written :=
            match update with
            | [] => (None, tr)
            | _ :: _ =>
                (update_rejects tr (table m) (get_id r) update,
                 tr ++ [StorageUpdate (table m) (get_id r) update])
            end in
          match written with
          | (Some msg, tr) => (Throw msg, r, tr)
          | (None, tr) =>
              let r :=
                MkRecord (_model r) ∅ (_parent r) (_changes r ∪ _data r)
                  (_isReady r) true false in
              let tr :=
                if has_cache m
                then tr ++ [CacheSet (model_name m) (get_id r) (toRawJSON r)
                              (cacheTTL m)]
                else tr in
              match updated_fields m (keys update) with
              | None => (Throw undefined_post_update, r, tr)
              | Some fs =>
                  match all_hooks post_update fs r with
                  | Some msg => (Throw msg, r, tr)
                  | None =>
                      let tr := tr ++ [Emit "update" (model_name m)] in
                      let tr :=
                        if cacheInvalidation m
                        then tr ++ [InvalidateCache (model_name m)]
                        else tr in
                      (Ok tt, r, tr)
                  end
              end
          end
      end
  end.

Fixpoint flush (r : record) (tr : list event) {struct r}
  : outcome unit * record * list event :=
  match r with
  | MkRecord m changes parent dat ready flushed dirty =>
      let '(o, parent', tr) :=
        match parent with
        | Some p =>
            let '(o, p', tr') := flush p tr in (o, Some p', tr')
        | None => (Ok tt, None, tr)
        end in
      let r := MkRecord m changes parent' dat ready flushed dirty in
      match o with
      | Throw msg => (Throw msg, r, tr)
      | Ok _ => if dirty then flush_dirty r tr else (Ok tt, r, tr)
      end
  end.

(** The [for (const key in data)] loop of [write]: the record after the
    assignments and what is left of [data]. *)
Definition write_own (r : record) (data : object) : record * object :=
  fold_left
    (fun '(r, data) key =>
       match field_named (_model r) key with
       | Some field =>
           (with_tracking r (assign field r (get data key)),
            delete_key data key)
       | None => (r, data)
       end)
    (keys data) (r, data).

Definition unknown_fields (remainKeys : list string) (modelName : string)
  : string :=
  "Field " +:+ join ", " remainKeys +:+ " does not exist on model "
  +:+ modelName.

(** [write(data)]; [data = None] is a call without argument.  The third
    component is the caller's object after the call. *)
Fixpoint write (r : record) (data : option object) (tr : list event)
    {struct r}
  : outcome unit * record * option object * list event :=
  match data with
  | None => let '(o, r, tr) := flush r tr in (o, r, None, tr)
  | Some data =>
      let '(r1, data) := write_own r data in
      let '(o, parent', data, tr) :=
        match r with
        | MkRecord _ _ (Some p) _ _ _ _ =>
            match data with
            | _ :: _ =>
                let '(o, p', data', tr') := write p (Some data) tr in
                (o, Some p', default data data', tr')
            | [] => (Ok tt, Some p, data, tr)
            end
        | MkRecord _ _ None _ _ _ _ => (Ok tt, None, data, tr)
        end in
      let r2 := with_parent r1 parent' in
      match o with
      | Throw msg => (Throw msg, r2, Some data, tr)
      | Ok _ =>
          match keys data with
          | (_ :: _) as remainKeys =>
              (Throw (unknown_fields remainKeys (model_name (_model r2))),
               r2, Some data, tr)
          | [] => let '(o, r3, tr) := flush r2 tr in (o, r3, Some data, tr)
          end
      end
  end.

End WithStorage.

(** [this.pre_update()], [this.pre_validate()] and [this.post_update()]:
    the methods of the class of the record.  A model class overrides
    them, and they run with the record as [this]: a hook may assign
    fields of the record, and it may reject.  A hook answers [Some msg]
    when it rejects, and leaves the pending changes, the values and the
    dirty flag of its second answer, which is what the property setters
    of the record touch.  What a hook does to anything but its record is
    not followed. *)
Class RecordHooks : Type :=
  {
    this_pre_update : record -> option string * tracking;
    this_pre_validate : record -> option string * tracking;
    this_post_update : record -> option string * tracking
  }.

(** What a record tracks. *)
Definition tracking_of (r : record) : tracking :=
  MkTracking (_changes r) (_data r) (_isDirty r).

(** The hooks of [class Record] itself: each is [return this]. *)
Definition Record_hooks : RecordHooks :=
  {| this_pre_update := fun r => (None, tracking_of r);
     this_pre_validate := fun r => (None, tracking_of r);
     this_post_update := fun r => (None, tracking_of r) |}.

Section WithHooks.
Context `{FieldOps} `{Storage} `{RecordHooks}.

(** [this._isDirty = false; await this.pre_update()]: what the hook
    answers, and the record as it leaves it. *)
Definition pre_update_answer (r : record) : option string :=
  (this_pre_update (with_isDirty r false)).1.

Definition pre_updated (r : record) : record :=
  let r := with_isDirty r false in
  with_tracking r (this_pre_update r).2.

(** [await this.pre_validate()], which follows. *)
Definition pre_validate_answer (r : record) : option string :=
  (this_pre_validate (pre_updated r)).1.

Definition pre_hooked (r : record) : record :=
  let r := pre_updated r in
  with_tracking r (this_pre_validate r).2.

(** [this._isDirty = false; for (const key in this._changes) ...;
    this._changes = {}; this._flushed = true] *)
Definition committed (r : record) : record :=
  MkRecord (_model r) ∅ (_parent r) (_changes r ∪ _data r) (_isReady r)
    true false.

(** The body of [if (this._isDirty) { ... }] in [flush], for a record of
    a class with hooks of its own.  [flush_dirty] above is the same body
    for the hooks of [class Record]. *)
Definition flush_dirty_hooked (r : record) (tr : list event)
  : outcome unit * record * list event :=
  let m := _model r in
  let r := with_isDirty r false in
  let rejected := (this_pre_update r).1 in
  let r := with_tracking r (this_pre_update r).2 in
  match rejected with
  | Some msg => (Throw msg, r, tr)
  | None =>
  let rejected := (this_pre_validate r).1 in
  let r := with_tracking r (this_pre_validate r).2 in
  match rejected with
  | Some msg => (Throw msg, r, tr)
  | None =>
  match all_hooks pre_update (fields m) r with
  | Some msg => (Throw msg, r, tr)
  | None =>
      match build_update (fields m) r [] with
      | Throw msg => (Throw msg, r, tr)
      | Ok update =>
          let written :=
            match update with
            | [] => (None, tr)
            | _ :: _ =>
                (update_rejects tr (table m) (get_id r) update,
                 tr ++ [StorageUpdate (table m) (get_id r) update])
            end in
          match written with
          | (Some msg, tr) => (Throw msg, r, tr)
          | (None, tr) =>
              let r := committed r in
              let tr :=
                if has_cache m
                then tr ++ [CacheSet (model_name m) (get_id r) (toRawJSON r)
                              (cacheTTL m)]
                else tr in
              match updated_fields m (keys update) with
              | None => (Throw undefined_post_update, r, tr)
              | Some fs =>
                  match all_hooks post_update fs r with
                  | Some msg => (Throw msg, r, tr)
                  | None =>
                      let rejected := (this_post_update r).1 in
                      let r := with_tracking r (this_post_update r).2 in
                      match rejected with
                      | Some msg => (Throw msg, r, tr)
                      | None =>
                          let tr := tr ++ [Emit "update" (model_name m)] in
                          let tr :=
                            if cacheInvalidation m
                            then tr ++ [InvalidateCache (model_name m)]
                            else tr in
                          (Ok tt, r, tr)
                      end
                  end
              end
          end
      end
  end
  end
  end.

(** [flush()] of a record of a class with hooks of its own. *)
Fixpoint flush_hooked (r : record) (tr : list event) {struct r}
  : outcome unit * record * list event :=
  match r with
  | MkRecord m changes parent dat ready flushed dirty =>
      let '(o, parent', tr) :=
        match parent with
        | Some p =>
            let '(o, p', tr') := flush_hooked p tr in (o, Some p', tr')
        | None => (Ok tt, None, tr)
        end in
      let r := MkRecord m changes parent' dat ready flushed dirty in
      match o with
      | Throw msg => (Throw msg, r, tr)
      | Ok _ => if dirty then flush_dirty_hooked r tr else (Ok tt, r, tr)
      end
  end.

End WithHooks.

Section Reading.
Context `{FieldOps}.

(** [field.read(record)] of the field objects, which [isChanged] calls on
    the primary field. *)
Variable read : Field -> record -> jsval.

Definition no_such_field (fieldName modelName : string) : string :=
  "Field " +:+ fieldName +:+ " does not exist on model " +:+ modelName.

(** [getField(name)] *)
Definition getField (r : record) (fieldName : string) : outcome Field :=
  match field_named (_model r) fieldName with
  | Some f => Ok f
  | None => Throw (no_such_field fieldName (model_name (_model r)))
  end.

(** [isChanged(field)] *)
Definition isChanged (r : record) (field : string) : outcome bool :=
  let id := read (primaryField (_model r)) r in
  if negb (truthy id) then Ok true
  else
    match getField r field with
    | Throw msg => Throw msg
    | Ok f => Ok (bool_decide (is_Some (_changes r !! column f)))
    end.

(** [{ ...a, ...b }]: the keys of [a] in their order, each with the value
    [b] gives it if any, then the keys [b] adds. *)
Definition spread (a b : object) : object :=
  fold_left (fun o kv => set_key o kv.1 kv.2) b a.

(** [Record.toJSON()]: the JSON of the parent, overridden by the record's
    own ([toJSON] alone names the method of a field). *)
Fixpoint record_toJSON (r : record) : object :=
  match r with
  | MkRecord _ _ parent _ _ _ _ =>
      let json :=
        match parent with
        | Some p => record_toJSON p
        | None => []
        end in
      spread json (toRawJSON r)
  end.

End Reading.

End Rec.

(* ===================================================================== *)
(** ** Model.allocate and Model.create *)
(* ===================================================================== *)

Module Model.
Import Rec.

(** The mutable part of a repository: the record instances, addressed by
    their position in [heap], and the identity map [entities] of every
    model, by model name.  An instance holds its parent chain by value. *)
Record state : Type :=
  MkState {
    heap : list record;
    entities : gmap string (jsmap nat)
  }.

Definition empty_state : state := MkState [] ∅.

(** [model.entities] *)
Definition entities_of (s : state) (m : Model) : jsmap nat :=
  default [] (entities s !! model_name m).

(** [model.entities.set(id, instance)] *)
Definition entities_set (s : state) (m : Model) (id : jsval) (l : nat)
  : state :=
  MkState (heap s)
    (<[model_name m := map_set (entities_of s m) id l]> (entities s)).

Definition store (s : state) (l : nat) (r : record) : state :=
  MkState (<[l := r]> (heap s)) (entities s).

Definition abstract_error (m : Model) : string :=
  "Cannot instantiate abstract model " +:+ model_name m.

Definition no_discriminator (m : Model) (f : Field) : string :=
  "Cannot allocate model " +:+ model_name m
  +:+ " without discriminator field " +:+ name f.

Definition not_registered (name : string) : string :=
  "Model not registered: " +:+ name.

Definition undefined_property (what : string) : string :=
  "TypeError: Cannot read properties of undefined (reading '" +:+ what +:+ "')".

(** [repo.get(name)] and [repo.has(name)]. *)
Definition repo_get (repo : gmap string Model) (name : jsval)
  : outcome Model :=
  match repo !! to_string name with
  | Some m => Ok m
  | None => Throw (not_registered (to_string name))
  end.

(** The field that redirects allocation to a child model. *)
Definition discriminator_field (m : Model) : option Field :=
  match refField m with
  | Some f =>
      if isDiscriminator f then Some f else find isDiscriminator (fields m)
  | None => find isDiscriminator (fields m)
  end.

Definition discriminator_value (discField : Field) (data : object) : jsval :=
  nullish
    (if negb (String.eqb (name discField) "")
        && hasOwnProperty data (name discField)
     then get data (name discField) else JUndefined)
    (if negb (String.eqb (column discField) "")
        && hasOwnProperty data (column discField)
     then get data (column discField) else JUndefined).

(** A child of [m] named by the string [v], if there is one. *)
Definition child_named (repo : gmap string Model) (m : Model) (v : jsval)
  : option Model :=
  match v with
  | JStr name =>
      match repo !! name with
      | Some maybeChild =>
          if bool_decide (inherits maybeChild = Some (model_name m))
          then Some maybeChild else None
      | None => None
      end
  | _ => None
  end.

(** The first part of [allocate], run unless [ignoreDiscriminator]: the
    model that takes over the allocation, if any. *)
Definition redirect (repo : gmap string Model) (m : Model) (data : object)
  : outcome (option Model) :=
  match discriminator_field m with
  | Some discField =>
      let discValue := discriminator_value discField data in
      if negb (truthy discValue) then Throw (no_discriminator m discField)
      else
        match repo_get repo discValue with
        | Ok childModel => Ok (Some childModel)
        | Throw msg => Throw msg
        end
  | None =>
      match find (fun kv => bool_decide (is_Some (child_named repo m kv.2)))
              data with
      | Some (_, v) => Ok (child_named repo m v)
      | None =>
          let dv := nullish (get data "class") (get data "_inherit") in
          Ok (child_named repo m dv)
      end
  end.

Section WithFields.
Context `{FieldOps}.

(** [allocate(data, ignoreDiscriminator)] on a plain object [data].  The
    calls on a child or on the parent model consume [fuel]; [None] is a
    run that did not finish within it. *)
Fixpoint allocate (fuel : nat) (repo : gmap string Model) (m : Model)
    (data : object) (ignoreDiscriminator : bool) (s : state)
  : option (outcome nat * state) :=
  match fuel with
  | O => None
  | S fuel =>
      if abstract m then Some (Throw (abstract_error m), s)
      else
        match (if ignoreDiscriminator then Ok None else redirect repo m data) with
        | Throw msg => Some (Throw msg, s)
        | Ok (Some childModel) => allocate fuel repo childModel data false s
        | Ok None =>
            let id := get data "id" in
            match (if truthy id then map_get (entities_of s m) id else None) with
            | Some l =>
                match heap s !! l with
                | Some existing => Some (Ok l, store s l (sync existing data))
                | None => Some (Throw (undefined_property "sync"), s)
                end
            | None =>
                let parent :=
                  match super m with
                  | None => Some (Ok None, s)
                  | Some sup =>
                      match inheritField m with
                      | None => Some (Throw (undefined_property "name"), s)
                      | Some f =>
                          match allocate fuel repo sup
                                  (set_key data (name f) (JStr (model_name m)))
                                  true s with
                          | None => None
                          | Some (Throw msg, s) => Some (Throw msg, s)
                          | Some (Ok lp, s) => Some (Ok (heap s !! lp), s)
                          end
                      end
                  end in
                match parent with
                | None => None
                | Some (Throw msg, s) => Some (Throw msg, s)
                | Some (Ok parent, s) =>
                    let instance := constructor m data parent in
                    let l := length (heap s) in
                    if truthy id then
                      let instance :=
                        match _isReady instance with
                        | NotReady => with_isReady instance Pending
                        | _ => instance
                        end in
                      let s := MkState (heap s ++ [instance]) (entities s) in
                      let s := entities_set s m id l in
                      let s :=
                        match super m with
                        | Some sup => entities_set s sup id l
                        | None => s
                        end in
                      Some (Ok l, s)
                    else
                      Some (Ok l, MkState (heap s ++ [instance]) (entities s))
                end
            end
        end
  end.

(** [allocate] called on each object of a list, one call after the
    other. *)
Fixpoint allocate_each (fuel : nat) (repo : gmap string Model) (m : Model)
    (datas : list object) (ignoreDiscriminator : bool) (s : state)
  : option (list (outcome nat) * state) :=
  match datas with
  | [] => Some ([], s)
  | data :: rest =>
      match allocate fuel repo m data ignoreDiscriminator s with
      | None => None
      | Some (o, s) =>
          match allocate_each fuel repo m rest ignoreDiscriminator s with
          | None => None
          | Some (os, s) => Some (o :: os, s)
          end
      end
  end.

End WithFields.

(** The entries of an identity map stored under the key [k]. *)
Definition entries_for {V : Type} (m : jsmap V) (k : jsval) : list (jsval * V) :=
  List.filter (fun kv => same_value_zero kv.1 k) m.

Section WithStorage.
Context `{FieldOps} `{Storage}.

(** The loop of [create] that validates and builds the row to insert. *)
Fixpoint build_insert (fs : list Field) (r : record) (toInsert : object)
  : outcome object :=
  match fs with
  | [] => Ok toInsert
  | field :: rest =>
      if bool_decide (stored field = Some false)
      then build_insert rest r toInsert
      else
        match validate field r with
        | Some msg => Throw msg
        | None =>
            build_insert rest r
              (match serialize field r with
               | JUndefined => toInsert
               | value => set_key toInsert (column field) value
               end)
        end
  end.

(** The insert of a model without parent: [insert(...).returning('id')],
    with the fallback of the [catch]; the answer is the [id] destructured
    from the result. *)
Definition insert_with_id (table : string) (toInsert : object)
    (tr : list event) : outcome jsval * list event :=
  match insert_returning tr table toInsert with
  | Ok id => (Ok id, tr ++ [StorageInsert table toInsert])
  | Throw _ =>
      let tr := tr ++ [StorageInsert table toInsert] in
      match insert_rejects tr table toInsert with
      | Some msg => (Throw msg, tr ++ [StorageInsert table toInsert])
      | None =>
          let tr := tr ++ [StorageInsert table toInsert] in
          (last_id tr table, tr ++ [StorageLastId table])
      end
  end.

(** [id.id ? id.id : id] *)
Definition returned_id (id : jsval) : outcome jsval :=
  match id with
  | JUndefined | JNull => Throw (undefined_property "id")
  | _ => Ok (if truthy (prop id "id") then prop id "id" else id)
  end.

(** [create] from the point where [data] is a record, at [l] in the heap. *)
Definition create_record (m : Model) (l : nat) (r : record) (s : state)
    (tr : list event) : outcome nat * state * list event :=
  match build_insert (fields m) r [] with
  | Throw msg => (Throw msg, s, tr)
  | Ok toInsert =>
      match all_hooks pre_create (fields m) r with
      | Some msg => (Throw msg, s, tr)
      | None =>
          let inserted :=
            match inherits m with
            | None =>
                match insert_with_id (table m) toInsert tr with
                | (Throw msg, tr) => (Throw msg, tr)
                | (Ok id, tr) =>
                    if negb (truthy (get_id r)) then
                      match returned_id id with
                      | Throw msg => (Throw msg, tr)
                      | Ok id => (Ok (with_tracking r (set_id r id)), tr)
                      end
                    else (Ok r, tr)
                end
            | Some _ =>
                match insert_rejects tr (table m) toInsert with
                | Some msg =>
                    (Throw msg, tr ++ [StorageInsert (table m) toInsert])
                | None => (Ok r, tr ++ [StorageInsert (table m) toInsert])
                end
            end in
          match inserted with
          | (Throw msg, tr) => (Throw msg, s, tr)
          | (Ok r, tr) =>
              let '(r, tr) :=
                if has_cache m && negb (transactional m)
                then (r, tr ++ [CacheSet (model_name m) (get_id r)
                                  (toRawJSON r) (cacheTTL m)])
                else (with_flushed r true, tr) in
              let r :=
                MkRecord (_model r) ∅ (_parent r) (_changes r ∪ _data r)
                  (_isReady r) (_flushed r) false in
              let s := store s l r in
              match all_hooks post_create (fields m) r with
              | Some msg => (Throw msg, s, tr)
              | None =>
                  let s :=
                    match super m with
                    | Some sup => entities_set s sup (get_id r) l
                    | None => s
                    end in
                  let tr := tr ++ [Emit "create" (model_name m)] in
                  let tr :=
                    if cacheInvalidation m
                    then tr ++ [InvalidateCache (model_name m)]
                    else tr in
                  (Ok l, s, tr)
              end
          end
      end
  end.

(** [create(data)] on a plain object.  The second component of the result
    is the caller's object after the call ([data.id] is assigned on it when
    the model has a parent). *)
Fixpoint create (fuel : nat) (repo : gmap string Model) (m : Model)
    (data : object) (s : state) (tr : list event)
  : option (outcome nat * object * state * list event) :=
  match fuel with
  | O => None
  | S fuel =>
      if abstract m then Some (Throw (abstract_error m), data, s, tr)
      else
        let parent :=
          match super m with
          | None => Some (Ok tt, data, s, tr)
          | Some sup =>
              match inheritField m with
              | None => Some (Throw (undefined_property "name"), data, s, tr)
              | Some f =>
                  match create fuel repo sup
                          (set_key data (name f) (JStr (model_name m))) s tr with
                  | None => None
                  | Some (Throw msg, _, s, tr) => Some (Throw msg, data, s, tr)
                  | Some (Ok lp, _, s, tr) =>
                      match heap s !! lp with
                      | None => Some (Throw (undefined_property "id"), data, s, tr)
                      | Some parentRecord =>
                          Some (Ok tt, set_key data "id" (get_id parentRecord),
                                s, tr)
                      end
                  end
              end
          end in
        match parent with
        | None => None
        | Some (Throw msg, data, s, tr) => Some (Throw msg, data, s, tr)
        | Some (Ok _, data, s, tr) =>
            match allocate fuel repo m data true s with
            | None => None
            | Some (Throw msg, s) => Some (Throw msg, data, s, tr)
            | Some (Ok l, s) =>
                match heap s !! l with
                | None => Some (Throw (undefined_property "pre_create"), data, s, tr)
                | Some r =>
                    let '(o, s, tr) := create_record m l r s tr in
                    Some (o, data, s, tr)
                end
            end
        end
  end.

End WithStorage.

End Model.

(* ===================================================================== *)
(** ** Request *)
(* ===================================================================== *)

Module Request.
Import ScopeBuilder.

(** An entry of knex's [_statements]. *)
Record statement : Type :=
  MkStatement { grouping : string; value : list string }.

(** A call made on the underlying query builder. *)
Inductive qb_call : Type :=
| ApplyCriteria (criteria : jsval)
| OrderBy (field : string) (direction : Direction)
| Limit (count : Z)
| Offset (count : Z)
| Select (columns : list string)
| Distinct.

(** [interface QueryBuilderLike]: the properties the request reads and the
    calls it has made.  knex records [select] and [distinct] among its
    statements, under the grouping [columns]. *)
Record QueryBuilder : Type :=
  MkQueryBuilder {
    _method : option string;
    _statements : list statement;
    _cacheTTL : option Z;
    _includeRelations : option (list string);
    calls : list qb_call
  }.

(** What the request reads of its model. *)
Record ModelView : Type :=
  MkModelView {
    name : string;
    table : string;
    columns : list string;
    primary_column : option string;
    has_cache : bool;
    scopeBuilder : option ScopeBuilder.t;
    _cacheInvalidateMs : Z
  }.

(** [class Request] *)
Record t : Type :=
  MkRequest {
    model : ModelView;
    queryBuilder : QueryBuilder;
    _scopeRequests : option (list ScopeRequest);
    _applyDefaultScope : option bool;
    _scopesApplied : bool
  }.

(** What leaves the request towards its collaborators, in order:
    the scope builder, the cache, and the storage behind
    [queryBuilder.then]. *)
Inductive io : Type :=
| ResolveScopes (scopeRequests : list ScopeRequest) (includeDefault : bool)
| CacheGet (key : string) (evictTimestamp : option Z)
| CacheSet (key : string) (v : jsval) (ttl : Z)
| Execute (qb : QueryBuilder).

(** The collaborators: the storage answering a query (which may depend on
    what happened before), the cache, [JSON.stringify], and
    [_wrapResult], which hands rows to [Model.allocate]. *)
Class Backend : Type :=
  {
    run_query : list io -> QueryBuilder -> outcome jsval;
    cache_get : list io -> string -> option Z -> jsval;
    stringify : list statement -> string;
    wrapResult : jsval -> outcome jsval
  }.

Definition with_qb (r : t) (qb : QueryBuilder) : t :=
  MkRequest (model r) qb (_scopeRequests r) (_applyDefaultScope r)
            (_scopesApplied r).

Definition call (qb : QueryBuilder) (c : qb_call) : QueryBuilder :=
  MkQueryBuilder (_method qb)
    (match c with
     | Select cols => _statements qb ++ [MkStatement "columns" cols]
     | Distinct => _statements qb ++ [MkStatement "columns" []]
     | _ => _statements qb
     end)
    (_cacheTTL qb) (_includeRelations qb) (calls qb ++ [c]).

(** [cache(ttl = 5)] *)
Definition cache (r : t) (ttl : Z) : t :=
  let qb := queryBuilder r in
  with_qb r (MkQueryBuilder (_method qb) (_statements qb) (Some ttl)
               (_includeRelations qb) (calls qb)).

(** [include(relations)]; the set is kept in insertion order. *)
Definition include (r : t) (relations : list string) : t :=
  let qb := queryBuilder r in
  with_qb r
    (MkQueryBuilder (_method qb) (_statements qb) (_cacheTTL qb)
       (Some (fold_left (fun set rel => if bool_decide (rel ∈ set) then set
                                        else set ++ [rel])
                relations (default [] (_includeRelations qb))))
       (calls qb)).

Definition unscoped (r : t) : t :=
  MkRequest (model r) (queryBuilder r) (_scopeRequests r) (Some false)
            (_scopesApplied r).

(** The steps of [_applyScopes] that push resolved options on the query:
    where clause, includes, cache, order, limit, offset. *)
Definition push_where (scopeOptions : ScopeOptions) (r : t) : t :=
  if truthy (where_ scopeOptions)
  then with_qb r (call (queryBuilder r) (ApplyCriteria (where_ scopeOptions)))
  else r.

Definition push_include (scopeOptions : ScopeOptions) (r : t) : t :=
  match ScopeBuilder.include scopeOptions with
  | Some incs => fold_left (fun r inc => include r [relation inc]) incs r
  | None => r
  end.

Definition push_cache (scopeOptions : ScopeOptions) (r : t) : t :=
  match ScopeBuilder.cache scopeOptions with
  | Some (inr ttl) => cache r ttl
  | Some (inl true) => cache r 300
  | _ => r
  end.

Definition push_order (scopeOptions : ScopeOptions) (r : t) : t :=
  match order scopeOptions with
  | Some ords =>
      fold_left (fun r '(field, direction) =>
                   with_qb r (call (queryBuilder r) (OrderBy field direction)))
        ords r
  | None => r
  end.

Definition push_limit (scopeOptions : ScopeOptions) (r : t) : t :=
  match limit scopeOptions with
  | Some n => with_qb r (call (queryBuilder r) (Limit n))
  | None => r
  end.

Definition push_offset (scopeOptions : ScopeOptions) (r : t) : t :=
  match offset scopeOptions with
  | Some n => with_qb r (call (queryBuilder r) (Offset n))
  | None => r
  end.

Definition push_options (r : t) (scopeOptions : ScopeOptions) : t :=
  push_offset scopeOptions
    (push_limit scopeOptions
       (push_order scopeOptions
          (push_cache scopeOptions
             (push_include scopeOptions (push_where scopeOptions r))))).

(** [_applyScopes()] *)
Definition _applyScopes (r : t) (log : list io) : outcome unit * t * list io :=
  if _scopesApplied r then (Ok tt, r, log)
  else
    let r := MkRequest (model r) (queryBuilder r) (_scopeRequests r)
               (_applyDefaultScope r) true in
    match scopeBuilder (model r) with
    | None => (Ok tt, r, log)
    | Some sb =>
        let includeDefault :=
          negb (bool_decide (_applyDefaultScope r = Some false)) in
        let scopeRequests := default [] (_scopeRequests r) in
        let log := log ++ [ResolveScopes scopeRequests includeDefault] in
        match applyScopes sb scopeRequests includeDefault with
        | Throw msg => (Throw msg, r, log)
        | Ok scopeOptions => (Ok tt, push_options r scopeOptions, log)
        end
    end.

Definition _shouldWrapResults (r : t) : bool :=
  match _method (queryBuilder r) with
  | None => true
  | Some method =>
      if String.eqb method "" then true
      else
        let m := toLowerCase method in
        negb (bool_decide
                (m ∈ ["insert"; "update"; "upsert"; "del"; "delete"]))
  end.

Definition _ensureDefaultIdSelect (r : t) : t :=
  let qb := queryBuilder r in
  let readLike :=
    match _method qb with
    | None => true
    | Some method =>
        String.eqb method "" || String.eqb method "select"
        || String.eqb method "first"
    end in
  if negb readLike then r
  else
    let stmts := _statements qb in
    let hasColumns :=
      existsb (fun s => String.eqb (grouping s) "columns"
                        && negb (bool_decide (value s = []))) stmts in
    if hasColumns then r
    else
      let hasJoins := existsb (fun s => String.eqb (grouping s) "join") stmts in
      if has_cache (model r) then
        let id := default "id" (primary_column (model r)) in
        let qb := call qb (Select [table (model r) +:+ "." +:+ id]) in
        with_qb r (if hasJoins then call qb Distinct else qb)
      else if hasJoins then
        with_qb r
          (call (call qb Distinct)
             (Select (map (fun col => table (model r) +:+ "." +:+ col)
                        (columns (model r)))))
      else with_qb r (call qb (Select (columns (model r)))).

Definition is_execute (e : io) : bool :=
  match e with
  | Execute _ => true
  | _ => false
  end.

Definition is_resolve (e : io) : bool :=
  match e with
  | ResolveScopes _ _ => true
  | _ => false
  end.

(** How many times the query was sent to the storage. *)
Definition executions (log : list io) : nat :=
  length (List.filter is_execute log).

(** How many times the scope builder was asked to resolve the scopes. *)
Definition scope_resolutions (log : list io) : nat :=
  length (List.filter is_resolve log).

Section WithBackend.
Context `{Backend}.

Definition _getRequestKey (r : t) : string :=
  name (model r) +:+ ":" +:+ stringify (_statements (queryBuilder r)).

(** [cache && this.queryBuilder._cacheTTL != null] *)
Definition caches (r : t) : bool :=
  has_cache (model r) && bool_decide (is_Some (_cacheTTL (queryBuilder r))).

(** The read of the cache in [then]: the marker of the model, then the
    entry of the request. *)
Definition read_cache (r : t) (log : list io) : jsval * list io :=
  let '(modelEvictTs, log) :=
    if negb (_cacheInvalidateMs (model r) =? 0)
    then (JNum (_cacheInvalidateMs (model r)), log)
    else
      (cache_get log ("$" +:+ name (model r)) None,
       log ++ [CacheGet ("$" +:+ name (model r)) None]) in
  let ts :=
    match modelEvictTs with
    | JNum n => if n =? 0 then None else Some n
    | _ => None
    end in
  (cache_get log (_getRequestKey r) ts,
   log ++ [CacheGet (_getRequestKey r) ts]).

(** The end of [then]: the default selection, then
    [queryBuilder.then(...)] with its callback. *)
Definition run (wrap : bool) (r : t) (log : list io)
  : outcome jsval * t * list io :=
  let r := _ensureDefaultIdSelect r in
  let log' := log ++ [Execute (queryBuilder r)] in
  match run_query log (queryBuilder r) with
  | Throw msg => (Throw msg, r, log')
  | Ok v =>
      if negb wrap then (Ok v, r, log')
      else if caches r then
        (wrapResult v, r,
         log' ++ [CacheSet (_getRequestKey r) v
                    (Z.max 1 (default 0 (_cacheTTL (queryBuilder r))))])
      else (wrapResult v, r, log')
  end.

(** [then()], awaited: what the returned promise settles to, the request
    and the log after the call. *)
Definition then_ (r : t) (log : list io) : outcome jsval * t * list io :=
  match _applyScopes r log with
  | (Throw msg, r, log) => (Throw msg, r, log)
  | (Ok _, r, log) =>
      let wrap := _shouldWrapResults r in
      if wrap && caches r then
        let '(item, log) := read_cache r log in
        if truthy item then (wrapResult item, r, log)
        else run wrap r log
      else run wrap r log
  end.


End WithBackend.

End Request.

(* ===================================================================== *)
(** ** Model: table name, query, scope, unscoped *)
(* ===================================================================== *)

Module Queries.
Import ScopeBuilder Request.






Definition abstract_error (m : ModelView) : string :=
  "Cannot instantiate abstract model " +:+ name m.

Definition no_scopes (m : ModelView) : string :=
  "Model '" +:+ name m +:+ "' has no scopes defined".

(** [checkAbstract()] *)
Definition checkAbstract (abstract : bool) (m : ModelView) : outcome unit :=
  if abstract then Throw (abstract_error m) else Ok tt.

(** [new Request(model, queryBuilder)] *)
Definition new_Request (m : ModelView) (qb : QueryBuilder) : Request.t :=
  MkRequest m qb None None false.

(** [query()] on an initialised model, of which [_init()] only checks that
    it is not abstract; [qb] is the builder that
    [repo.cnx(table).queryContext(...)] hands out. *)
Definition query (abstract : bool) (m : ModelView) (qb : QueryBuilder)
  : outcome Request.t :=
  match checkAbstract abstract m with
  | Throw msg => Throw msg
  | Ok _ =>
      let request := new_Request m qb in
      match scopeBuilder m with
      | Some sb =>
          if bool_decide (is_Some (defaultScope sb))
          then Ok (MkRequest (model request) (queryBuilder request)
                     (_scopeRequests request) (Some true)
                     (_scopesApplied request))
          else Ok request
      | None => Ok request
      end
  end.

(** [scope(...scopeRequests)] *)
Definition scope (abstract : bool) (m : ModelView) (qb : QueryBuilder)
    (scopeRequests : list ScopeRequest) : outcome Request.t :=
  match checkAbstract abstract m with
  | Throw msg => Throw msg
  | Ok _ =>
      match query abstract m qb with
      | Throw msg => Throw msg
      | Ok request =>
          match scopeBuilder m with
          | None => Throw (no_scopes m)
          | Some _ =>
              Ok (MkRequest (model request) (queryBuilder request)
                    (Some scopeRequests) (_applyDefaultScope request)
                    (_scopesApplied request))
          end
      end
  end.

(** [unscoped()] *)
Definition unscoped (abstract : bool) (m : ModelView) (qb : QueryBuilder)
  : outcome Request.t :=
  match checkAbstract abstract m with
  | Throw msg => Throw msg
  | Ok _ =>
      let request := new_Request m qb in
      Ok (MkRequest (model request) (queryBuilder request)
            (_scopeRequests request) (Some false) (_scopesApplied request))
  end.

End Queries.

(* ===================================================================== *)
(** ** Repository context *)
(* ===================================================================== *)

Module Repository.

(** [_context: Map<string, any>] *)
Definition context : Type := gmap string jsval.

(** [new Map()] *)
Definition no_context : context := ∅.

(** [get_context(key, defaultValue)]; a call without default passes
    [undefined]. *)
Definition get_context (ctx : context) (key : string) (defaultValue : jsval)
  : jsval :=
  if bool_decide (is_Some (ctx !! key))
  then default JUndefined (ctx !! key)
  else defaultValue.

(** [set_context(key, value)] *)
Definition set_context (ctx : context) (key : string) (v : jsval) : context :=
  <[key := v]> ctx.

End Repository.

(* ===================================================================== *)
(** * Properties *)
(* ===================================================================== *)

(** ** Scope composition *)

Module ScopeBuilderSpec.
Import ScopeBuilder.

Lemma occurs_in_middle (a b c : string) : occurs_in b (a +:+ b +:+ c).
Proof. by exists a, c. Qed.

Lemma app_assoc_str (a b c : string) : (a +:+ b) +:+ c = a +:+ (b +:+ c).
Proof.
  induction a as [|x a IH]; [done|].
  change (String x ((a +:+ b) +:+ c) = String x (a +:+ (b +:+ c))).
  by rewrite IH.
Qed.

Lemma scope_not_defined_names_scope (scopeName modelName : string) :
  occurs_in scopeName (scope_not_defined scopeName modelName).
Proof. apply occurs_in_middle. Qed.

Lemma scope_not_defined_names_model (scopeName modelName : string) :
  occurs_in modelName (scope_not_defined scopeName modelName).
Proof.
  exists ("Scope '" +:+ scopeName +:+ "' not defined on model '"), "'".
  unfold scope_not_defined. by rewrite !app_assoc_str.
Qed.

(** The where clause of a merge, case by case. *)
Lemma mergeOptions_where (base incoming : ScopeOptions) :
  where_ (mergeOptions base incoming) =
  if truthy (where_ incoming)
  then mergeWhere (where_ base) (where_ incoming)
  else where_ base.
Proof.
  unfold mergeOptions.
  destruct (truthy (where_ incoming)), (include incoming); reflexivity.
Qed.

(** With no where clause on one side the other side is kept as it is. *)
Lemma mergeOptions_where_one_sided (base incoming : ScopeOptions) :
  (truthy (where_ incoming) = false ->
   where_ (mergeOptions base incoming) = where_ base) /\
  (truthy (where_ base) = false -> truthy (where_ incoming) = true ->
   where_ (mergeOptions base incoming) = where_ incoming).
Proof.
  rewrite mergeOptions_where. split.
  - by intros ->.
  - intros Hb ->. unfold mergeWhere. by rewrite Hb.
Qed.

Lemma mergeWhere_and_list (base incoming : jsval) (xs : list jsval) :
  truthy base = true -> truthy incoming = true ->
  prop base "and" = JArr xs ->
  mergeWhere base incoming = JObj [("and", JArr (xs ++ [incoming]))].
Proof.
  intros Hb Hi Hand. unfold mergeWhere. by rewrite Hb, Hi, Hand.
Qed.


Lemma lookup_scope_own (sb : t) (scopeName : string) (d : ScopeDefinition) :
  scopes sb !! scopeName = Some d -> lookup_scope sb scopeName = Own d.
Proof. unfold lookup_scope. by intros ->. Qed.

Lemma lookup_scope_missing (sb : t) (scopeName : string) :
  scopes sb !! scopeName = None -> scopeName ∉ Object_prototype ->
  lookup_scope sb scopeName = Missing.
Proof.
  unfold lookup_scope. intros -> Hproto. by rewrite bool_decide_eq_false_2.
Qed.


Lemma apply_named_first_unregistered (sb : t) (pre post : list ScopeRequest)
    (r : ScopeRequest) (merged : ScopeOptions) :
  Forall (fun q => is_Some (scopes sb !! request_name q)) pre ->
  scopes sb !! request_name r = None ->
  request_name r ∉ Object_prototype ->
  apply_named sb (pre ++ r :: post) merged =
  Throw (scope_not_defined (request_name r) (model_name sb)).
Proof.
  intros Hpre Hr Hproto. revert merged.
  induction Hpre as [|q pre [d Hq] _ IH]; intros merged; simpl.
  - by rewrite (lookup_scope_missing _ _ Hr Hproto).
  - rewrite (lookup_scope_own _ _ _ Hq). apply IH.
Qed.

(** An inherited member that does not throw leaves the accumulator as it
    is. *)
Lemma apply_named_inherited_quiet (sb : t) (r : ScopeRequest)
    (merged : ScopeOptions) :
  scopes sb !! request_name r = None ->
  request_name r ∈ ["constructor"; "toString"; "__proto__"] ->
  apply_named sb [r] merged = Ok merged.
Proof.
  intros Hr Hin. simpl. unfold lookup_scope. rewrite Hr.
  assert (Hname : request_name r = "constructor"
                  \/ request_name r = "toString"
                  \/ request_name r = "__proto__").
  { apply elem_of_cons in Hin as [?|Hin]; [by left|].
    apply elem_of_cons in Hin as [?|Hin]; [by right; left|].
    apply elem_of_cons in Hin as [?|Hin]; [by right; right|].
    by apply elem_of_nil in Hin. }
  destruct Hname as [-> | [-> | ->]]; simpl; by destruct merged.
Qed.

(** Some request of the list is the first one that is not registered. *)
Lemma first_unregistered (sb : t) (reqs : list ScopeRequest) (r : ScopeRequest) :
  In r reqs -> scopes sb !! request_name r = None ->
  exists pre q post,
    reqs = pre ++ q :: post /\
    Forall (fun q => is_Some (scopes sb !! request_name q)) pre /\
    scopes sb !! request_name q = None.
Proof.
  induction reqs as [|a reqs IH]; intros Hin Hr; [done|].
  destruct (scopes sb !! request_name a) as [d|] eqn:Ha.
  - destruct Hin as [->|Hin]; [congruence|].
    destruct (IH Hin Hr) as (pre & q & post & -> & Hpre & Hq).
    exists (a :: pre), q, post. split; [done|]. split; [|done].
    constructor; [by rewrite Ha | done].
  - by exists [], a, reqs.
Qed.


(** A request that is found nowhere, at any place of the list, leaves
    [apply_named] without options. *)
Lemma apply_named_missing (sb : t) (reqs : list ScopeRequest)
    (r : ScopeRequest) (merged o : ScopeOptions) :
  In r reqs -> lookup_scope sb (request_name r) = Missing ->
  apply_named sb reqs merged <> Ok o.
Proof.
  revert merged. induction reqs as [|a reqs IH]; intros merged Hin Hr; [done|].
  simpl. destruct Hin as [->|Hin]; [by rewrite Hr|].
  destruct (lookup_scope sb (request_name a)); [by apply IH| |done].
  destruct (inherited_scope (request_name a)); [by apply IH|done].
Qed.

(** C9.  A request for a name that [this.scopes[name]] does not find makes
    [applyScopes] throw: no options are returned, and the message of the
    error, which is that of the first request the scopes do not hold,
    names the scope and the model.  The lookup is not limited to the keys
    of the scopes map: a name that the map does not hold is still found
    when [Object.prototype] has a member of that name, and for
    [constructor], [toString] and [__proto__] nothing is thrown: the
    request gives what the request list without it gives. *)
Theorem applyScopes_unregistered_scope (sb : t) (reqs : list ScopeRequest)
    (includeDefault : bool) (r : ScopeRequest) :
  In r reqs ->
  scopes sb !! request_name r = None ->
  (request_name r ∉ Object_prototype ->
   forall o, applyScopes sb reqs includeDefault <> Ok o) /\
  (exists pre q post,
     reqs = pre ++ q :: post /\
     Forall (fun q => is_Some (scopes sb !! request_name q)) pre /\
     scopes sb !! request_name q = None /\
     (request_name q ∉ Object_prototype ->
      applyScopes sb reqs includeDefault =
        Throw (scope_not_defined (request_name q) (model_name sb)) /\
      occurs_in (request_name q)
        (scope_not_defined (request_name q) (model_name sb)) /\
      occurs_in (model_name sb)
        (scope_not_defined (request_name q) (model_name sb)))) /\
  (reqs = [r] -> request_name r ∉ Object_prototype ->
   applyScopes sb reqs includeDefault =
     Throw (scope_not_defined (request_name r) (model_name sb))) /\
  (reqs = [r] -> request_name r ∈ ["constructor"; "toString"; "__proto__"] ->
   applyScopes sb reqs includeDefault = applyScopes sb [] includeDefault).
Proof.
  intros Hin Hr.
  destruct (first_unregistered sb reqs r Hin Hr)
    as (pre & q & post & Heq & Hpre & Hq).
  split; [|split; [|split]].
  - intros Hproto o. unfold applyScopes. apply apply_named_missing with r.
    + done.
    + by apply lookup_scope_missing.
  - exists pre, q, post. split; [done|]. split; [done|]. split; [done|].
    intros Hproto. split; [|split].
    + unfold applyScopes. rewrite Heq.
      by apply apply_named_first_unregistered.
    + apply scope_not_defined_names_scope.
    + apply scope_not_defined_names_model.
  - intros -> Hproto. unfold applyScopes. simpl.
    by rewrite (lookup_scope_missing _ _ Hr Hproto).
  - intros -> Hquiet. unfold applyScopes.
    by rewrite (apply_named_inherited_quiet _ _ _ Hr Hquiet).
Qed.




(** A model [TestModel] whose scopes map holds only [valid]. *)
Definition test_builder : t :=
  MkScopeBuilder "TestModel"
    {[ "valid" := DefOptions
         (MkScopeOptions (JObj [("name", JStr "test")]) None None None None
            None None) ]}
    None.

(** A name that is no member of [Object.prototype]. *)
Ltac not_inherited :=
  let Hin := fresh "Hin" in
  intros Hin;
  repeat (apply elem_of_cons in Hin as [Hin|Hin]; [discriminate Hin|]);
  by apply elem_of_nil in Hin.

Lemma applyScopes_unregistered_scope_witness :
  applyScopes test_builder [ByName "doesNotExist"] true =
    Throw "Scope 'doesNotExist' not defined on model 'TestModel'" /\
  applyScopes test_builder [ByName "toString"] true = Ok empty_options.
Proof.
  split.
  - refine (proj1 (proj2 (proj2 (applyScopes_unregistered_scope test_builder
              [ByName "doesNotExist"] true (ByName "doesNotExist") _ _)))
              _ _).
    + left. reflexivity.
    + reflexivity.
    + reflexivity.
    + simpl. not_inherited.
  - refine (proj2 (proj2 (proj2 (applyScopes_unregistered_scope test_builder
              [ByName "toString"] true (ByName "toString") _ _))) _ _).
    + left. reflexivity.
    + reflexivity.
    + reflexivity.
    + simpl. right. left.
Defined.

End ScopeBuilderSpec.

(** ** In-memory cache adapter *)

Module CacheAdapterSpec.
Import CacheAdapter.

(** What [get] answers right after [set], for any marker. *)
Lemma get_after_set (t0 t1 ttl : Z) (c : t) (key : string) (v : jsval)
    (evictTimestamp : option Z) :
  get t1 (set t0 c key v ttl).2 key evictTimestamp =
  let c' := (set t0 c key v ttl).2 in
  let expires := t0 + ttl * 1000 in
  if expires <? t1 then (JNull, MkAdapter (delete key (cache c')) (tags c'))
  else if marker_set evictTimestamp && (expires <=? default 0 evictTimestamp)
       then (JNull, MkAdapter (delete key (cache c')) (tags c'))
       else (v, c').
Proof.
  unfold get, set. simpl. by rewrite lookup_insert_eq.
Qed.

(** Without a marker the stored value is returned up to the expiry time. *)
Lemma get_without_marker (t0 t1 ttl : Z) (c : t) (key : string) (v : jsval) :
  t1 <= t0 + ttl * 1000 ->
  get t1 (set t0 c key v ttl).2 key None = (v, (set t0 c key v ttl).2).
Proof.
  intros Hlive. rewrite get_after_set. simpl.
  destruct (t0 + ttl * 1000 <? t1) eqn:E; [lia | done].
Qed.

(** A marker evicts the entry exactly when it is at or past the expiry
    time of the entry; the time at which the entry was created plays no
    part. *)
Lemma get_with_marker (t0 t1 ttl ts : Z) (c : t) (key : string) (v : jsval) :
  t1 <= t0 + ttl * 1000 -> ts <> 0 ->
  (get t1 (set t0 c key v ttl).2 key (Some ts)).1 =
  if t0 + ttl * 1000 <=? ts then JNull else v.
Proof.
  intros Hlive Hts. rewrite get_after_set. simpl.
  destruct (t0 + ttl * 1000 <? t1) eqn:E; [lia|].
  rewrite (proj2 (Z.eqb_neq ts 0)) by done. simpl.
  by destruct (t0 + ttl * 1000 <=? ts).
Qed.

(** A marker that falls between the creation and the expiry of an entry
    leaves the entry in place. *)
Lemma get_marker_inside_ttl (t0 t1 ttl ts : Z) (c : t) (key : string)
    (v : jsval) :
  0 <= t0 -> t0 < ts -> ts < t0 + ttl * 1000 -> t1 <= t0 + ttl * 1000 ->
  get t1 (set t0 c key v ttl).2 key (Some ts) = (v, (set t0 c key v ttl).2).
Proof.
  intros Hpos Hafter Hbefore Hlive. rewrite get_after_set. simpl.
  destruct (t0 + ttl * 1000 <? t1) eqn:E; [lia|].
  rewrite (proj2 (Z.eqb_neq ts 0)) by lia.
  rewrite (proj2 (Z.leb_gt (t0 + ttl * 1000) ts)) by lia.
  done.
Qed.

(** C3.  An entry is stored at time 1000 with a TTL of 10 seconds, the
    model is invalidated at time 5000, and the entry is read at time 6000
    with that marker: the marker is later than the creation of the entry,
    yet [get] hands the stored value back and keeps the entry, because it
    compares the marker with the expiry time (11000) and not with the
    creation time.  Without marker the same read returns the value. *)
Theorem get_ignores_marker_before_expiry :
  let c := (set 1000 create "Users:[]" (JStr "rows") 10).2 in
  get 6000 c "Users:[]" (Some 5000) = (JStr "rows", c) /\
  get 6000 c "Users:[]" None = (JStr "rows", c).
Proof.
  split.
  - apply (get_marker_inside_ttl 1000 6000 10 5000); lia.
  - apply (get_without_marker 1000 6000 10). lia.
Qed.

End CacheAdapterSpec.

(** ** Records *)

Module RecSpec.
Import Rec.

(** Induction along the parent chain. *)
Lemma record_chain_ind (P : record -> Prop) :
  (forall r, (forall p, _parent r = Some p -> P p) -> P r) ->
  forall r, P r.
Proof.
  intros step. fix IH 1. intros r. apply step.
  destruct r as [m c [p|] d rd fl di]; simpl; intros p' Hp.
  - pose proof (IH p) as HP. clear IH. injection Hp as <-. exact HP.
  - discriminate Hp.
Qed.

Section Sync.
Context `{FieldOps}.

Lemma sync_unfold (r : record) (data : object) :
  sync r data =
  let r0 := with_parent r ((fun p => sync p data) <$> _parent r) in
  let r1 := fold_left (sync_field data) (fields (_model r)) r0 in
  with_isDirty (with_isReady r1 Ready) (has_changes r1).
Proof. destruct r as [m c [p|] d rd fl di]; reflexivity. Qed.

Lemma sync_field_frame (data : object) (r : record) (f : Field) :
  _model (sync_field data r f) = _model r /\
  _parent (sync_field data r f) = _parent r.
Proof.
  unfold sync_field. destruct (sync_key data f); [|done].
  by destruct (_ && _).
Qed.

Lemma fold_sync_frame (data : object) (fs : list Field) (r : record) :
  _model (fold_left (sync_field data) fs r) = _model r /\
  _parent (fold_left (sync_field data) fs r) = _parent r.
Proof.
  revert r. induction fs as [|f fs IH]; intros r; simpl; [done|].
  destruct (IH (sync_field data r f)) as [-> ->]. apply sync_field_frame.
Qed.






Lemma sync_shape (r : record) (data : object) :
  _model (sync r data) = _model r /\
  _parent (sync r data) = (fun p => sync p data) <$> _parent r.
Proof.
  rewrite sync_unfold. simpl.
  by destruct (fold_sync_frame data (fields (_model r))
                 (with_parent r ((fun p => sync p data) <$> _parent r)))
    as [-> ->].
Qed.



End Sync.

Section Flush.
Context `{FieldOps} `{Storage}.

Lemma flush_unfold (r : record) (tr : list event) :
  flush r tr =
  match _parent r with
  | Some p =>
      let '(o, p', tr') := flush p tr in
      match o with
      | Throw msg => (Throw msg, with_parent r (Some p'), tr')
      | Ok _ =>
          if _isDirty r then flush_dirty (with_parent r (Some p')) tr'
          else (Ok tt, with_parent r (Some p'), tr')
      end
  | None => if _isDirty r then flush_dirty r tr else (Ok tt, r, tr)
  end.
Proof.
  destruct r as [m c [p|] d rd fl di]; simpl; [|done].
  by destruct (flush p tr) as [[[] p'] tr'].
Qed.

Lemma chain_clean_unfold (r : record) :
  chain_clean r =
  negb (_isDirty r)
  && match _parent r with Some p => chain_clean p | None => true end.
Proof. by destruct r as [m c [p|] d rd fl di]. Qed.

(** Nothing is sent, and nothing changes, when no record of the chain is
    dirty. *)
Lemma flush_chain_clean (r : record) (tr : list event) :
  chain_clean r = true -> flush r tr = (Ok tt, r, tr).
Proof.
  revert tr. induction r as [r IH] using record_chain_ind. intros tr.
  rewrite chain_clean_unfold, flush_unfold.
  intros [Hclean Hparent]%andb_true_iff.
  apply negb_true_iff in Hclean.
  destruct r as [m c [p|] d rd fl di]; simpl in *; subst di; [|done].
  by rewrite (IH p eq_refl tr Hparent).
Qed.

(** What [flush_dirty] leaves behind, whatever its outcome. *)
Lemma flush_dirty_frame (r r' : record) (tr tr' : list event)
    (o : outcome unit) :
  flush_dirty r tr = (o, r', tr') ->
  _isDirty r' = false /\ _parent r' = _parent r /\ _model r' = _model r.
Proof.
  unfold flush_dirty.
  destruct (all_hooks _ _ _); [by intros [= <- <- <-]|].
  destruct (build_update _ _ _) as [update|]; [|by intros [= <- <- <-]].
  destruct update as [|kv update].
  - destruct (updated_fields _ _); [|by intros [= <- <- <-]].
    destruct (all_hooks _ _ _); by intros [= <- <- <-].
  - destruct (update_rejects _ _ _ _); [by intros [= <- <- <-]|].
    destruct (updated_fields _ _); [|by intros [= <- <- <-]].
    destruct (all_hooks _ _ _); by intros [= <- <- <-].
Qed.

(** After a flush that resolved no record of the chain is dirty. *)
Lemma flush_ok_chain_clean (r r' : record) (tr tr' : list event) :
  flush r tr = (Ok tt, r', tr') -> chain_clean r' = true.
Proof.
  revert r' tr tr'. induction r as [r IH] using record_chain_ind.
  intros r' tr tr'. rewrite flush_unfold.
  destruct (_parent r) as [p|] eqn:Hp.
  - destruct (flush p tr) as [[[[]|msg] p'] tr1] eqn:Hflush; [|done].
    pose proof (IH p eq_refl _ _ _ Hflush) as Hclean.
    destruct (_isDirty r) eqn:Hd.
    + intros Hfd. apply flush_dirty_frame in Hfd as (Hdirty & Hpar & _).
      rewrite chain_clean_unfold, Hdirty, Hpar. simpl. done.
    + intros [= <- <-]. rewrite chain_clean_unfold. simpl. by rewrite Hd.
  - destruct (_isDirty r) eqn:Hd.
    + intros Hfd. apply flush_dirty_frame in Hfd as (Hdirty & Hpar & _).
      rewrite chain_clean_unfold, Hdirty, Hpar, Hp. done.
    + intros [= <- <-]. by rewrite chain_clean_unfold, Hd, Hp.
Qed.

(** The update object is not empty when a stored field has a pending
    change. *)
Lemma build_update_nonempty (fs : list Field) (r : record)
    (update update' : object) :
  build_update fs r update = Ok update' ->
  update <> []
  \/ (exists f, f ∈ fs /\ stored f <> Some false
                /\ is_Some (_changes r !! column f)) ->
  update' <> [].
Proof.
  revert update. induction fs as [|f fs IH]; intros update; simpl.
  - intros [= <-] [Hne|(f & Hin & _)]; [done | by apply elem_of_nil in Hin].
  - case_bool_decide as Hstored.
    + intros Hb Hsome. apply (IH _ Hb).
      destruct Hsome as [Hne|(g & Hin & Hg & Hch)]; [by left|].
      apply elem_of_cons in Hin as [->|Hin]; [done|]. right. by exists g.
    + destruct (validate f r); [done|].
      intros Hb Hsome. apply (IH _ Hb).
      case_bool_decide as Hch.
      * left. by destruct update as [|[k v] u]; simpl; [|destruct (String.eqb k _)].
      * destruct Hsome as [Hne|(g & Hin & Hg & Hgch)]; [by left|].
        apply elem_of_cons in Hin as [->|Hin]; [done|]. right. by exists g.
Qed.

Lemma storage_updates_app (tr tr' : list event) :
  storage_updates (tr ++ tr') = (storage_updates tr + storage_updates tr')%nat.
Proof. unfold storage_updates. by rewrite List.filter_app, length_app. Qed.

(** A dirty record with a pending change on a stored field sends exactly
    one update when its flush resolves. *)
Lemma flush_dirty_one_update (r r' : record) (tr tr' : list event) :
  (exists f, f ∈ fields (_model r) /\ stored f <> Some false
             /\ is_Some (_changes r !! column f)) ->
  flush_dirty r tr = (Ok tt, r', tr') ->
  storage_updates tr' = S (storage_updates tr).
Proof.
  intros Hpending. unfold flush_dirty.
  destruct (all_hooks _ _ _); [done|].
  destruct (build_update _ _ _) as [update|] eqn:Hb; [|done].
  apply build_update_nonempty in Hb; [|by right].
  destruct update as [|kv update]; [done|].
  destruct (update_rejects _ _ _ _); [done|].
  destruct (updated_fields _ _); [|done].
  destruct (all_hooks _ _ _); [done|].
  intros [= _ <-].
  destruct (has_cache _), (cacheInvalidation _);
    rewrite !storage_updates_app; unfold storage_updates; simpl; lia.
Qed.

(** A flush whose validation throws has cleared the dirty flag, sent
    nothing, and kept the pending changes. *)
Lemma flush_dirty_validation_throws (r : record) (tr : list event)
    (msg : string) :
  all_hooks pre_update (fields (_model r)) (with_isDirty r false) = None ->
  build_update (fields (_model r)) (with_isDirty r false) [] = Throw msg ->
  flush_dirty r tr = (Throw msg, with_isDirty r false, tr).
Proof. intros Hhooks Hb. unfold flush_dirty. by rewrite Hhooks, Hb. Qed.

(** The same when the storage rejects the update. *)
Lemma flush_dirty_update_rejected (r : record) (tr : list event)
    (update : object) (msg : string) :
  all_hooks pre_update (fields (_model r)) (with_isDirty r false) = None ->
  build_update (fields (_model r)) (with_isDirty r false) [] = Ok update ->
  update <> [] ->
  update_rejects tr (table (_model r)) (get_id (with_isDirty r false)) update
    = Some msg ->
  flush_dirty r tr =
  (Throw msg, with_isDirty r false,
   tr ++ [StorageUpdate (table (_model r)) (get_id (with_isDirty r false))
            update]).
Proof.
  intros Hhooks Hb Hne Hrej. unfold flush_dirty. rewrite Hhooks, Hb.
  destruct update as [|kv update]; [done|]. by rewrite Hrej.
Qed.

(** C2, on the code.  A dirty record (without parent) whose validation
    throws, or whose update the storage rejects, is left by the rejected
    flush with its pending changes and with the dirty flag already
    cleared: the next flush resolves at once, sends nothing to the
    storage, and leaves the changes where they are. *)
Theorem flush_failure_clears_dirty_flag (r : record) (tr : list event)
    (msg : string) :
  _parent r = None -> _isDirty r = true ->
  all_hooks pre_update (fields (_model r)) (with_isDirty r false) = None ->
  build_update (fields (_model r)) (with_isDirty r false) [] = Throw msg
  \/ (exists update,
        build_update (fields (_model r)) (with_isDirty r false) [] = Ok update
        /\ update <> []
        /\ update_rejects tr (table (_model r))
             (get_id (with_isDirty r false)) update = Some msg) ->
  exists r' tr',
    flush r tr = (Throw msg, r', tr') /\
    _changes r' = _changes r /\
    _isDirty r' = false /\
    flush r' tr' = (Ok tt, r', tr').
Proof.
  intros Hroot Hdirty Hhooks Hfail.
  assert (Hnoop : forall tr', flush (with_isDirty r false) tr'
                              = (Ok tt, with_isDirty r false, tr')).
  { intros tr'. apply flush_chain_clean.
    rewrite chain_clean_unfold. simpl. by rewrite Hroot. }
  rewrite flush_unfold, Hroot, Hdirty.
  destruct Hfail as [Hb|(update & Hb & Hne & Hrej)].
  - exists (with_isDirty r false), tr.
    by rewrite (flush_dirty_validation_throws r tr msg Hhooks Hb).
  - eexists (with_isDirty r false), _.
    by rewrite (flush_dirty_update_rejected r tr update msg Hhooks Hb Hne Hrej).
Qed.

End Flush.

(** *** [flush] with the hooks of the record class *)

Section FlushHooked.
Context `{FieldOps} `{Storage} `{RecordHooks}.

Lemma flush_hooked_unfold (r : record) (tr : list event) :
  flush_hooked r tr =
  match _parent r with
  | Some p =>
      let '(o, p', tr') := flush_hooked p tr in
      match o with
      | Throw msg => (Throw msg, with_parent r (Some p'), tr')
      | Ok _ =>
          if _isDirty r then flush_dirty_hooked (with_parent r (Some p')) tr'
          else (Ok tt, with_parent r (Some p'), tr')
      end
  | None => if _isDirty r then flush_dirty_hooked r tr else (Ok tt, r, tr)
  end.
Proof.
  destruct r as [m c [p|] d rd fl di]; simpl; [|done].
  by destruct (flush_hooked p tr) as [[[] p'] tr'].
Qed.

(** Nothing is sent and nothing changes when no record of the chain is
    dirty. *)
Lemma flush_hooked_chain_clean (r : record) (tr : list event) :
  chain_clean r = true -> flush_hooked r tr = (Ok tt, r, tr).
Proof.
  revert tr. induction r as [r IH] using record_chain_ind. intros tr.
  rewrite chain_clean_unfold, flush_hooked_unfold.
  intros [Hclean Hparent]%andb_true_iff.
  apply negb_true_iff in Hclean.
  destruct r as [m c [p|] d rd fl di]; simpl in *; subst di; [|done].
  by rewrite (IH p eq_refl tr Hparent).
Qed.

(** A record without dirty ancestor is flushed as its own dirty block
    runs. *)
Lemma flush_hooked_ancestors_clean (r : record) (tr : list event) :
  _isDirty r = true ->
  (forall p, _parent r = Some p -> chain_clean p = true) ->
  flush_hooked r tr = flush_dirty_hooked r tr.
Proof.
  intros Hdirty Hanc. rewrite flush_hooked_unfold, Hdirty.
  destruct r as [m c [p|] d rd fl di]; simpl in *; [|done].
  by rewrite (flush_hooked_chain_clean p tr (Hanc p eq_refl)).
Qed.

(** A post-update hook that leaves a clean record clean. *)
Definition post_update_keeps_clean : Prop :=
  forall x, _isDirty x = false -> t_isDirty (this_post_update x).2 = false.

(** What [flush_dirty_hooked] leaves behind, whatever its outcome. *)
Lemma flush_dirty_hooked_frame (r r' : record) (tr tr' : list event)
    (o : outcome unit) :
  flush_dirty_hooked r tr = (o, r', tr') ->
  _parent r' = _parent r /\ _model r' = _model r /\
  (post_update_keeps_clean -> o = Ok tt -> _isDirty r' = false).
Proof.
  unfold flush_dirty_hooked.
  destruct ((this_pre_update _).1); [by intros [= <- <- <-]|].
  destruct ((this_pre_validate _).1); [by intros [= <- <- <-]|].
  destruct (all_hooks _ _ _); [by intros [= <- <- <-]|].
  destruct (build_update _ _ _) as [update|]; [|by intros [= <- <- <-]].
  assert (Hdone : forall (r0 : record) (tr0 : list event) (o0 : outcome unit),
            _parent r0 = _parent r -> _model r0 = _model r ->
            (o0 = Ok tt -> _isDirty r0 = false) ->
            (o0, r0, tr0) = (o, r', tr') ->
            _parent r' = _parent r /\ _model r' = _model r /\
            (post_update_keeps_clean -> o = Ok tt -> _isDirty r' = false)).
  { intros r0 tr0 o0 Hp Hm Hd [= <- <- <-]. by auto. }
  destruct update as [|kv update]; cbn zeta; cbn iota.
  - destruct (updated_fields _ _); [|by apply Hdone].
    destruct (all_hooks _ _ _); [by apply Hdone|].
    destruct ((this_post_update _).1); [by apply Hdone|].
    intros [= <- <- <-]. split; [done|]. split; [done|].
    intros Hkeeps _. simpl. by apply Hkeeps.
  - destruct (update_rejects _ _ _ _); [by apply Hdone|].
    destruct (updated_fields _ _); [|by apply Hdone].
    destruct (all_hooks _ _ _); [by apply Hdone|].
    destruct ((this_post_update _).1); [by apply Hdone|].
    intros [= <- <- <-]. split; [done|]. split; [done|].
    intros Hkeeps _. simpl. by apply Hkeeps.
Qed.

(** After a flush that resolved no record of the chain is dirty, when
    the post-update hook leaves clean records clean. *)
Lemma flush_hooked_ok_chain_clean (r r' : record) (tr tr' : list event) :
  post_update_keeps_clean ->
  flush_hooked r tr = (Ok tt, r', tr') -> chain_clean r' = true.
Proof.
  intros Hkeeps.
  revert r' tr tr'. induction r as [r IH] using record_chain_ind.
  intros r' tr tr'. rewrite flush_hooked_unfold.
  destruct (_parent r) as [p|] eqn:Hp.
  - destruct (flush_hooked p tr) as [[[[]|msg] p'] tr1] eqn:Hflush; [|done].
    pose proof (IH p eq_refl _ _ _ Hflush) as Hclean.
    destruct (_isDirty r) eqn:Hd.
    + intros Hfd. apply flush_dirty_hooked_frame in Hfd as (Hpar & _ & Hdirty).
      rewrite chain_clean_unfold, Hdirty, Hpar by done. simpl. done.
    + intros [= <- <-]. rewrite chain_clean_unfold. simpl. by rewrite Hd.
  - destruct (_isDirty r) eqn:Hd.
    + intros Hfd. apply flush_dirty_hooked_frame in Hfd as (Hpar & _ & Hdirty).
      rewrite chain_clean_unfold, Hdirty, Hpar, Hp by done. done.
    + intros [= <- <-]. by rewrite chain_clean_unfold, Hd, Hp.
Qed.

(** The update object stays empty when no stored field has a pending
    change. *)
Lemma build_update_empty (fs : list Field) (r : record)
    (update update' : object) :
  build_update fs r update = Ok update' ->
  (forall f, f ∈ fs -> stored f <> Some false ->
             _changes r !! column f = None) ->
  update' = update.
Proof.
  revert update. induction fs as [|f fs IH]; intros update; simpl.
  - by intros [= <-].
  - case_bool_decide as Hstored.
    + intros Hb Hnone. apply (IH _ Hb). intros g Hg. apply Hnone. by right.
    + destruct (validate f r); [done|].
      intros Hb Hnone.
      rewrite bool_decide_eq_false_2 in Hb.
      * apply (IH _ Hb). intros g Hg. apply Hnone. by right.
      * rewrite (Hnone f); [by intros [? ?]|by left|done].
Qed.

(** What the dirty block sends to the storage when it resolves: one
    update when a stored field has a pending change once the pre-hooks
    have run, none when no stored field has. *)
Lemma flush_dirty_hooked_updates (r r' : record) (tr tr' : list event) :
  flush_dirty_hooked r tr = (Ok tt, r', tr') ->
  ((exists f, f ∈ fields (_model r) /\ stored f <> Some false
              /\ is_Some (_changes (pre_hooked r) !! column f)) ->
   storage_updates tr' = S (storage_updates tr)) /\
  ((forall f, f ∈ fields (_model r) -> stored f <> Some false ->
              _changes (pre_hooked r) !! column f = None) ->
   storage_updates tr' = storage_updates tr).
Proof.
  unfold flush_dirty_hooked. fold (pre_hooked r).
  destruct ((this_pre_update _).1); [done|].
  destruct ((this_pre_validate _).1); [done|].
  destruct (all_hooks _ _ _); [done|].
  destruct (build_update _ _ _) as [update|] eqn:Hb; [|done].
  destruct update as [|kv update]; cbn zeta; cbn iota.
  - destruct (updated_fields _ _); [|done].
    destruct (all_hooks _ _ _); [done|].
    destruct ((this_post_update _).1); [done|].
    intros [= _ <-]. split.
    + intros Hpending. by apply build_update_nonempty in Hb; [|right].
    + intros _. destruct (has_cache _), (cacheInvalidation _);
        rewrite !storage_updates_app; unfold storage_updates; simpl; lia.
  - destruct (update_rejects _ _ _ _); [done|].
    destruct (updated_fields _ _); [|done].
    destruct (all_hooks _ _ _); [done|].
    destruct ((this_post_update _).1); [done|].
    intros [= _ <-]. split.
    + intros _. destruct (has_cache _), (cacheInvalidation _);
        rewrite !storage_updates_app; unfold storage_updates; simpl; lia.
    + intros Hnone. by apply build_update_empty in Hb.
Qed.

(** C7, as the code has it.  A record that is clean along its whole
    parent chain is flushed without any storage operation and is left
    unchanged, whatever the hooks of its class.  After a flush that resolved, a second flush
    in a row sends nothing and changes nothing, provided the post-update
    hook of the record class does not mark a record dirty again; the two
    calls together then send the writes of the first one.  For a dirty
    record without dirty ancestor the first flush sends exactly one
    update when a stored field has a pending change once the pre-update
    and pre-validate hooks have run, and no update when no stored field
    has. *)
Theorem flush_clean_chain_noop_and_second_flush_noop
    (r : record) (tr : list event) :
  (chain_clean r = true -> flush_hooked r tr = (Ok tt, r, tr)) /\
  (forall r1 tr1,
     post_update_keeps_clean ->
     flush_hooked r tr = (Ok tt, r1, tr1) ->
     flush_hooked r1 tr1 = (Ok tt, r1, tr1)) /\
  (forall r1 tr1,
     _isDirty r = true ->
     (forall p, _parent r = Some p -> chain_clean p = true) ->
     flush_hooked r tr = (Ok tt, r1, tr1) ->
     ((exists f, f ∈ fields (_model r) /\ stored f <> Some false
                 /\ is_Some (_changes (pre_hooked r) !! column f)) ->
      storage_updates tr1 = S (storage_updates tr)) /\
     ((forall f, f ∈ fields (_model r) -> stored f <> Some false ->
                 _changes (pre_hooked r) !! column f = None) ->
      storage_updates tr1 = storage_updates tr) /\
     (post_update_keeps_clean ->
      storage_updates (flush_hooked r1 tr1).2 = storage_updates tr1)).
Proof.
  split; [apply flush_hooked_chain_clean|]. split.
  - intros r1 tr1 Hkeeps Hflush. apply flush_hooked_chain_clean.
    by apply flush_hooked_ok_chain_clean in Hflush.
  - intros r1 tr1 Hdirty Hanc Hflush.
    pose proof Hflush as Hblock.
    rewrite (flush_hooked_ancestors_clean r tr Hdirty Hanc) in Hblock.
    apply flush_dirty_hooked_updates in Hblock as [Hone Hnone].
    split; [done|]. split; [done|].
    intros Hkeeps. rewrite (flush_hooked_chain_clean r1 tr1); [done|].
    by apply flush_hooked_ok_chain_clean in Hflush.
Qed.

End FlushHooked.

Section FlushOfRecord.
Context `{FieldOps} `{Storage}.

(** With the hooks of [class Record] the body is [flush_dirty]. *)
Lemma flush_dirty_hooked_Record (r : record) (tr : list event) :
  flush_dirty_hooked (H1 := Record_hooks) r tr = flush_dirty r tr.
Proof. by destruct r. Qed.

Lemma flush_hooked_Record (r : record) (tr : list event) :
  flush_hooked (H1 := Record_hooks) r tr = flush r tr.
Proof.
  revert tr. induction r as [r IH] using record_chain_ind. intros tr.
  rewrite flush_hooked_unfold, flush_unfold.
  destruct (_parent r) as [p|] eqn:Hp.
  - rewrite (IH p eq_refl). destruct (flush p tr) as [[[[]|msg] p'] tr1]; [|done].
    by rewrite flush_dirty_hooked_Record.
  - by rewrite flush_dirty_hooked_Record.
Qed.

Lemma pre_hooked_Record (r : record) :
  pre_hooked (H1 := Record_hooks) r = with_isDirty r false.
Proof. by destruct r. Qed.

End FlushOfRecord.

(** *** Objects *)

Lemma delete_key_filter (o : object) (k : string) :
  delete_key o k = List.filter (fun kv => negb (String.eqb kv.1 k)) o.
Proof.
  induction o as [|[k' v] o IH]; simpl; [done|].
  destruct (String.eqb k' k); simpl; by rewrite IH.
Qed.

Lemma filter_filter {A : Type} (P Q : A -> bool) (l : list A) :
  List.filter P (List.filter Q l) = List.filter (fun x => Q x && P x) l.
Proof.
  induction l as [|x l IH]; simpl; [done|].
  destruct (Q x); simpl; [|done]. destruct (P x); by rewrite IH.
Qed.

Lemma filter_ext_in {A : Type} (P Q : A -> bool) (l : list A) :
  (forall x, In x l -> P x = Q x) -> List.filter P l = List.filter Q l.
Proof.
  induction l as [|x l IH]; simpl; intros Heq; [done|].
  rewrite (Heq x) by by left. rewrite IH; [done|].
  intros y Hy. apply Heq. by right.
Qed.

Lemma filter_all {A : Type} (P : A -> bool) (l : list A) :
  (forall x, In x l -> P x = true) -> List.filter P l = l.
Proof.
  induction l as [|x l IH]; simpl; intros Hall; [done|].
  rewrite (Hall x) by by left. rewrite IH; [done|].
  intros y Hy. apply Hall. by right.
Qed.

Lemma hasOwnProperty_filter (P : string * jsval -> bool) (o : object)
    (k : string) :
  (forall v, P (k, v) = false) -> hasOwnProperty (List.filter P o) k = false.
Proof.
  intros HP. induction o as [|[k' v] o IH]; simpl; [done|].
  destruct (P (k', v)) eqn:E; simpl; [|done].
  destruct (String.eqb k' k) eqn:Ek; [|done].
  apply String.eqb_eq in Ek as ->. by rewrite HP in E.
Qed.

Section Write.
Context `{FieldOps} `{Storage}.

(** The loop of [write] over a list of keys: the model and the parent of
    the record stay, and the keys of the list that name a field are gone
    from [data]. *)
Lemma write_own_fold (ks : list string) (r : record) (data : object) :
  let step := fun '(r, data) key =>
    match field_named (_model r) key with
    | Some field =>
        (with_tracking r (assign field r (get data key)), delete_key data key)
    | None => (r, data)
    end in
  _model (fold_left step ks (r, data)).1 = _model r /\
  _parent (fold_left step ks (r, data)).1 = _parent r /\
  (fold_left step ks (r, data)).2 =
    List.filter
      (fun kv => negb (own_field (_model r) kv.1
                       && existsb (String.eqb kv.1) ks))
      data.
Proof.
  intros step. revert r data.
  induction ks as [|k ks IH]; intros r data; simpl.
  - repeat split. symmetry. apply filter_all.
    intros x _. by rewrite andb_false_r.
  - destruct (field_named (_model r) k) as [field|] eqn:Hk.
    + destruct (IH (with_tracking r (assign field r (get data k)))
                  (delete_key data k)) as (-> & -> & ->).
      repeat split. simpl. rewrite delete_key_filter, filter_filter.
      apply filter_ext_in. intros [k' v] _. simpl.
      destruct (String.eqb k' k) eqn:Ek; simpl.
      * apply String.eqb_eq in Ek as ->.
        unfold own_field. rewrite Hk. by rewrite bool_decide_true.
      * done.
    + destruct (IH r data) as (-> & -> & ->). repeat split.
      apply filter_ext_in. intros [k' v] _. simpl.
      destruct (String.eqb k' k) eqn:Ek; simpl; [|done].
      apply String.eqb_eq in Ek as ->.
      unfold own_field. rewrite Hk.
      by rewrite bool_decide_false by (by intros [? ?]).
Qed.

Lemma existsb_keys (data : object) (kv : string * jsval) :
  In kv data -> existsb (String.eqb kv.1) (keys data) = true.
Proof.
  intros Hin. apply existsb_exists. exists kv.1. split.
  - unfold keys. by apply in_map.
  - apply String.eqb_refl.
Qed.

Lemma write_own_spec (r : record) (data : object) :
  _model (write_own r data).1 = _model r /\
  _parent (write_own r data).1 = _parent r /\
  (write_own r data).2 =
    List.filter (fun kv => negb (own_field (_model r) kv.1)) data.
Proof.
  destruct (write_own_fold (keys data) r data) as (Hm & Hp & Hd).
  unfold write_own. rewrite Hm, Hp, Hd. repeat split.
  apply filter_ext_in. intros kv Hin.
  by rewrite (existsb_keys data kv Hin), andb_true_r.
Qed.

Local Arguments flush : simpl never.
Local Arguments write : simpl never.

Lemma write_unfold (r : record) (data : object) (tr : list event) :
  write r (Some data) tr =
  let '(r1, data1) := write_own r data in
  let '(o, parent', data2, tr1) :=
    match _parent r with
    | Some p =>
        match data1 with
        | _ :: _ =>
            let '(o, p', data', tr') := write p (Some data1) tr in
            (o, Some p', default data1 data', tr')
        | [] => (Ok tt, Some p, data1, tr)
        end
    | None => (Ok tt, None, data1, tr)
    end in
  let r2 := with_parent r1 parent' in
  match o with
  | Throw msg => (Throw msg, r2, Some data2, tr1)
  | Ok _ =>
      match keys data2 with
      | (_ :: _) as remainKeys =>
          (Throw (unknown_fields remainKeys (model_name (_model r2))),
           r2, Some data2, tr1)
      | [] => let '(o, r3, tr) := flush r2 tr1 in (o, r3, Some data2, tr)
      end
  end.
Proof. destruct r as [m c [p|] d rd fl di]; reflexivity. Qed.

Lemma recognized_unfold (r : record) (key : string) :
  recognized r key =
  own_field (_model r) key
  || match _parent r with Some p => recognized p key | None => false end.
Proof. by destruct r as [m c [p|] d rd fl di]. Qed.

Lemma root_unfold (r : record) :
  root r = match _parent r with Some p => root p | None => r end.
Proof. by destruct r as [m c [p|] d rd fl di]. Qed.

(** C10.  [write(data)] deletes from the caller's object every key that
    names a field of the model of the record or, through the delegation to
    the parent, of the model of an ancestor: what is left of the object
    after the call are the entries whose key no record of the chain knows,
    whatever the outcome.  When the call resolves the object is empty.
    When unknown keys are left, the call throws the unknown-field error of
    the record at the top of the chain, which lists exactly the keys left,
    and nothing is sent to the storage. *)
Theorem write_deletes_recognized_keys (r : record) (data : object)
    (tr : list event) :
  let rest := List.filter (fun kv => negb (recognized r kv.1)) data in
  let '(o, _, data', tr') := write r (Some data) tr in
  data' = Some rest /\
  (forall k, recognized r k = true -> hasOwnProperty rest k = false) /\
  (o = Ok tt -> rest = []) /\
  (rest <> [] ->
   o = Throw (unknown_fields (keys rest) (model_name (_model (root r))))
   /\ tr' = tr).
Proof.
  revert data tr. induction r as [r IH] using record_chain_ind.
  intros data tr rest.
  assert (Hgone : forall k, recognized r k = true ->
                            hasOwnProperty rest k = false).
  { intros k Hk. apply hasOwnProperty_filter. intros v. simpl. by rewrite Hk. }
  rewrite write_unfold.
  destruct (write_own r data) as [r1 data1] eqn:Hown.
  destruct (write_own_spec r data) as (Hm & Hp & Hd).
  rewrite Hown in Hm, Hp, Hd. simpl in Hm, Hp, Hd.
  assert (Hrest : rest =
            List.filter
              (fun kv => negb match _parent r with
                              | Some p => recognized p kv.1
                              | None => false
                              end) data1).
  { subst rest data1. rewrite filter_filter. apply filter_ext_in.
    intros kv _. rewrite recognized_unfold. by rewrite negb_orb. }
  rewrite root_unfold.
  destruct (_parent r) as [p|] eqn:Hparent.
  - destruct data1 as [|kv1 data1'] eqn:Hdata1.
    + simpl in Hrest. simpl.
      destruct (flush _ tr) as [[o r3] tr3]. by rewrite Hrest.
    + rewrite <- Hdata1 in *. clear Hdata1 kv1 data1'.
      specialize (IH p eq_refl data1 tr). simpl in IH. rewrite <- Hrest in IH.
      destruct (write p (Some data1) tr) as [[[o p'] data'] tr'].
      destruct IH as (-> & _ & Hok & Hleft). simpl.
      destruct o as [[]|msg].
      * rewrite (Hok eq_refl). simpl.
        by destruct (flush _ tr') as [[o r3] tr3].
      * split; [done|]. split; [done|]. split; [done|].
        intros Hne. by destruct (Hleft Hne).
  - simpl. assert (rest = data1) as <-.
    { rewrite Hrest. by apply filter_all. }
    destruct (keys rest) as [|k ks] eqn:Hkeys.
    + assert (rest = []) as Hnil by (by destruct rest).
      destruct (flush _ tr) as [[o r3] tr3]. by rewrite Hnil.
    + simpl. rewrite Hm. repeat split; try done.
Qed.

End Write.

(** *** Plain fields and sample records

    Fields that read the pending change of their column, else the stored
    value, and whose setter records the change and marks the record
    dirty; a storage that accepts every call, and one that rejects every
    update. *)

Definition plain_read (f : Field) (r : record) : jsval :=
  current r (column f).

Definition plain_id (r : record) : jsval :=
  match field_named (_model r) "id" with
  | Some f => plain_read f r
  | None => JUndefined
  end.

Definition plain_fields (check : Field -> record -> option string)
  : FieldOps :=
  {| deserialize := fun _ _ v => v;
     serialize := plain_read;
     toJSON := plain_read;
     validate := check;
     pre_create := fun _ _ => None;
     post_create := fun _ _ => None;
     pre_update := fun _ _ => None;
     post_update := fun _ _ => None;
     assign := fun f r v =>
       MkTracking (<[column f := v]> (_changes r)) (_data r) true;
     get_id := plain_id;
     set_id := fun r v =>
       MkTracking (<["id" := v]> (_changes r)) (_data r) true |}.

Definition is_insert (e : event) : bool :=
  match e with
  | StorageInsert _ _ => true
  | _ => false
  end.

(** Every call succeeds; the n-th insert returns the id n. *)
Definition accepting_storage : Storage :=
  {| update_rejects := fun _ _ _ _ => None;
     insert_returning := fun tr _ _ =>
       Ok (JNum (Z.of_nat (S (length (List.filter is_insert tr)))));
     insert_rejects := fun _ _ _ => None;
     last_id := fun tr _ =>
       Ok (JNum (Z.of_nat (length (List.filter is_insert tr)))) |}.

(** Every update is rejected. *)
Definition rejecting_storage (msg : string) : Storage :=
  {| update_rejects := fun _ _ _ _ => Some msg;
     insert_returning := fun _ _ _ => Throw msg;
     insert_rejects := fun _ _ _ => Some msg;
     last_id := fun _ _ => Throw msg |}.

Definition id_field : Field := MkField "id" "id" None false.
Definition email_field : Field := MkField "email" "email" None false.
Definition title_field : Field := MkField "title" "title" None false.
Definition body_field : Field := MkField "body" "body" None false.
Definition inherit_field : Field := MkField "_inherit" "_inherit" None true.

Definition users : Model :=
  MkModel "Users" "users" [id_field; email_field] id_field None None None
          false None false false false.

Definition documents : Model :=
  MkModel "Documents" "documents" [id_field; title_field; inherit_field]
          id_field (Some inherit_field) None None false None false false false.

Definition posts : Model :=
  MkModel "Posts" "posts" [id_field; body_field] id_field None
          (Some inherit_field) (Some documents) false None false false false.

(** An email that holds no [@] sign is refused. *)
Definition check_email (f : Field) (r : record) : option string :=
  if String.eqb (name f) "email" then
    match plain_read f r with
    | JStr "not-an-email" => Some "Invalid email"
    | _ => None
    end
  else None.

(** A user read from the storage, then given a new email. *)
Definition user_edited (email : string) : record :=
  MkRecord users {[ "email" := JStr email ]} None
    {[ "id" := JNum 1; "email" := JStr "ada@example.com" ]} Ready false true.

(** A post whose parent document has a pending change of title. *)
Definition document_edited : record :=
  MkRecord documents {[ "title" := JStr "New title" ]} None
    {[ "id" := JNum 1; "title" := JStr "Old title";
       "_inherit" := JStr "Posts" ]} Ready false true.

Definition post_clean : record :=
  MkRecord posts ∅ (Some document_edited)
    {[ "id" := JNum 1; "body" := JStr "Text" ]} Ready false false.

Definition post_edited : record :=
  MkRecord posts {[ "body" := JStr "New text" ]} (Some document_edited)
    {[ "id" := JNum 1; "body" := JStr "Text" ]} Ready false true.

(** A model with the fields of the mixin [Timestampable], and its hooks:
    [pre_update] assigns [updated_at]. *)
Definition updated_at_field : Field :=
  MkField "updated_at" "updated_at" None false.

Definition accounts : Model :=
  MkModel "Accounts" "accounts" [id_field; email_field; updated_at_field]
          id_field None None None false None false false false.

Definition stamp : jsval := JStr "2024-05-01T10:00:00.000Z".

Definition Timestampable : RecordHooks :=
  {| this_pre_update := fun r =>
       (None, MkTracking (<["updated_at" := stamp]> (_changes r)) (_data r)
                true);
     this_pre_validate := fun r => (None, tracking_of r);
     this_post_update := fun r => (None, tracking_of r) |}.

(** An account read from the storage, then given a new email. *)
Definition account_edited : record :=
  MkRecord accounts {[ "email" := JStr "new@example.com" ]} None
    {[ "id" := JNum 1; "email" := JStr "ada@example.com";
       "updated_at" := JStr "2024-01-01T00:00:00.000Z" ]} Ready false true.


Lemma flush_failure_clears_dirty_flag_witness :
  exists r' tr',
    flush (H := plain_fields check_email) (H0 := accepting_storage)
      (user_edited "not-an-email") [] = (Throw "Invalid email", r', tr') /\
    _changes r' = _changes (user_edited "not-an-email") /\
    _isDirty r' = false /\
    flush (H := plain_fields check_email) (H0 := accepting_storage) r' tr'
    = (Ok tt, r', tr').
Proof.
  apply (@flush_failure_clears_dirty_flag (plain_fields check_email)
           accepting_storage (user_edited "not-an-email") [] "Invalid email").
  - reflexivity.
  - reflexivity.
  - reflexivity.
  - left. reflexivity.
Defined.

(** The same record when the storage rejects the update. *)
Example flush_rejected_by_storage :
  let ops := plain_fields check_email in
  let st := rejecting_storage "SQLITE_BUSY" in
  let '(o1, r1, tr1) := flush (user_edited "new@example.com") [] in
  let '(o2, r2, tr2) := flush r1 tr1 in
  o1 = Throw "SQLITE_BUSY" /\
  _isDirty r1 = false /\
  _changes r1 = {[ "email" := JStr "new@example.com" ]} /\
  o2 = Ok tt /\ r2 = r1 /\ tr2 = tr1 /\ storage_updates tr2 = 1%nat.
Proof. vm_compute. repeat split. Qed.

(** C7, as stated, fails on records that have a parent: a post that is
    not dirty, whose parent document is, sends one update when flushed;
    and a dirty post with a dirty parent sends two updates, both in the
    first of two flushes in a row. *)
Lemma flush_of_clean_child_writes_parent :
  let ops := plain_fields check_email in
  let st := accepting_storage in
  (_isDirty post_clean = false /\
   storage_updates (flush post_clean []).2 = 1%nat /\
   (flush post_clean []).1.2 <> post_clean) /\
  (_isDirty post_edited = true /\
   let '(_, r1, tr1) := flush post_edited [] in
   storage_updates (flush r1 tr1).2 = 2%nat).
Proof.
  split.
  - split; [reflexivity|]. split; [reflexivity|].
    intros Heq. apply (f_equal chain_clean) in Heq. vm_compute in Heq.
    discriminate Heq.
  - split; reflexivity.
Qed.

Lemma flush_clean_chain_noop_and_second_flush_noop_witness :
  let ops := plain_fields check_email in
  let st := accepting_storage in
  let hooks := Timestampable in
  let '(_, r1, tr1) := flush_hooked account_edited [] in
  storage_updates tr1 = 1%nat /\
  storage_updates (flush_hooked r1 tr1).2 = 1%nat /\
  flush_hooked r1 tr1 = (Ok tt, r1, tr1).
Proof.
  intros ops st hooks.
  destruct (flush_hooked account_edited []) as [[o r1] tr1] eqn:E.
  assert (Ho : o = Ok tt).
  { apply (f_equal (fun x => x.1.1)) in E. vm_compute in E. by subst o. }
  subst o.
  assert (Hkeeps : post_update_keeps_clean (H1 := hooks)).
  { by intros x Hx. }
  destruct (@flush_clean_chain_noop_and_second_flush_noop ops st hooks
              account_edited []) as (_ & Hsecond & Hone).
  destruct (Hone r1 tr1) as (H1 & _ & H2); [reflexivity | done | exact E |].
  rewrite (H2 Hkeeps), H1.
  - split; [done|]. split; [done|]. by apply Hsecond.
  - exists email_field. split; [|split].
    + apply elem_of_cons. right. apply elem_of_cons. by left.
    + discriminate.
    + by eexists.
Defined.

End RecSpec.

(** ** Identity map and creation *)

Module ModelSpec.
Import Rec Model.

(** *** The [Map] of entities *)

Lemma same_value_zero_eq (a b : jsval) : same_value_zero a b = true -> a = b.
Proof.
  destruct a, b; simpl; try done.
  - by intros ->%Bool.eqb_prop.
  - by intros ->%Z.eqb_eq.
  - by intros ->%String.eqb_eq.
Qed.

Lemma map_get_set_same {V : Type} (m : jsmap V) (k : jsval) (v : V) :
  same_value_zero k k = true -> map_get (map_set m k v) k = Some v.
Proof.
  intros Hk. induction m as [|[k' v'] m IH]; simpl.
  - by rewrite Hk.
  - destruct (same_value_zero k' k) eqn:E; simpl; by rewrite E.
Qed.

Lemma map_get_set_other {V : Type} (m : jsmap V) (k k0 : jsval) (v : V) :
  same_value_zero k0 k = false ->
  map_get (map_set m k0 v) k = map_get m k.
Proof.
  intros Hk. induction m as [|[k' v'] m IH]; simpl.
  - by rewrite Hk.
  - destruct (same_value_zero k' k0) eqn:E; simpl.
    + destruct (same_value_zero k' k) eqn:E'; [|done].
      apply same_value_zero_eq in E as ->. congruence.
    + by rewrite IH.
Qed.

Lemma entries_for_set_other {V : Type} (m : jsmap V) (k k0 : jsval) (v : V) :
  same_value_zero k0 k = false ->
  length (entries_for (map_set m k0 v) k) = length (entries_for m k).
Proof.
  intros Hk. unfold entries_for.
  induction m as [|[k' v'] m IH]; simpl.
  - by rewrite Hk.
  - destruct (same_value_zero k' k0) eqn:E; simpl.
    + by destruct (same_value_zero k' k).
    + destruct (same_value_zero k' k); simpl; by rewrite IH.
Qed.

Lemma entries_for_set_same {V : Type} (m : jsmap V) (k k0 : jsval) (v : V) :
  same_value_zero k0 k = true ->
  length (entries_for (map_set m k0 v) k)
  = Nat.max 1 (length (entries_for m k)).
Proof.
  intros Hk. pose proof (same_value_zero_eq _ _ Hk) as ->.
  unfold entries_for.
  induction m as [|[k' v'] m IH]; simpl.
  - by rewrite Hk.
  - destruct (same_value_zero k' k) eqn:E; simpl; rewrite E; simpl.
    + lia.
    + apply IH.
Qed.

(** A map holds at most one entry per key. *)
Definition unique_keys {V : Type} (m : jsmap V) : Prop :=
  forall k, (length (entries_for m k) <= 1)%nat.

Lemma unique_keys_set {V : Type} (m : jsmap V) (k0 : jsval) (v : V) :
  unique_keys m -> unique_keys (map_set m k0 v).
Proof.
  intros Hm k. specialize (Hm k).
  destruct (same_value_zero k0 k) eqn:E.
  - rewrite entries_for_set_same by done. lia.
  - by rewrite entries_for_set_other.
Qed.

(** Every identity map of the state holds at most one entry per key. *)
Definition unique_entities (s : state) : Prop :=
  forall m, unique_keys (entities_of s m).

Lemma unique_entities_empty : unique_entities empty_state.
Proof. intros m k. unfold entities_of. simpl. rewrite lookup_empty. simpl. lia. Qed.

Lemma entities_of_set (s : state) (m m' : Model) (id : jsval) (l : nat) :
  entities_of (entities_set s m id l) m' =
  if decide (model_name m = model_name m')
  then map_set (entities_of s m) id l
  else entities_of s m'.
Proof.
  unfold entities_of, entities_set. simpl.
  destruct (decide _) as [Heq|Hne].
  - by rewrite <- Heq, lookup_insert_eq.
  - by rewrite lookup_insert_ne.
Qed.

Lemma unique_entities_set (s : state) (m : Model) (id : jsval) (l : nat) :
  unique_entities s -> unique_entities (entities_set s m id l).
Proof.
  intros Hs m'. rewrite entities_of_set.
  destruct (decide _); [|done]. by apply unique_keys_set.
Qed.

Lemma unique_entities_heap (s : state) (h : list record) :
  unique_entities s -> unique_entities (MkState h (entities s)).
Proof. done. Qed.

Lemma map_get_entries {V : Type} (m : jsmap V) (k : jsval) (v : V) :
  map_get m k = Some v -> (1 <= length (entries_for m k))%nat.
Proof.
  unfold entries_for. induction m as [|[k' v'] m IH]; simpl; [done|].
  destruct (same_value_zero k' k); simpl; [lia | done].
Qed.

(** *** Allocation *)

Section Allocate.
Context `{FieldOps}.

Local Arguments sync : simpl never.
Local Arguments constructor : simpl never.

(** The call is not handed over to a child model. *)
Definition stays (repo : gmap string Model) (m : Model) (data : object)
    (ignoreDiscriminator : bool) : Prop :=
  ignoreDiscriminator = true \/ redirect repo m data = Ok None.

Lemma stays_here (repo : gmap string Model) (m : Model) (data : object)
    (ignoreDiscriminator : bool) :
  stays repo m data ignoreDiscriminator ->
  (if ignoreDiscriminator then Ok None else redirect repo m data) = Ok None.
Proof. intros [->| ->]; [done | by destruct ignoreDiscriminator]. Qed.

(** A key that is tracked: the instance is synced where it is and handed
    back; no instance is added and no identity map changes. *)
Lemma allocate_tracked (fuel : nat) (repo : gmap string Model) (m : Model)
    (data : object) (ignoreDiscriminator : bool) (s : state) (l : nat)
    (existing : record) :
  abstract m = false ->
  stays repo m data ignoreDiscriminator ->
  truthy (get data "id") = true ->
  map_get (entities_of s m) (get data "id") = Some l ->
  heap s !! l = Some existing ->
  allocate (S fuel) repo m data ignoreDiscriminator s =
  Some (Ok l, store s l (sync existing data)).
Proof.
  intros Habs Hstay Hid Hget Hheap. simpl.
  by rewrite Habs, (stays_here _ _ _ _ Hstay), Hid, Hget, Hheap.
Qed.

(** After an allocation that stayed on the model and resolved, a truthy
    primitive [data.id] is tracked at the instance returned. *)
Lemma allocate_registers (fuel : nat) (repo : gmap string Model) (m : Model)
    (data : object) (ignoreDiscriminator : bool) (s s' : state) (l : nat) :
  stays repo m data ignoreDiscriminator ->
  truthy (get data "id") = true ->
  same_value_zero (get data "id") (get data "id") = true ->
  allocate fuel repo m data ignoreDiscriminator s = Some (Ok l, s') ->
  abstract m = false /\
  map_get (entities_of s' m) (get data "id") = Some l /\
  is_Some (heap s' !! l).
Proof.
  intros Hstay Hid Hprim. destruct fuel as [|fuel]; [done|]. simpl.
  destruct (abstract m); [done|].
  rewrite (stays_here _ _ _ _ Hstay), Hid.
  destruct (map_get (entities_of s m) (get data "id")) as [l0|] eqn:Hget.
  - destruct (heap s !! l0) as [existing|] eqn:Hheap; [|done].
    intros [= <- <-]. split; [done|]. split; [done|]. simpl.
    rewrite list_lookup_insert_eq; [by eexists|].
    by apply lookup_lt_Some in Hheap.
  - destruct (super m) as [sup|] eqn:Hsup.
    + destruct (inheritField m) as [f|]; [|done].
      destruct (allocate fuel repo sup _ true s) as [[[lp|msg] s1]|]; try done.
      intros [= <- <-]. split; [done|]. split.
      * rewrite entities_of_set. destruct (decide _).
        -- by apply map_get_set_same.
        -- rewrite entities_of_set. rewrite decide_True by done.
           by apply map_get_set_same.
      * simpl. rewrite lookup_app_r by done. rewrite Nat.sub_diag. by eexists.
    + intros [= <- <-]. split; [done|]. split.
      * rewrite entities_of_set. rewrite decide_True by done.
        by apply map_get_set_same.
      * simpl. rewrite lookup_app_r by done. rewrite Nat.sub_diag. by eexists.
Qed.

(** No allocation breaks the uniqueness of the keys of the identity
    maps. *)
Lemma allocate_unique (fuel : nat) (repo : gmap string Model) (m : Model)
    (data : object) (ignoreDiscriminator : bool) (s s' : state)
    (o : outcome nat) :
  unique_entities s ->
  allocate fuel repo m data ignoreDiscriminator s = Some (o, s') ->
  unique_entities s'.
Proof.
  revert m data ignoreDiscriminator s s' o.
  induction fuel as [|fuel IH]; intros m data ign s s' o Hs; [done|]. simpl.
  destruct (abstract m); [by intros [= <- <-]|].
  destruct (if ign then Ok None else redirect repo m data)
    as [[childModel|]|msg]; [by apply IH| |by intros [= <- <-]].
  destruct (if truthy (get data "id") then _ else None) as [l0|].
  { destruct (heap s !! l0); by intros [= <- <-]. }
  assert (Hparent : forall (p : option (outcome (option record) * state)),
            (forall o1 s1, p = Some (o1, s1) -> unique_entities s1) ->
            match p with
            | None => None
            | Some (Throw msg, s0) => Some (Throw msg, s0)
            | Some (Ok parent, s0) =>
                let instance := constructor m data parent in
                let l := length (heap s0) in
                if truthy (get data "id") then
                  let instance :=
                    match _isReady instance with
                    | NotReady => with_isReady instance Pending
                    | _ => instance
                    end in
                  let s1 := MkState (heap s0 ++ [instance]) (entities s0) in
                  let s1 := entities_set s1 m (get data "id") l in
                  let s1 :=
                    match super m with
                    | Some sup => entities_set s1 sup (get data "id") l
                    | None => s1
                    end in
                  Some (Ok l, s1)
                else Some (Ok l, MkState (heap s0 ++ [instance]) (entities s0))
            end = Some (o, s') -> unique_entities s').
  { intros [[[parent|msg] s0]|] Hp; [| |done].
    - specialize (Hp _ _ eq_refl). simpl.
      destruct (truthy (get data "id")); [|by intros [= <- <-]].
      intros [= <- <-].
      destruct (super m); repeat apply unique_entities_set; done.
    - specialize (Hp _ _ eq_refl). by intros [= <- <-]. }
  apply Hparent. intros o1 s1.
  destruct (super m) as [sup|]; [|by intros [= <- <-]].
  destruct (inheritField m) as [f|]; [|by intros [= <- <-]].
  destruct (allocate fuel repo sup _ true s) as [[[lp|msg] s0]|] eqn:Hsup;
    [| |done]; intros [= <- <-]; by apply (IH _ _ _ _ _ _ Hs Hsup).
Qed.

(** Later calls for a key that is tracked all return the instance that
    holds it, synced with each object in turn. *)
Lemma allocate_each_tracked (fuel : nat) (repo : gmap string Model)
    (m : Model) (datas : list object) (ignoreDiscriminator : bool)
    (s : state) (k : jsval) (l : nat) (existing : record) :
  abstract m = false ->
  (forall data, data ∈ datas ->
     get data "id" = k /\ stays repo m data ignoreDiscriminator) ->
  truthy k = true ->
  map_get (entities_of s m) k = Some l ->
  heap s !! l = Some existing ->
  exists s',
    allocate_each (S fuel) repo m datas ignoreDiscriminator s =
      Some (map (fun _ => Ok l) datas, s') /\
    heap s' !! l = Some (fold_left sync datas existing) /\
    length (heap s') = length (heap s) /\
    entities s' = entities s.
Proof.
  intros Habs Hall Hk. revert s existing.
  induction datas as [|data datas IH]; intros s existing Hget Hheap.
  - by exists s.
  - destruct (Hall data) as [Hid Hstay]; [by left|].
    cbn [allocate_each].
    rewrite (allocate_tracked fuel repo m data ignoreDiscriminator s l existing)
      by (by rewrite ?Hid).
    destruct (IH (fun d Hd => Hall d (proj2 (elem_of_cons _ _ _) (or_intror Hd)))
                (store s l (sync existing data)) (sync existing data))
      as (s' & -> & Hl & Hlen & Hent).
    + done.
    + simpl. apply list_lookup_insert_eq. by apply lookup_lt_Some in Hheap.
    + exists s'. repeat split; try done.
      * rewrite Hlen. simpl. apply length_insert.
Qed.

(** No sequence of allocations breaks the uniqueness of the keys. *)
Lemma allocate_each_unique (fuel : nat) (repo : gmap string Model)
    (m : Model) (datas : list object) (ignoreDiscriminator : bool)
    (s s' : state) (os : list (outcome nat)) :
  unique_entities s ->
  allocate_each fuel repo m datas ignoreDiscriminator s = Some (os, s') ->
  unique_entities s'.
Proof.
  revert s os. induction datas as [|data datas IH]; intros s os Hs; simpl.
  - by intros [= _ <-].
  - destruct (allocate fuel repo m data ignoreDiscriminator s)
      as [[o s1]|] eqn:Hone; [|done].
    apply allocate_unique in Hone; [|done].
    destruct (allocate_each fuel repo m datas ignoreDiscriminator s1)
      as [[os1 s2]|] eqn:Hrest; [|done].
    intros [= _ <-]. by apply (IH s1 os1).
Qed.

(** C5, as the code has it.  Whatever the calls of [allocate] on a model,
    every identity map holds at most one entry for a key.  For calls that
    carry the same (truthy, primitive) [data.id] and that stay on the
    model: once the first of them has resolved to an instance, every
    later call returns that instance, into which its data has been merged
    by [sync]; no instance is added to the heap, no identity map changes,
    and the identity map of the model holds exactly one entry for the
    key. *)
Theorem allocate_same_key_same_instance (fuel : nat)
    (repo : gmap string Model) (m : Model) (ignoreDiscriminator : bool)
    (s : state) :
  unique_entities s ->
  (forall datas os s',
     allocate_each fuel repo m datas ignoreDiscriminator s = Some (os, s') ->
     unique_entities s') /\
  (forall (s1 : state) (data0 : object) (datas : list object) (k : jsval)
          (l : nat),
     (forall data, data ∈ data0 :: datas ->
        get data "id" = k /\ stays repo m data ignoreDiscriminator) ->
     truthy k = true ->
     same_value_zero k k = true ->
     allocate fuel repo m data0 ignoreDiscriminator s = Some (Ok l, s1) ->
     exists r1 s',
       heap s1 !! l = Some r1 /\
       allocate_each fuel repo m datas ignoreDiscriminator s1 =
         Some (map (fun _ => Ok l) datas, s') /\
       heap s' !! l = Some (fold_left sync datas r1) /\
       length (heap s') = length (heap s1) /\
       entities s' = entities s1 /\
       length (entries_for (entities_of s' m) k) = 1%nat).
Proof.
  intros Huniq. split.
  { intros datas os s'. by apply allocate_each_unique. }
  intros s1 data0 datas k l Hall Hk Hprim Hfirst.
  destruct (Hall data0) as [Hid0 Hstay0]; [by left|].
  pose proof (allocate_unique _ _ _ _ _ _ _ _ Huniq Hfirst) as Huniq1.
  destruct (allocate_registers fuel repo m data0 ignoreDiscriminator s s1 l)
    as (Habs & Hget & [r1 Hr1]); rewrite ?Hid0; try done.
  rewrite Hid0 in Hget.
  destruct fuel as [|fuel]; [done|].
  destruct (allocate_each_tracked fuel repo m datas ignoreDiscriminator s1 k l
              r1) as (s' & Heach & Hl & Hlen & Hent); try done.
  { intros data Hin. apply Hall. by right. }
  exists r1, s'. repeat split; try done.
  assert (Hsame : entities_of s' m = entities_of s1 m).
  { unfold entities_of. by rewrite Hent. }
  rewrite Hsame. pose proof (Huniq1 m k) as Hle.
  pose proof (map_get_entries _ _ _ Hget) as Hge. lia.
Qed.

End Allocate.

(** *** Creation *)

Lemma get_set_key_same (o : object) (k : string) (v : jsval) :
  get (set_key o k v) k = v.
Proof.
  induction o as [|[k' v'] o IH]; simpl.
  - by rewrite String.eqb_refl.
  - destruct (String.eqb k' k) eqn:E; simpl; [by rewrite String.eqb_refl|].
    by rewrite E.
Qed.

Lemma get_set_key_other (o : object) (k k' : string) (v : jsval) :
  k <> k' -> get (set_key o k v) k' = get o k'.
Proof.
  intros Hne. induction o as [|[k0 v0] o IH]; simpl.
  - apply String.eqb_neq in Hne. by rewrite Hne.
  - destruct (String.eqb k0 k) eqn:E; simpl.
    + apply String.eqb_eq in E as ->.
      apply String.eqb_neq in Hne. by rewrite Hne.
    + by rewrite IH.
Qed.

Lemma hasOwnProperty_set_key_same (o : object) (k : string) (v : jsval) :
  hasOwnProperty (set_key o k v) k = true.
Proof.
  induction o as [|[k' v'] o IH]; simpl.
  - by rewrite String.eqb_refl.
  - destruct (String.eqb k' k) eqn:E; simpl; [by rewrite String.eqb_refl|].
    by rewrite E.
Qed.

Lemma hasOwnProperty_set_key_other (o : object) (k k' : string) (v : jsval) :
  k <> k' -> hasOwnProperty (set_key o k v) k' = hasOwnProperty o k'.
Proof.
  intros Hne. induction o as [|[k0 v0] o IH]; simpl.
  - apply String.eqb_neq in Hne. by rewrite Hne.
  - destruct (String.eqb k0 k) eqn:E; simpl.
    + apply String.eqb_eq in E as ->.
      apply String.eqb_neq in Hne. by rewrite Hne.
    + by rewrite IH.
Qed.

Section Rows.
Context `{FieldOps}.



Lemma constructor_model (m : Model) (data : object) (parent : option record) :
  _model (constructor m data parent) = m.
Proof.
  unfold constructor. cbn [_model].
  exact (proj1 (RecSpec.sync_shape
                  (MkRecord m ∅ parent ∅ NotReady false false) data)).
Qed.


End Rows.

Section Create.
Context `{FieldOps} `{Storage}.

Local Arguments sync : simpl never.
Local Arguments constructor : simpl never.
Local Arguments build_insert : simpl never.
Local Arguments all_hooks : simpl never.
Local Arguments toRawJSON : simpl never.




(** An allocation on a model without parent, for data without id, makes a
    fresh instance and tracks nothing. *)
Lemma allocate_root_fresh (fuel : nat) (repo : gmap string Model) (m : Model)
    (data : object) (s s' : state) (o : outcome nat) :
  super m = None -> truthy (get data "id") = false ->
  allocate fuel repo m data true s = Some (o, s') ->
  abstract m = true
  \/ (o = Ok (length (heap s)) /\
      s' = MkState (heap s ++ [constructor m data None]) (entities s)).
Proof.
  intros Hsup Hid. destruct fuel as [|fuel]; [done|]. simpl.
  destruct (abstract m); [by left|]. rewrite Hid, Hsup.
  intros [= <- <-]. by right.
Qed.



Section Child.
Variables (m sup : Model) (f : Field).
Hypothesis deserialize_plain : forall g r v, deserialize g r v = v.
Hypothesis serialize_current : forall g r, serialize g r = current r (column g).
Hypothesis get_id_current :
  forall r, _model r = sup -> get_id r = current r (column (primaryField sup)).
Hypothesis set_id_tracks :
  forall r v, _model r = sup ->
    t_changes (set_id r v) = <[column (primaryField sup) := v]> (_changes r).
Hypothesis child_of : super m = Some sup.
Hypothesis parent_is_root : super sup = None.
Hypothesis discriminator : inheritField m = Some f.
Hypothesis discriminator_field_of_parent : f ∈ fields sup.
Hypothesis discriminator_stored : stored f <> Some false.
Hypothesis discriminator_name : name f <> "id".
Hypothesis parent_columns : NoDup (map column (fields sup)).
Hypothesis child_columns : NoDup (map column (fields m)).
Hypothesis parent_key : primaryField sup ∈ fields sup.
Hypothesis parent_key_name : name (primaryField sup) = "id".
Hypothesis parent_key_column : column (primaryField sup) = "id".
Hypothesis child_key : primaryField m ∈ fields m.
Hypothesis child_key_name : name (primaryField m) = "id".
Hypothesis child_key_stored : stored (primaryField m) <> Some false.




End Child.




End Create.

(** Two rows with the same id allocated on [Users], one after the
    other. *)
Lemma allocate_same_key_same_instance_witness :
  let ops := RecSpec.plain_fields RecSpec.check_email in
  let repo : gmap string Rec.Model := {[ "Users" := RecSpec.users ]} in
  let row1 := [("id", JNum 1); ("email", JStr "ada@example.com")] in
  let row2 := [("id", JNum 1); ("email", JStr "countess@example.com")] in
  exists s1 r1 s',
    allocate 2 repo RecSpec.users row1 false empty_state = Some (Ok 0%nat, s1) /\
    heap s1 !! 0%nat = Some r1 /\
    allocate_each 2 repo RecSpec.users [row2] false s1 = Some ([Ok 0%nat], s') /\
    heap s' !! 0%nat = Some (sync r1 row2) /\
    length (heap s') = 1%nat.
Proof.
  intros ops repo row1 row2.
  destruct (allocate 2 repo RecSpec.users row1 false empty_state)
    as [[o s1]|] eqn:E; [|discriminate E].
  assert (Ho : o = Ok 0%nat).
  { apply (f_equal (fun x => fst <$> x)) in E. vm_compute in E.
    by injection E as <-. }
  subst o.
  assert (Hlen : length (heap s1) = 1%nat).
  { apply (f_equal (fun x => (fun y => length (heap y.2)) <$> x)) in E.
    vm_compute in E. injection E as E. symmetry. exact E. }
  destruct (@allocate_same_key_same_instance ops 2 repo RecSpec.users false
              empty_state unique_entities_empty) as [_ Hsame].
  destruct (Hsame s1 row1 [row2] (JNum 1) 0%nat)
    as (r1 & s' & Hr1 & Heach & Hl & Hlen' & _).
  - intros data [->|[->|Hin]%elem_of_cons]%elem_of_cons.
    + split; [reflexivity | right; reflexivity].
    + split; [reflexivity | right; reflexivity].
    + by apply elem_of_nil in Hin.
  - reflexivity.
  - reflexivity.
  - exact E.
  - exists s1, r1, s'. repeat split; try done. by rewrite Hlen'.
Defined.

(** The strings of a list written out are distinct. *)
Ltac distinct_strings :=
  repeat (apply NoDup_cons; split;
          [ rewrite ?elem_of_cons, ?elem_of_nil; intros Hin;
            repeat (destruct Hin as [Hin|Hin]; [discriminate Hin|]);
            exact Hin
          | ]);
  apply NoDup_nil_2.

(** The documented scenario: [Posts] inherits from [Documents]. *)
Definition blog : gmap string Rec.Model :=
  {[ "Documents" := RecSpec.documents; "Posts" := RecSpec.posts ]}.

(** C5, as stated, fails when a discriminator hands a call to a child
    model.  A document with the key 1 is allocated and tracked by
    [Documents]; a second call on [Documents] with the same key, whose
    data names [Posts], is allocated by [Posts], which does not track the
    key: a new instance is constructed and returned, and it takes the
    place of the first one in the identity map of [Documents]. *)
Lemma allocate_redirected_replaces_tracked_instance :
  let ops := RecSpec.plain_fields RecSpec.check_email in
  let row := [("id", JNum 1); ("title", JStr "Draft")] in
  let row' := [("id", JNum 1); ("title", JStr "Draft");
               ("_inherit", JStr "Posts")] in
  match allocate 3 blog RecSpec.documents row true empty_state with
  | Some (Ok first, s1) =>
      first = 0%nat /\
      map_get (entities_of s1 RecSpec.documents) (JNum 1) = Some first /\
      match allocate 3 blog RecSpec.documents row' false s1 with
      | Some (Ok second, s2) =>
          second = 1%nat /\
          map_get (entities_of s2 RecSpec.documents) (JNum 1) = Some second /\
          length (heap s2) = 2%nat /\
          _model <$> heap s2 !! second = Some RecSpec.posts /\
          _model <$> heap s2 !! first = Some RecSpec.documents
      | _ => False
      end
  | _ => False
  end.
Proof. vm_compute. repeat split. Qed.




End ModelSpec.

(** ** Requests *)

Module RequestSpec.
Import ScopeBuilder Request.

Lemma executions_app (log log' : list io) :
  executions (log ++ log') = (executions log + executions log')%nat.
Proof. unfold executions. by rewrite List.filter_app, length_app. Qed.

Lemma scope_resolutions_app (log log' : list io) :
  scope_resolutions (log ++ log')
  = (scope_resolutions log + scope_resolutions log')%nat.
Proof. unfold scope_resolutions. by rewrite List.filter_app, length_app. Qed.

(** What a step on the query builder leaves alone. *)
Definition same_request (r r' : t) : Prop :=
  model r' = model r /\ _scopesApplied r' = _scopesApplied r.

Lemma same_request_refl (r : t) : same_request r r.
Proof. done. Qed.











Section Then.
Context `{Backend}.

Lemma read_cache_log (r : t) (log : list io) :
  scope_resolutions (read_cache r log).2 = scope_resolutions log /\
  executions (read_cache r log).2 = executions log.
Proof.
  unfold read_cache. destruct (negb _); simpl;
    rewrite ?scope_resolutions_app, ?executions_app;
    unfold scope_resolutions, executions; simpl; lia.
Qed.









End Then.

(** A storage that answers with the number of queries it has been sent
    before; no cache. *)
Definition counting_backend : Backend :=
  {| run_query := fun log _ => Ok (JNum (Z.of_nat (executions log)));
     cache_get := fun _ _ _ => JNull;
     stringify := fun _ => "[]";
     wrapResult := fun v => Ok v |}.





End RequestSpec.

(** ** Scope composition, continued *)

Module ScopeBuilderMore.
Import ScopeBuilder.

Lemma apply_named_app (sb : t) (pre post : list ScopeRequest)
    (merged : ScopeOptions) :
  apply_named sb (pre ++ post) merged =
  match apply_named sb pre merged with
  | Ok merged' => apply_named sb post merged'
  | Throw msg => Throw msg
  end.
Proof.
  revert merged. induction pre as [|q pre IH]; intros merged; simpl; [done|].
  destruct (lookup_scope sb (request_name q)); [apply IH| |done].
  destruct (inherited_scope (request_name q)); [apply IH|done].
Qed.

(** [name in this.scopes] is false of the names [this.scopes[name]] does
    not find, and of no other. *)
Lemma hasScope_false (sb : t) (name : string) :
  hasScope sb name = false <-> lookup_scope sb name = Missing.
Proof.
  unfold hasScope, lookup_scope.
  destruct (scopes sb !! name) as [d|] eqn:Hd.
  - rewrite (bool_decide_eq_true_2 (is_Some (Some d))); [|by eexists].
    simpl. split; discriminate.
  - rewrite (bool_decide_eq_false_2 (is_Some None)); [|by intros [? ?]].
    simpl. by case_bool_decide.
Qed.

(** The error of a method called without receiver is not the error of a
    scope that is not defined. *)
Lemma no_receiver_is_not_scope_not_defined (scopeName modelName : string) :
  no_receiver <> scope_not_defined scopeName modelName.
Proof. discriminate. Qed.

(** X1.  [hasScope] and [applyScopes] agree on the names that are no scope.
    When [hasScope] is false of a name, a request for it alone throws the
    error that names the scope and the model, and a request list that
    holds it returns no options.  When [hasScope] is true of a name whose
    definition is no function of the model's own, be it an options object
    or a member inherited from [Object.prototype], the request for it
    alone does not throw that error. *)
Theorem applyScopes_rejects_what_hasScope_denies (sb : t) (name : string)
    (includeDefault : bool) :
  (hasScope sb name = false ->
   applyScopes sb [ByName name] includeDefault =
     Throw (scope_not_defined name (model_name sb))) /\
  (forall reqs q, In q reqs -> hasScope sb (request_name q) = false ->
     forall o, applyScopes sb reqs includeDefault <> Ok o) /\
  (hasScope sb name = true ->
   (forall f, scopes sb !! name <> Some (DefFunction f)) ->
   applyScopes sb [ByName name] includeDefault <>
     Throw (scope_not_defined name (model_name sb))).
Proof.
  split; [|split].
  - intros Hhas. apply hasScope_false in Hhas. unfold applyScopes. simpl.
    by rewrite Hhas.
  - intros reqs q Hin Hhas o. apply hasScope_false in Hhas.
    unfold applyScopes. by apply ScopeBuilderSpec.apply_named_missing with q.
  - intros Hhas Hdef. unfold applyScopes. simpl.
    destruct (lookup_scope sb name) as [d| |] eqn:Hl.
    + done.
    + destruct (inherited_scope name) as [o|msg] eqn:Hi; [done|].
      unfold inherited_scope in Hi. repeat case_match; try discriminate.
      injection Hi as <-. intros Heq. injection Heq as Heq.
      by apply (no_receiver_is_not_scope_not_defined name (model_name sb)).
    + apply hasScope_false in Hl. congruence.
Qed.

Lemma mergeOptions_empty (base : ScopeOptions) :
  mergeOptions base empty_options = base.
Proof. by destruct base. Qed.

(** X2.  A function scope that hands back the request itself contributes no
    option: requesting it after other scopes gives what the other scopes
    give (their options, or their error). *)
Theorem applyScopes_scope_returning_request_adds_nothing (sb : t)
    (reqs : list ScopeRequest) (q : ScopeRequest)
    (f : list jsval -> ScopeResult) (includeDefault : bool) :
  scopes sb !! request_name q = Some (DefFunction f) ->
  f (request_args q) = ReturnsRequest ->
  applyScopes sb (reqs ++ [q]) includeDefault =
  applyScopes sb reqs includeDefault.
Proof.
  intros Hq Hf. unfold applyScopes. rewrite apply_named_app.
  destruct (apply_named sb reqs _) as [merged|msg]; [|done].
  simpl. rewrite (ScopeBuilderSpec.lookup_scope_own _ _ _ Hq). simpl.
  rewrite Hf.
  unfold extractOptionsFromRequest. by rewrite mergeOptions_empty.
Qed.

(** The where clause of a non-empty list of clauses merged from the left. *)
Definition and_all (ws : list jsval) : jsval :=
  match ws with
  | [] => JUndefined
  | [w] => w
  | _ => JObj [("and", JArr ws)]
  end.

Lemma mergeOptions_where_is (base incoming : ScopeOptions) :
  where_ (mergeOptions base incoming) =
  if truthy (where_ incoming)
  then mergeWhere (where_ base) (where_ incoming)
  else where_ base.
Proof.
  unfold mergeOptions. destruct (truthy (where_ incoming));
    by destruct (include incoming).
Qed.

Lemma apply_named_where_append (sb : t) (reqs : list ScopeRequest)
    (ws xs : list jsval) (merged : ScopeOptions) :
  Forall2 (fun q w =>
             exists d, scopes sb !! request_name q = Some d
                       /\ where_ (normalizeScopeDefinition d (request_args q)) = w
                       /\ truthy w = true) reqs ws ->
  where_ merged = JObj [("and", JArr xs)] ->
  exists o, apply_named sb reqs merged = Ok o
            /\ where_ o = JObj [("and", JArr (xs ++ ws))].
Proof.
  intros Hall. revert xs merged.
  induction Hall as [|q w reqs ws (d & Hq & Hw & Ht) _ IH]; intros xs merged Hm.
  - exists merged. by rewrite app_nil_r.
  - simpl. rewrite (ScopeBuilderSpec.lookup_scope_own _ _ _ Hq).
    destruct (IH (xs ++ [w])
                (mergeOptions merged
                   (normalizeScopeDefinition d (request_args q))))
      as (o & Ho & Hwo).
    + rewrite mergeOptions_where_is, Hw, Ht, Hm.
      by apply ScopeBuilderSpec.mergeWhere_and_list.
    + exists o. split; [done|]. by rewrite Hwo, <- app_assoc.
Qed.

(** X3.  Named scopes that each carry a where clause, applied to a request
    that starts without one (no default scope, or one without where
    clause): one scope gives its clause as it is, several give one flat
    [and] list of the clauses in the order of the request, provided the
    first clause is not itself an object with an [and] array. *)
Theorem applyScopes_where_is_flat_and_list (sb : t)
    (reqs : list ScopeRequest) (ws : list jsval) (includeDefault : bool) :
  Forall2 (fun q w =>
             exists d, scopes sb !! request_name q = Some d
                       /\ where_ (normalizeScopeDefinition d (request_args q)) = w
                       /\ truthy w = true) reqs ws ->
  (forall d, includeDefault = true -> defaultScope sb = Some d ->
             truthy (where_ (normalizeScopeDefinition d [])) = false) ->
  (forall w xs, head ws = Some w -> prop w "and" <> JArr xs) ->
  exists o, applyScopes sb reqs includeDefault = Ok o /\ where_ o = and_all ws.
Proof.
  intros Hall Hdefault Hfirst. unfold applyScopes.
  set (start := match includeDefault, defaultScope sb with
                | true, Some d => _
                | _, _ => _
                end).
  assert (Hstart : where_ start = JUndefined).
  { subst start. destruct includeDefault; [|done].
    destruct (defaultScope sb) as [d|] eqn:Hd; [|done].
    rewrite mergeOptions_where_is. by rewrite (Hdefault d). }
  clearbody start.
  destruct Hall as [|q w reqs ws (d & Hq & Hw & Ht) Hrest].
  { by exists start. }
  simpl. rewrite (ScopeBuilderSpec.lookup_scope_own _ _ _ Hq).
  set (m1 := mergeOptions start _).
  assert (Hm1 : where_ m1 = w).
  { subst m1. rewrite mergeOptions_where_is, Hw, Ht, Hstart. done. }
  clearbody m1.
  destruct Hrest as [|q2 w2 reqs ws (d2 & Hq2 & Hw2 & Ht2) Hrest].
  { by exists m1. }
  simpl. rewrite (ScopeBuilderSpec.lookup_scope_own _ _ _ Hq2).
  set (m2 := mergeOptions m1 _).
  assert (Hm2 : where_ m2 = JObj [("and", JArr [w; w2])]).
  { subst m2. rewrite mergeOptions_where_is, Hw2, Ht2, Hm1.
    unfold mergeWhere. rewrite Ht, Ht2. simpl.
    destruct (prop w "and") as [| | | | |xs|] eqn:Hand; simpl; try done.
    - by destruct b.
    - by destruct (negb (n =? 0)).
    - by destruct (negb (String.eqb s "")).
    - by destruct (Hfirst w xs). }
  clearbody m2.
  destruct (apply_named_where_append sb reqs ws [w; w2] m2 Hrest Hm2)
    as (o & Ho & Hwo).
  exists o. split; [done|]. rewrite Hwo. simpl. by destruct ws.
Qed.

(** *** Includes *)

Lemma include_key_set_include (e : IncludeOption) (inc : list IncludeOption) :
  include_key (set_include e inc) = include_key e.
Proof. done. Qed.

Lemma update_first_keys (key : string) (f : IncludeOption -> IncludeOption)
    (result : list IncludeOption) :
  (forall e, include_key (f e) = include_key e) ->
  map include_key (update_first key f result) = map include_key result.
Proof.
  intros Hf. induction result as [|r rest IH]; simpl; [done|].
  destruct (String.eqb (include_key r) key); simpl; [by rewrite Hf|by rewrite IH].
Qed.

Lemma has_key_elem (keys : list string) (key : string) :
  has_key keys key = true <-> key ∈ keys.
Proof.
  unfold has_key. rewrite existsb_exists. split.
  - intros (x & Hin & Heq). apply String.eqb_eq in Heq. subst.
    by apply list_elem_of_In.
  - intros Hin. exists key. split; [by apply list_elem_of_In|].
    apply String.eqb_refl.
Qed.

(** One turn of the loop keeps [keys] the list of keys of [result], and
    adds the key of [inc] when it is new. *)
Lemma mergeIncludes_step_keys (inc : IncludeOption)
    (result : list IncludeOption) :
  let st := mergeIncludes_step inc (result, map include_key result) in
  st.2 = map include_key st.1 /\
  st.2 = map include_key result
         ++ (if has_key (map include_key result) (include_key inc)
             then [] else [include_key inc]).
Proof.
  destruct inc as [rel a req attrs thr nested lim off ord].
  cbn [mergeIncludes_step].
  destruct (has_key (map include_key result) _) eqn:Hk; simpl.
  - destruct nested as [[|x nested]|]; simpl; rewrite ?app_nil_r; try done.
    split; [|done]. symmetry. apply update_first_keys.
    intros e. apply include_key_set_include.
  - split; [|done]. by rewrite map_app.
Qed.

Lemma mergeIncludes_keys (incoming base : list IncludeOption) :
  exists added,
    map include_key (mergeIncludes base incoming)
      = map include_key base ++ added /\
    NoDup added /\
    (forall k, k ∈ added <->
               k ∈ map include_key incoming /\ k ∉ map include_key base).
Proof.
  unfold mergeIncludes.
  revert base. induction incoming as [|inc incoming IH]; intros base.
  - exists []. simpl. rewrite app_nil_r. split; [done|]. split; [constructor|].
    intros k. split; [by intros ?%elem_of_nil|by intros [?%elem_of_nil _]].
  - simpl.
    pose proof (mergeIncludes_step_keys inc base) as [Hsync Hkeys].
    destruct (mergeIncludes_step inc (base, map include_key base))
      as [result keys] eqn:Hstep.
    simpl in Hsync, Hkeys. subst keys.
    destruct (IH result) as (added & Hmap & Hnd & Hadded).
    rewrite Hmap, Hkeys.
    destruct (has_key (map include_key base) (include_key inc)) eqn:Hk.
    + rewrite app_nil_r in *. exists added. split; [done|]. split; [done|].
      intros k. rewrite Hadded, Hkeys, elem_of_cons.
      apply has_key_elem in Hk. split; [tauto|].
      intros [[->|Hin] Hnot]; [done|tauto].
    + exists (include_key inc :: added). rewrite <- app_assoc. simpl.
      split; [done|].
      assert (Hnot : include_key inc ∉ map include_key base).
      { intros Hin%has_key_elem. congruence. }
      split.
      * apply NoDup_cons. split; [|done].
        intros Hin%Hadded. destruct Hin as [_ Hin]. apply Hin.
        rewrite Hkeys. apply elem_of_app. right. by apply list_elem_of_singleton.
      * intros k. rewrite !elem_of_cons, Hadded, Hkeys, elem_of_app,
          list_elem_of_singleton.
        split.
        -- intros [->|[Hin Hn]]; [tauto|]. split; [tauto|]. tauto.
        -- intros [[->|Hin] Hn]; [tauto|].
           destruct (decide (k = include_key inc)) as [->|Hne]; [tauto|].
           right. tauto.
Qed.

(** The keys of [ks] that [seen] does not hold, each at its first
    occurrence and in the order of [ks]. *)
Fixpoint new_keys (seen ks : list string) : list string :=
  match ks with
  | [] => []
  | k :: ks =>
      if has_key seen k then new_keys seen ks
      else k :: new_keys (seen ++ [k]) ks
  end.

Lemma mergeIncludes_keys_in_order (incoming base : list IncludeOption) :
  map include_key (mergeIncludes base incoming)
  = map include_key base
    ++ new_keys (map include_key base) (map include_key incoming).
Proof.
  unfold mergeIncludes.
  revert base. induction incoming as [|inc incoming IH]; intros base.
  - simpl. by rewrite app_nil_r.
  - simpl.
    pose proof (mergeIncludes_step_keys inc base) as [Hsync Hkeys].
    destruct (mergeIncludes_step inc (base, map include_key base))
      as [result keys] eqn:Hstep.
    simpl in Hsync, Hkeys. subst keys. rewrite IH, Hkeys.
    destruct (has_key (map include_key base) (include_key inc)).
    + by rewrite app_nil_r.
    + by rewrite <- app_assoc.
Qed.

(** X4.  [mergeIncludes] keeps the includes of [base] in place and appends
    the incoming includes whose key (relation and alias) [base] does not
    hold, each once, at the place of its first occurrence and in the
    order of [incoming]: a list without duplicate key stays without
    duplicate key. *)
Theorem mergeIncludes_dedupes_by_relation_and_alias
    (base incoming : list IncludeOption) :
  let merged := mergeIncludes base incoming in
  let added := new_keys (map include_key base) (map include_key incoming) in
  map include_key merged = map include_key base ++ added /\
  NoDup added /\
  (forall k, k ∈ added <->
             k ∈ map include_key incoming /\ k ∉ map include_key base) /\
  (length base <= length merged <= length base + length incoming)%nat /\
  (NoDup (map include_key base) -> NoDup (map include_key merged)).
Proof.
  intros merged added. subst merged.
  destruct (mergeIncludes_keys incoming base) as (added' & Hmap & Hnd & Hadded).
  pose proof (mergeIncludes_keys_in_order incoming base) as Horder.
  fold added in Horder.
  assert (added' = added) as ->.
  { rewrite Hmap in Horder. by apply app_inv_head in Horder. }
  split; [done|]. split; [done|]. split; [done|]. split.
  - assert (Hlen : length (mergeIncludes base incoming)
                   = (length base + length added)%nat).
    { rewrite <- (length_map include_key (mergeIncludes base incoming)), Hmap.
      by rewrite length_app, length_map. }
    assert (Hsub : (length added <= length (map include_key incoming))%nat).
    { apply submseteq_length, NoDup_submseteq; [done|].
      intros k Hk. by apply Hadded in Hk as [? _]. }
    rewrite length_map in Hsub. lia.
  - intros Hbase. rewrite Hmap. apply NoDup_app. split; [done|]. split; [|done].
    intros k Hk Hin. apply Hadded in Hin. tauto.
Qed.

(** A builder with three option scopes and a scope that chains on the
    request. *)
Definition where_scope (key : string) : ScopeDefinition :=
  DefOptions
    (MkScopeOptions (JObj [(key, JBool true)]) None None None None None None).

Definition shop_builder : t :=
  MkScopeBuilder "Products"
    {[ "active" := where_scope "active";
       "featured" := where_scope "featured";
       "inStock" := where_scope "inStock";
       "chained" := DefFunction (fun _ => ReturnsRequest) ]}
    None.

Lemma applyScopes_scope_returning_request_adds_nothing_witness :
  applyScopes shop_builder [ByName "active"; ByName "chained"] true =
  applyScopes shop_builder [ByName "active"] true.
Proof.
  apply (applyScopes_scope_returning_request_adds_nothing shop_builder
           [ByName "active"] (ByName "chained") (fun _ => ReturnsRequest) true);
    reflexivity.
Defined.

Lemma applyScopes_where_is_flat_and_list_witness :
  exists o,
    applyScopes shop_builder
      [ByName "active"; ByName "featured"; ByName "inStock"] true = Ok o /\
    where_ o = JObj [("and", JArr [JObj [("active", JBool true)];
                                   JObj [("featured", JBool true)];
                                   JObj [("inStock", JBool true)]])].
Proof.
  apply (applyScopes_where_is_flat_and_list shop_builder
           [ByName "active"; ByName "featured"; ByName "inStock"]
           [JObj [("active", JBool true)]; JObj [("featured", JBool true)];
            JObj [("inStock", JBool true)]] true).
  - repeat constructor; eexists; repeat split; reflexivity.
  - intros d _ Hd. discriminate Hd.
  - intros w xs Hw. injection Hw as <-. discriminate.
Defined.

End ScopeBuilderMore.

(** ** In-memory cache adapter, continued *)

Module CacheAdapterMore.
Import CacheAdapter.

(** X5.  [set] then [get] without marker: the value comes back, and the
    adapter is left as it is, up to and including the millisecond of
    expiry; after it the answer is [null], the entry is dropped, and it
    stays dropped whatever the clock says at a later [get]. *)
Theorem set_then_get_until_expiry (t0 t1 t2 ttl : Z) (c : t) (key : string)
    (v : jsval) :
  let c1 := (set t0 c key v ttl).2 in
  (set t0 c key v ttl).1 = true /\
  (t1 <= t0 + ttl * 1000 -> get t1 c1 key None = (v, c1)) /\
  (t0 + ttl * 1000 < t1 ->
   (get t1 c1 key None).1 = JNull /\
   cache (get t1 c1 key None).2 !! key = None /\
   (get t2 (get t1 c1 key None).2 key None).1 = JNull).
Proof.
  simpl. split; [done|]. split.
  - intros Hle. unfold get. simpl. rewrite lookup_insert_eq. simpl.
    by rewrite (proj2 (Z.ltb_ge _ _) Hle).
  - intros Hlt. unfold get at 1 2 4. simpl. rewrite lookup_insert_eq. simpl.
    rewrite (proj2 (Z.ltb_lt _ _) Hlt). simpl.
    split; [done|]. split; [apply lookup_delete_eq|].
    unfold get. simpl. by rewrite lookup_delete_eq.
Qed.

(** X6.  [del] drops the entry of the key, takes the key out of every tag set,
    leaves the other entries alone and removes no tag. *)
Theorem del_forgets_key (now : Z) (c : t) (key : string)
    (evictTimestamp : option Z) :
  get now (del c key) key evictTimestamp = (JNull, del c key) /\
  (forall tag keys, tags (del c key) !! tag = Some keys -> key ∉ keys) /\
  (forall other, other <> key ->
     (get now (del c key) other evictTimestamp).1
     = (get now c other evictTimestamp).1) /\
  (forall tag, is_Some (tags (del c key) !! tag) <-> is_Some (tags c !! tag)).
Proof.
  split; [|split; [|split]].
  - unfold get, del. simpl. by rewrite lookup_delete_eq.
  - intros tag keys. unfold del. simpl. rewrite lookup_fmap.
    destruct (tags c !! tag) as [ks|]; simpl; [|done].
    intros [= <-]. apply not_elem_of_difference. right.
    by apply elem_of_singleton.
  - intros other Hne. unfold get, del. simpl.
    rewrite lookup_delete_ne by done.
    destruct (cache c !! other) as [e|]; [|done].
    destruct (expires e <? now); [done|].
    by destruct (marker_set evictTimestamp && _).
  - intros tag. unfold del. simpl. rewrite lookup_fmap.
    by rewrite fmap_is_Some.
Qed.

Lemma fold_delete_lookup (l : list string) (m : gmap string entry)
    (k : string) :
  fold_left (fun m key => delete key m) l m !! k =
  if bool_decide (k ∈ l) then None else m !! k.
Proof.
  revert m. induction l as [|x l IH]; intros m; simpl; [done|].
  rewrite IH. destruct (decide (k = x)) as [->|Hne].
  - rewrite lookup_delete_eq.
    rewrite (bool_decide_eq_true_2 (x ∈ x :: l)) by (by left).
    by case_bool_decide.
  - rewrite lookup_delete_ne by done.
    case_bool_decide as Hin.
    + rewrite bool_decide_eq_true_2; [done|by right].
    + rewrite bool_decide_eq_false_2; [done|].
      by intros [?|?]%elem_of_cons.
Qed.

(** One turn of the loop of [tagInvalidate]. *)
Definition invalidate_tag (c : t) (tag : string) : t :=
  match tags c !! tag with
  | Some keys =>
      MkAdapter
        (fold_left (fun m key => delete key m) (elements keys) (cache c))
        (delete tag (tags c))
  | None => c
  end.

Lemma tagInvalidate_cons (c : t) (tag : string) (tgs : list string) :
  tagInvalidate c (tag :: tgs) = tagInvalidate (invalidate_tag c tag) tgs.
Proof. done. Qed.

Lemma invalidate_tag_tags (c : t) (tag t' : string) :
  tags (invalidate_tag c tag) !! t' =
  if bool_decide (t' = tag) then None else tags c !! t'.
Proof.
  unfold invalidate_tag. destruct (tags c !! tag) as [keys|] eqn:Ht; simpl.
  - case_bool_decide as Heq; [subst; apply lookup_delete_eq|].
    by rewrite lookup_delete_ne.
  - case_bool_decide as Heq; [by subst|done].
Qed.

Lemma invalidate_tag_cache (c : t) (tag key : string) :
  cache (invalidate_tag c tag) !! key =
  match tags c !! tag with
  | Some keys => if bool_decide (key ∈ keys) then None else cache c !! key
  | None => cache c !! key
  end.
Proof.
  unfold invalidate_tag. destruct (tags c !! tag) as [keys|]; simpl; [|done].
  rewrite fold_delete_lookup.
  case_bool_decide as Hin; case_bool_decide as Hin'; try done.
  - by apply elem_of_elements in Hin.
  - by apply elem_of_elements in Hin'.
Qed.

Lemma tagInvalidate_spec (tgs : list string) (c : t) :
  (forall key tag keys,
     tag ∈ tgs -> tags c !! tag = Some keys -> key ∈ keys ->
     cache (tagInvalidate c tgs) !! key = None) /\
  (forall key,
     (forall tag keys, tag ∈ tgs -> tags c !! tag = Some keys -> key ∉ keys) ->
     cache (tagInvalidate c tgs) !! key = cache c !! key) /\
  (forall key, cache c !! key = None ->
               cache (tagInvalidate c tgs) !! key = None) /\
  (forall tag, tags (tagInvalidate c tgs) !! tag =
               if bool_decide (tag ∈ tgs) then None else tags c !! tag).
Proof.
  revert c. induction tgs as [|t0 tgs IH]; intros c.
  { repeat split; try done. by intros key tag keys ?%elem_of_nil. }
  rewrite tagInvalidate_cons.
  destruct (IH (invalidate_tag c t0)) as (Hdrop & Hkeep & Hmono & Htags).
  assert (Hmono' : forall key, cache c !! key = None ->
                     cache (tagInvalidate (invalidate_tag c t0) tgs) !! key = None).
  { intros key Hnone. apply Hmono. rewrite invalidate_tag_cache.
    destruct (tags c !! t0); [|done]. by case_bool_decide. }
  split; [|split; [|split]].
  - intros key tag keys Hin Htag Hkey.
    destruct (decide (tag = t0)) as [->|Hne].
    + apply Hmono. rewrite invalidate_tag_cache, Htag.
      by rewrite bool_decide_eq_true_2.
    + apply elem_of_cons in Hin as [?|Hin]; [done|].
      apply (Hdrop key tag keys); [done| |done].
      rewrite invalidate_tag_tags. by rewrite bool_decide_eq_false_2.
  - intros key Hnot. rewrite Hkeep.
    + rewrite invalidate_tag_cache.
      destruct (tags c !! t0) as [keys|] eqn:Ht0; [|done].
      rewrite bool_decide_eq_false_2; [done|].
      apply (Hnot t0 keys); [by left|done].
    + intros tag keys Hin. rewrite invalidate_tag_tags.
      case_bool_decide; [done|]. apply Hnot. by right.
  - done.
  - intros tag. rewrite Htags, invalidate_tag_tags.
    destruct (decide (tag = t0)) as [->|Hne].
    + rewrite (bool_decide_eq_true_2 (t0 ∈ t0 :: tgs)) by (by left).
      by repeat case_bool_decide.
    + rewrite (bool_decide_eq_false_2 (tag = t0)) by done.
      case_bool_decide as Hin.
      * rewrite bool_decide_eq_true_2; [done|by right].
      * rewrite bool_decide_eq_false_2; [done|].
        by intros [?|?]%elem_of_cons.
Qed.

Lemma tagInvalidate_absent (tgs : list string) (c : t) :
  (forall tag, tag ∈ tgs -> tags c !! tag = None) -> tagInvalidate c tgs = c.
Proof.
  induction tgs as [|t0 tgs IH]; intros Hnone; [done|].
  rewrite tagInvalidate_cons. unfold invalidate_tag.
  rewrite Hnone by (by left). apply IH. intros tag Hin. apply Hnone. by right.
Qed.

(** X7.  [tagInvalidate(tags)] drops the entry of every key that one of the
    tags holds, keeps the entry of every other key, and forgets the tags
    themselves: unknown tags and tags given twice change nothing more. *)
Theorem tagInvalidate_drops_exactly_tagged_keys (c : t) (tgs : list string) :
  let c' := tagInvalidate c tgs in
  (forall key tag keys,
     tag ∈ tgs -> tags c !! tag = Some keys -> key ∈ keys ->
     cache c' !! key = None) /\
  (forall key,
     (forall tag keys, tag ∈ tgs -> tags c !! tag = Some keys -> key ∉ keys) ->
     cache c' !! key = cache c !! key) /\
  (forall tag, tags c' !! tag =
               if bool_decide (tag ∈ tgs) then None else tags c !! tag) /\
  tagInvalidate c' tgs = c'.
Proof.
  simpl. destruct (tagInvalidate_spec tgs c) as (Hdrop & Hkeep & _ & Htags).
  split; [done|]. split; [done|]. split; [done|].
  assert (Hnone : forall tag, tag ∈ tgs ->
                    tags (tagInvalidate c tgs) !! tag = None).
  { intros tag Hin. by rewrite Htags, bool_decide_eq_true_2. }
  by apply tagInvalidate_absent.
Qed.

Lemma tagKey_cons (c : t) (key tag : string) (tgs : list string) :
  tagKey c key (tag :: tgs) =
  tagKey (MkAdapter (cache c)
            (<[tag := default ∅ (tags c !! tag) ∪ {[key]}]> (tags c)))
    key tgs.
Proof. done. Qed.

Lemma tagKey_spec (tgs : list string) (c : t) (key : string) :
  cache (tagKey c key tgs) = cache c /\
  (forall tag, tags (tagKey c key tgs) !! tag =
     if bool_decide (tag ∈ tgs)
     then Some (default ∅ (tags c !! tag) ∪ {[key]})
     else tags c !! tag).
Proof.
  revert c. induction tgs as [|t0 tgs IH]; intros c; [done|].
  rewrite tagKey_cons. destruct (IH (MkAdapter (cache c)
    (<[t0 := default ∅ (tags c !! t0) ∪ {[key]}]> (tags c)))) as [Hc Ht].
  split; [done|]. intros tag. rewrite Ht. simpl.
  destruct (decide (tag = t0)) as [->|Hne].
  - rewrite lookup_insert_eq. simpl.
    rewrite (bool_decide_eq_true_2 (t0 ∈ t0 :: tgs)) by (by left).
    case_bool_decide; [|done]. f_equal.
    by rewrite <- (assoc_L (∪)), (idemp_L (∪) {[key]}).
  - rewrite lookup_insert_ne by done.
    case_bool_decide as Hin.
    + rewrite bool_decide_eq_true_2; [done|by right].
    + rewrite bool_decide_eq_false_2; [done|].
      by intros [?|?]%elem_of_cons.
Qed.

(** X8.  [tagKey(key, tags)] touches no entry and puts the key in the set of
    each of the tags, next to the keys already there; invalidating any
    one of these tags then drops the entry of the key, so that [get]
    answers [null]. *)
Theorem tagKey_then_tagInvalidate_drops_entry (now : Z) (c : t)
    (key tag : string) (tgs : list string) (evictTimestamp : option Z) :
  tag ∈ tgs ->
  let c1 := tagKey c key tgs in
  cache c1 = cache c /\
  tags c1 !! tag = Some (default ∅ (tags c !! tag) ∪ {[key]}) /\
  cache (tagInvalidate c1 [tag]) !! key = None /\
  (get now (tagInvalidate c1 [tag]) key evictTimestamp).1 = JNull.
Proof.
  intros Hin c1. subst c1. destruct (tagKey_spec tgs c key) as [Hc Ht].
  specialize (Ht tag). rewrite bool_decide_eq_true_2 in Ht by done.
  split; [done|]. split; [done|].
  assert (Hnone : cache (tagInvalidate (tagKey c key tgs) [tag]) !! key = None).
  { destruct (tagInvalidate_spec [tag] (tagKey c key tgs)) as (Hdrop & _).
    apply (Hdrop key tag _ ltac:(by left) Ht).
    apply elem_of_union. right. by apply elem_of_singleton. }
  split; [done|]. unfold get. by rewrite Hnone.
Qed.

Lemma tagKey_then_tagInvalidate_drops_entry_witness :
  let c1 := tagKey (set 0 create "Users:1" (JStr "row") 60).2
              "Users:1" ["users"; "admins"] in
  cache c1 = cache (set 0 create "Users:1" (JStr "row") 60).2 /\
  tags c1 !! "admins" = Some (∅ ∪ {[ "Users:1" ]}) /\
  cache (tagInvalidate c1 ["admins"]) !! "Users:1" = None /\
  (get 1000 (tagInvalidate c1 ["admins"]) "Users:1" None).1 = JNull.
Proof.
  apply (tagKey_then_tagInvalidate_drops_entry 1000
           (set 0 create "Users:1" (JStr "row") 60).2 "Users:1" "admins"
           ["users"; "admins"] None).
  right. left.
Defined.

End CacheAdapterMore.

(** ** Records, continued *)

Module RecMore.
Import Rec.

(** A property of every record of a parent chain. *)
Fixpoint chain_all (P : record -> Prop) (r : record) : Prop :=
  match r with
  | MkRecord _ _ parent _ _ _ _ =>
      P r /\ match parent with
             | Some p => chain_all P p
             | None => True
             end
  end.

Lemma chain_all_unfold (P : record -> Prop) (r : record) :
  chain_all P r <->
  P r /\ match _parent r with Some p => chain_all P p | None => True end.
Proof. by destruct r. Qed.

(** The record with its flags as [sync] leaves them, along the chain:
    ready, and dirty exactly when a change is pending. *)
Fixpoint settle (r : record) : record :=
  match r with
  | MkRecord m changes parent dat _ flushed _ =>
      MkRecord m changes
        (match parent with Some p => Some (settle p) | None => None end)
        dat Ready flushed (negb (bool_decide (changes = ∅)))
  end.

Lemma settle_unfold (r : record) :
  settle r =
  MkRecord (_model r) (_changes r) (settle <$> _parent r) (_data r) Ready
    (_flushed r) (has_changes r).
Proof. by destruct r as [m c [p|] d rd fl di]. Qed.

Section Sync.
Context `{FieldOps}.

Local Arguments sync : simpl never.

(** X9.  [sync] leaves every record of the chain ready, and dirty exactly when
    it still has a pending change. *)
Theorem sync_sets_ready_and_dirty_along_chain (r : record) (data : object) :
  chain_all (fun x => _isReady x = Ready /\ _isDirty x = has_changes x)
    (sync r data).
Proof.
  induction r as [r IH] using RecSpec.record_chain_ind.
  apply chain_all_unfold.
  destruct (RecSpec.sync_shape r data) as [_ Hp]. rewrite Hp.
  split.
  - rewrite RecSpec.sync_unfold. done.
  - destruct (_parent r) as [p|] eqn:Hpar; simpl; [|done]. by apply IH.
Qed.

(** The field is left alone by [sync]: [data] holds neither its name nor
    its column, or it is the primary key and the record has one. *)
Definition skipped (data : object) (r : record) (f : Field) : bool :=
  match sync_key data f with
  | None => true
  | Some _ =>
      String.eqb (column f) (column (primaryField (_model r)))
      && truthy (data_at r (column f))
  end.

Fixpoint all_skipped (data : object) (r : record) : bool :=
  match r with
  | MkRecord m _ parent _ _ _ _ =>
      forallb (skipped data r) (fields m)
      && match parent with
         | Some p => all_skipped data p
         | None => true
         end
  end.

Lemma all_skipped_unfold (data : object) (r : record) :
  all_skipped data r =
  forallb (skipped data r) (fields (_model r))
  && match _parent r with Some p => all_skipped data p | None => true end.
Proof. by destruct r. Qed.

Lemma sync_field_skipped (data : object) (r : record) (f : Field) :
  skipped data r f = true -> sync_field data r f = r.
Proof.
  unfold skipped, sync_field. destruct (sync_key data f); [|done].
  by intros ->.
Qed.

Lemma fold_sync_skipped (data : object) (fs : list Field) (r : record) :
  forallb (skipped data r) fs = true -> fold_left (sync_field data) fs r = r.
Proof.
  induction fs as [|f fs IH]; simpl; [done|].
  intros [Hf Hfs]%andb_true_iff. rewrite sync_field_skipped by done. by apply IH.
Qed.

(** X10.  When [data] names no field of the chain, or only primary keys that
    are already set, [sync] stores nothing and drops no pending change;
    it still flags every record of the chain as ready. *)
Theorem sync_without_field_only_sets_flags (r : record) (data : object) :
  all_skipped data r = true -> sync r data = settle r.
Proof.
  induction r as [r IH] using RecSpec.record_chain_ind.
  rewrite all_skipped_unfold. intros [Hown Hpar]%andb_true_iff.
  rewrite RecSpec.sync_unfold, settle_unfold. simpl.
  assert (Hparent : (fun p => sync p data) <$> _parent r = settle <$> _parent r).
  { destruct (_parent r) as [p|] eqn:Hp; simpl; [|done]. f_equal. by apply IH. }
  rewrite Hparent.
  rewrite fold_sync_skipped; [done|exact Hown].
Qed.

Lemma sync_field_clean (data : object) (r : record) (f : Field) :
  _changes r = ∅ -> _changes (sync_field data r f) = ∅.
Proof.
  intros Hc. unfold sync_field. destruct (sync_key data f); [|done].
  destruct (_ && _); [done|]. simpl. rewrite Hc. apply delete_empty.
Qed.

Lemma sync_field_flags (data : object) (r : record) (f : Field) :
  _flushed (sync_field data r f) = _flushed r.
Proof.
  unfold sync_field. destruct (sync_key data f); [|done].
  by destruct (_ && _).
Qed.

Lemma sync_field_data (data : object) (r : record) (f : Field) (c : string) :
  is_Some (_data (sync_field data r f) !! c) ->
  is_Some (_data r !! c) \/ (column f = c /\ is_Some (sync_key data f)).
Proof.
  unfold sync_field. destruct (sync_key data f) as [key|] eqn:Hk; [|by left].
  destruct (_ && _); [by left|]. simpl.
  destruct (decide (column f = c)) as [<-|Hne]; [by right|].
  rewrite lookup_insert_ne by done. by left.
Qed.

Lemma fold_sync_clean (data : object) (fs : list Field) (r : record) :
  _changes r = ∅ -> _changes (fold_left (sync_field data) fs r) = ∅.
Proof.
  revert r. induction fs as [|f fs IH]; intros r Hc; simpl; [done|].
  by apply IH, sync_field_clean.
Qed.

Lemma fold_sync_data (data : object) (fs : list Field) (r : record)
    (c : string) :
  is_Some (_data (fold_left (sync_field data) fs r) !! c) ->
  is_Some (_data r !! c)
  \/ (exists f, f ∈ fs /\ column f = c /\ is_Some (sync_key data f)).
Proof.
  revert r. induction fs as [|f fs IH]; intros r; simpl; [by left|].
  intros [Hr|(g & Hin & Hg)]%IH.
  - apply sync_field_data in Hr as [Hr|[Hc Hk]]; [by left|].
    right. exists f. split; [by left|done].
  - right. exists g. split; [by right|done].
Qed.

(** X11.  [new Record(model, data, parent)] is clean: no pending change, not
    dirty, not flushed; it is ready exactly when [data] has two keys or
    more, whatever the keys; it holds a value only for columns of fields
    that [data] names; and its parent has been synchronised with [data]. *)
Theorem constructor_is_clean_and_holds_what_data_names (m : Model)
    (data : object) (parent : option record) :
  let r := constructor m data parent in
  _model r = m /\
  _changes r = ∅ /\ _isDirty r = false /\ _flushed r = false /\
  _parent r = (fun p => sync p data) <$> parent /\
  (_isReady r = Ready <-> (2 <= length data)%nat) /\
  (forall c, is_Some (_data r !! c) ->
     exists f, f ∈ fields m /\ column f = c /\ is_Some (sync_key data f)).
Proof.
  unfold constructor. cbn zeta.
  set (this := MkRecord m ∅ parent ∅ NotReady false false).
  destruct (RecSpec.sync_shape this data) as [Hm Hp].
  pose proof (RecSpec.sync_unfold this data) as Hs. cbn zeta in Hs.
  set (r0 := with_parent this ((fun p => sync p data) <$> _parent this)) in Hs.
  simpl. split; [done|]. split.
  { by apply fold_sync_clean. }
  split; [done|]. split; [done|]. split; [done|]. split.
  - unfold keys. rewrite length_map.
    destruct (1 <? Z.of_nat (length data)) eqn:Hlen.
    + apply Z.ltb_lt in Hlen. split; [lia|done].
    + apply Z.ltb_ge in Hlen. split; [done|lia].
  - intros c. intros [Hc|Hf]%fold_sync_data; [|done].
    simpl in Hc. rewrite lookup_empty in Hc. by destruct Hc.
Qed.

End Sync.

Section Flush.
Context `{FieldOps} `{Storage}.

Local Arguments flush : simpl never.

Lemma flush_own_state (r r' : record) (tr tr' : list event)
    (o : outcome unit) :
  flush r tr = (o, r', tr') ->
  _model r' = _model r /\
  (_isDirty r = true -> o = Ok tt ->
   _changes r' = ∅ /\ _data r' = _changes r ∪ _data r /\
   _flushed r' = true /\ _isDirty r' = false) /\
  (_isDirty r = false ->
   _changes r' = _changes r /\ _data r' = _data r /\
   _flushed r' = _flushed r /\ _isDirty r' = false).
Proof.
  rewrite RecSpec.flush_unfold.
  assert (Hdirty : forall r0 tr0,
            _model r0 = _model r -> _changes r0 = _changes r ->
            _data r0 = _data r ->
            flush_dirty r0 tr0 = (o, r', tr') ->
            _model r' = _model r /\
            (o = Ok tt ->
             _changes r' = ∅ /\ _data r' = _changes r ∪ _data r /\
             _flushed r' = true /\ _isDirty r' = false)).
  { intros r0 tr0 Hm Hc Hd. unfold flush_dirty.
    destruct (all_hooks _ _ _); [by intros [= <- <- <-]|].
    destruct (build_update _ _ _) as [update|]; [|by intros [= <- <- <-]].
    simpl. rewrite Hm, Hc, Hd.
    destruct update as [|kv update].
    - destruct (updated_fields _ _); [|by intros [= <- <- <-]].
      destruct (all_hooks _ _ _); by intros [= <- <- <-].
    - destruct (update_rejects _ _ _ _); [by intros [= <- <- <-]|].
      destruct (updated_fields _ _); [|by intros [= <- <- <-]].
      destruct (all_hooks _ _ _); by intros [= <- <- <-]. }
  destruct (_parent r) as [p|].
  - destruct (flush p tr) as [[op p'] trp].
    destruct op as [[]|msg].
    + destruct (_isDirty r) eqn:Hd.
      * intros Hf. by apply Hdirty in Hf as [Hm Hok].
      * intros [= <- <- <-]. by repeat split.
    + intros [= <- <- <-]. split; [done|]. split; [done|].
      intros Hd. by repeat split.
  - destruct (_isDirty r) eqn:Hd.
    + intros Hf. by apply Hdirty in Hf as [Hm Hok].
    + intros [= <- <- <-]. by repeat split.
Qed.

Lemma build_update_keys (fs : list Field) (r : record) (acc update : object)
    (c : string) :
  build_update fs r acc = Ok update ->
  (hasOwnProperty update c = true <->
   hasOwnProperty acc c = true
   \/ (exists f, f ∈ fs /\ stored f <> Some false /\ column f = c
                 /\ is_Some (_changes r !! c))).
Proof.
  revert acc. induction fs as [|f fs IH]; intros acc; simpl.
  - intros [= <-]. split; [by left|]. intros [?|(f & Hin & _)]; [done|].
    by apply elem_of_nil in Hin.
  - case_bool_decide as Hstored.
    + intros Hb. rewrite (IH _ Hb). split.
      * intros [?|(g & Hin & Hg)]; [by left|]. right. exists g.
        split; [by right|done].
      * intros [?|(g & Hin & Hg & Hc & Hch)]; [by left|].
        apply elem_of_cons in Hin as [->|Hin]; [done|]. right. by exists g.
    + destruct (validate f r); [done|]. intros Hb. rewrite (IH _ Hb).
      case_bool_decide as Hch.
      * destruct (decide (column f = c)) as [<-|Hne].
        -- rewrite ModelSpec.hasOwnProperty_set_key_same. split.
           ++ intros _. right. exists f. split; [by left|done].
           ++ intros _. by left.
        -- rewrite ModelSpec.hasOwnProperty_set_key_other by done. split.
           ++ intros [?|(g & Hin & Hg)]; [by left|]. right. exists g.
              split; [by right|done].
           ++ intros [?|(g & Hin & Hg & Hc & Hgch)]; [by left|].
              apply elem_of_cons in Hin as [->|Hin]; [done|].
              right. by exists g.
      * split.
        -- intros [?|(g & Hin & Hg)]; [by left|]. right. exists g.
           split; [by right|done].
        -- intros [?|(g & Hin & Hg & Hc & Hgch)]; [by left|].
           apply elem_of_cons in Hin as [->|Hin]; [by subst|].
           right. by exists g.
Qed.

Lemma build_update_total (fs : list Field) (r : record) (acc : object) :
  (forall f, f ∈ fs -> validate f r = None) ->
  exists update, build_update fs r acc = Ok update.
Proof.
  revert acc. induction fs as [|f fs IH]; intros acc Hv; simpl; [by eexists|].
  case_bool_decide.
  - apply IH. intros g Hg. apply Hv. by right.
  - rewrite Hv by (by left). apply IH. intros g Hg. apply Hv. by right.
Qed.

Lemma updated_fields_missing (m : Model) (ks : list string) (k : string) :
  k ∈ ks -> field_named m k = None -> updated_fields m ks = None.
Proof.
  induction ks as [|k0 ks IH]; [by intros ?%elem_of_nil|].
  intros [->|Hin]%elem_of_cons Hk; simpl.
  - by rewrite Hk.
  - destruct (field_named m k0); [|done]. by rewrite IH.
Qed.

Lemma hasOwnProperty_keys (o : object) (k : string) :
  hasOwnProperty o k = true <-> k ∈ keys o.
Proof.
  induction o as [|[k' v] o IH]; simpl.
  - split; [done|by intros ?%elem_of_nil].
  - destruct (String.eqb k' k) eqn:Heq.
    + apply String.eqb_eq in Heq as ->. split; [by left|done].
    + apply String.eqb_neq in Heq. rewrite IH, elem_of_cons.
      split; [by right|]. by intros [->|?].
Qed.

End Flush.

Section FlushHooked.
Context `{FieldOps} `{Storage} `{RecordHooks}.

Local Arguments flush_hooked : simpl never.

Lemma with_parent_self (r : record) : with_parent r (_parent r) = r.
Proof. by destruct r. Qed.

(** What the dirty block leaves of the record when it resolves. *)
Lemma flush_dirty_hooked_ok (r r' : record) (tr tr' : list event) :
  flush_dirty_hooked r tr = (Ok tt, r', tr') ->
  r' = with_tracking (committed (pre_hooked r))
         (this_post_update (committed (pre_hooked r))).2.
Proof.
  unfold flush_dirty_hooked.
  change (with_tracking (with_tracking (with_isDirty r false) _) _)
    with (pre_hooked r).
  destruct ((this_pre_update _).1); [done|].
  destruct ((this_pre_validate _).1); [done|].
  destruct (all_hooks _ _ _); [done|].
  destruct (build_update _ _ _) as [update|]; [|done].
  destruct update as [|kv update]; cbn zeta; cbn iota.
  - destruct (updated_fields _ _); [|done].
    destruct (all_hooks _ _ _); [done|].
    destruct ((this_post_update _).1); [done|]. by intros [= <- <-].
  - destruct (update_rejects _ _ _ _); [done|].
    destruct (updated_fields _ _); [|done].
    destruct (all_hooks _ _ _); [done|].
    destruct ((this_post_update _).1); [done|]. by intros [= <- <-].
Qed.

(** X12.  What [flush] does to the record it is called on.  When the
    record is dirty and the call resolves, the pending changes, as the
    pre-update and pre-validate hooks of the record class leave them,
    have become the stored values of their columns, no change is pending
    and the record is marked flushed; the post-update hook runs on that
    record, and the record is as the hook leaves it.  With hooks that
    leave the record alone, as those of [class Record] do, the stored
    values are the old ones overridden by the changes that were pending
    at the call.  When the record is not dirty, its own values and
    pending changes are left as they are, whatever the outcome. *)
Theorem flush_moves_changes_to_data (r r' : record) (tr tr' : list event)
    (o : outcome unit) :
  flush_hooked r tr = (o, r', tr') ->
  _model r' = _model r /\
  (_isDirty r = true -> o = Ok tt ->
   let sent := pre_hooked (with_parent r (_parent r')) in
   r' = with_tracking (committed sent) (this_post_update (committed sent)).2 /\
   _flushed r' = true /\
   ((this_post_update (committed sent)).2 = tracking_of (committed sent) ->
    _changes r' = ∅ /\ _data r' = _changes sent ∪ _data sent /\
    _isDirty r' = false) /\
   ((forall x, (this_pre_update x).2 = tracking_of x) ->
    (forall x, (this_pre_validate x).2 = tracking_of x) ->
    _changes sent = _changes r /\ _data sent = _data r)) /\
  (_isDirty r = false ->
   _changes r' = _changes r /\ _data r' = _data r /\
   _flushed r' = _flushed r /\ _isDirty r' = false).
Proof.
  rewrite RecSpec.flush_hooked_unfold.
  assert (Hdirty : forall r0 tr0,
            _model r0 = _model r -> _changes r0 = _changes r ->
            _data r0 = _data r -> r0 = with_parent r (_parent r0) ->
            flush_dirty_hooked r0 tr0 = (o, r', tr') ->
            _model r' = _model r /\
            (o = Ok tt ->
             let sent := pre_hooked (with_parent r (_parent r')) in
             r' = with_tracking (committed sent)
                    (this_post_update (committed sent)).2 /\
             _flushed r' = true /\
             ((this_post_update (committed sent)).2
                = tracking_of (committed sent) ->
              _changes r' = ∅ /\ _data r' = _changes sent ∪ _data sent /\
              _isDirty r' = false) /\
             ((forall x, (this_pre_update x).2 = tracking_of x) ->
              (forall x, (this_pre_validate x).2 = tracking_of x) ->
              _changes sent = _changes r /\ _data sent = _data r))).
  { intros r0 tr0 Hm Hc Hd Hr0 Hf.
    pose proof (RecSpec.flush_dirty_hooked_frame _ _ _ _ _ Hf) as (Hpar & Hmod & _).
    split; [congruence|]. intros ->.
    apply flush_dirty_hooked_ok in Hf.
    rewrite Hpar, <- Hr0. cbn zeta.
    split; [done|]. split; [by rewrite Hf|]. split.
    - intros Hpost. rewrite Hf, Hpost. done.
    - intros Hu Hv. unfold pre_hooked, pre_updated. cbn zeta.
      rewrite Hv, Hu. simpl. done. }
  destruct (_parent r) as [p|] eqn:Hp.
  - destruct (flush_hooked p tr) as [[op p'] trp].
    destruct op as [[]|msg].
    + destruct (_isDirty r) eqn:Hd.
      * intros Hf. apply Hdirty in Hf; [|done..].
        destruct Hf as [Hm Hok]. split; [done|]. split; [by intros _|done].
      * intros [= <- <- <-]. by repeat split.
    + intros [= <- <- <-]. split; [done|]. split; [done|].
      intros Hd. by repeat split.
  - destruct (_isDirty r) eqn:Hd.
    + intros Hf. apply Hdirty in Hf; [|done..|symmetry; apply with_parent_self].
      destruct Hf as [Hm Hok]. split; [done|]. split; [by intros _|done].
    + intros [= <- <- <-]. by repeat split.
Qed.

Lemma flush_dirty_hooked_sends (r : record) (tr : list event)
    (update : object) :
  pre_update_answer r = None -> pre_validate_answer r = None ->
  all_hooks pre_update (fields (_model r)) (pre_hooked r) = None ->
  build_update (fields (_model r)) (pre_hooked r) [] = Ok update ->
  match update with
  | [] => storage_updates (flush_dirty_hooked r tr).2 = storage_updates tr
  | _ :: _ =>
      exists rest,
        (flush_dirty_hooked r tr).2 =
        tr ++ StorageUpdate (table (_model r)) (get_id (pre_hooked r))
                update :: rest
        /\ storage_updates rest = 0%nat
  end.
Proof.
  unfold pre_update_answer, pre_validate_answer.
  intros Hu Hv Hpre Hb. unfold flush_dirty_hooked.
  change (with_tracking (with_tracking (with_isDirty r false) _) _)
    with (pre_hooked r).
  change (with_tracking (with_isDirty r false) _) with (pre_updated r).
  rewrite Hu, Hv, Hpre, Hb.
  destruct update as [|kv update].
  - simpl. clear Hpre Hu Hv. repeat case_match; simpl;
      rewrite ?RecSpec.storage_updates_app; unfold storage_updates;
      simpl; lia.
  - cbn zeta. cbn iota.
    destruct (update_rejects _ _ _ _).
    { exists []. by split. }
    repeat case_match; simpl; rewrite <- ?app_assoc; simpl; eexists;
      (split; [reflexivity|done]).
Qed.

(** X13.  What [flush] sends for a dirty record without parent.  When the
    pre-update or the pre-validate hook of the record class rejects, the
    flush rejects with its error and nothing is sent.  Else the update
    holds exactly the columns of the stored fields that have a pending
    change once the two hooks have run, which count the fields a hook
    assigned; when there is none, no update is sent at all; else the
    update is sent once, for the table of the model. *)
Theorem flush_sends_changed_stored_columns (r : record) (tr : list event) :
  _parent r = None -> _isDirty r = true ->
  (forall msg, pre_update_answer r = Some msg ->
     flush_hooked r tr = (Throw msg, pre_updated r, tr)) /\
  (forall msg, pre_update_answer r = None ->
     pre_validate_answer r = Some msg ->
     flush_hooked r tr = (Throw msg, pre_hooked r, tr)) /\
  (forall update, pre_update_answer r = None ->
     pre_validate_answer r = None ->
     all_hooks pre_update (fields (_model r)) (pre_hooked r) = None ->
     build_update (fields (_model r)) (pre_hooked r) [] = Ok update ->
     (forall c, hasOwnProperty update c = true <->
        (exists f, f ∈ fields (_model r) /\ stored f <> Some false
                   /\ column f = c
                   /\ is_Some (_changes (pre_hooked r) !! c))) /\
     match update with
     | [] => storage_updates (flush_hooked r tr).2 = storage_updates tr
     | _ :: _ =>
         exists rest,
           (flush_hooked r tr).2 =
           tr ++ StorageUpdate (table (_model r)) (get_id (pre_hooked r))
                   update :: rest
           /\ storage_updates rest = 0%nat
     end).
Proof.
  intros Hpar Hdirty. rewrite RecSpec.flush_hooked_unfold, Hpar, Hdirty.
  split; [|split].
  - unfold pre_update_answer. intros msg Hu. unfold flush_dirty_hooked.
    by rewrite Hu.
  - unfold pre_update_answer, pre_validate_answer. intros msg Hu Hv.
    unfold flush_dirty_hooked.
    change (with_tracking (with_tracking (with_isDirty r false) _) _)
      with (pre_hooked r).
    change (with_tracking (with_isDirty r false) _) with (pre_updated r).
    by rewrite Hu, Hv.
  - intros update Hu Hv Hpre Hb. split.
    + intros c. rewrite (build_update_keys _ _ _ _ c Hb). simpl.
      split; [by intros [?|?]|by right].
    + by apply flush_dirty_hooked_sends.
Qed.

(** X14.  The post-update hooks are looked up by column among the field names:
    when a stored field with a pending change has a column that is the
    name of no field, [flush] sends the update, commits the changes to
    the record, and then rejects with a [TypeError]; the post-update hook
    of the record class does not run and the [update] event is never
    emitted. *)
Theorem flush_rejects_after_update_when_column_names_no_field
    (r : record) (tr : list event) (f : Field) :
  _parent r = None -> _isDirty r = true ->
  pre_update_answer r = None -> pre_validate_answer r = None ->
  f ∈ fields (_model r) -> stored f <> Some false ->
  is_Some (_changes (pre_hooked r) !! column f) ->
  field_named (_model r) (column f) = None ->
  all_hooks pre_update (fields (_model r)) (pre_hooked r) = None ->
  (forall g, g ∈ fields (_model r) -> validate g (pre_hooked r) = None) ->
  (forall update,
     update_rejects tr (table (_model r)) (get_id (pre_hooked r)) update
     = None) ->
  exists r' tr',
    flush_hooked r tr = (Throw undefined_post_update, r', tr') /\
    storage_updates tr' = S (storage_updates tr) /\
    (Emit "update" (model_name (_model r)) ∉ drop (length tr) tr') /\
    r' = committed (pre_hooked r) /\
    _changes r' = ∅ /\
    _data r' = _changes (pre_hooked r) ∪ _data (pre_hooked r) /\
    _isDirty r' = false.
Proof.
  unfold pre_update_answer, pre_validate_answer.
  intros Hpar Hdirty Hu Hv Hin Hstored Hch Hname Hpre Hvalid Hacc.
  rewrite RecSpec.flush_hooked_unfold, Hpar, Hdirty. unfold flush_dirty_hooked.
  change (with_tracking (with_tracking (with_isDirty r false) _) _)
    with (pre_hooked r).
  change (with_tracking (with_isDirty r false) _) with (pre_updated r).
  rewrite Hu, Hv, Hpre.
  destruct (build_update_total (fields (_model r)) (pre_hooked r) []
              Hvalid) as [update Hb].
  rewrite Hb.
  assert (Hkey : hasOwnProperty update (column f) = true).
  { apply (build_update_keys _ _ _ _ (column f) Hb). right.
    by exists f. }
  destruct update as [|kv update]; [done|].
  cbn zeta. cbn iota. rewrite Hacc.
  rewrite (updated_fields_missing _ _ (column f));
    [|by apply hasOwnProperty_keys|done].
  destruct (has_cache (_model r)); eexists _, _; (split; [reflexivity|]);
    rewrite ?RecSpec.storage_updates_app, <- ?app_assoc, ?drop_app_length;
    unfold storage_updates; simpl;
    (split; [lia|]); (split; [|done]).
  - intros [[=]|[[=]|[]%elem_of_nil]%elem_of_cons]%elem_of_cons.
  - intros [[=]|[]%elem_of_nil]%elem_of_cons.
Qed.

End FlushHooked.

(** *** JSON *)

Lemma keys_set_key (o : object) (k : string) (v : jsval) :
  keys (set_key o k v) = if hasOwnProperty o k then keys o else keys o ++ [k].
Proof.
  induction o as [|[k' v'] o IH]; simpl; [done|].
  destruct (String.eqb k' k) eqn:Heq; simpl.
  - apply String.eqb_eq in Heq. by subst.
  - rewrite IH. by destruct (hasOwnProperty o k).
Qed.

Lemma hasOwnProperty_false (o : object) (k : string) :
  hasOwnProperty o k = false <-> k ∉ keys o.
Proof.
  rewrite <- hasOwnProperty_keys. by destruct (hasOwnProperty o k).
Qed.

Lemma get_absent (o : object) (k : string) :
  hasOwnProperty o k = false -> get o k = JUndefined.
Proof.
  induction o as [|[k' v] o IH]; simpl; [done|].
  by destruct (String.eqb k' k).
Qed.

Lemma keys_set_key_NoDup (o : object) (k : string) (v : jsval) :
  NoDup (keys o) -> NoDup (keys (set_key o k v)).
Proof.
  intros Hnd. rewrite keys_set_key.
  destruct (hasOwnProperty o k) eqn:Hk; [done|].
  apply NoDup_app. split; [done|]. split; [|apply NoDup_singleton].
  intros x Hx ->%list_elem_of_singleton. by apply hasOwnProperty_false in Hk.
Qed.

Lemma get_spread (b a : object) (k : string) :
  NoDup (keys b) ->
  get (spread a b) k = if hasOwnProperty b k then get b k else get a k.
Proof.
  unfold spread. revert a. induction b as [|[k0 v0] b IH]; intros a Hnd; [done|].
  simpl in *. apply NoDup_cons in Hnd as [Hk0 Hnd]. rewrite IH by done.
  destruct (String.eqb k0 k) eqn:Heq.
  - apply String.eqb_eq in Heq as ->.
    apply hasOwnProperty_false in Hk0. rewrite Hk0.
    apply ModelSpec.get_set_key_same.
  - apply String.eqb_neq in Heq.
    by rewrite ModelSpec.get_set_key_other.
Qed.

Lemma hasOwnProperty_spread (b a : object) (k : string) :
  hasOwnProperty (spread a b) k = hasOwnProperty a k || hasOwnProperty b k.
Proof.
  unfold spread. revert a. induction b as [|[k0 v0] b IH]; intros a; simpl.
  - by rewrite orb_false_r.
  - rewrite IH. destruct (String.eqb k0 k) eqn:Heq.
    + apply String.eqb_eq in Heq as ->.
      rewrite ModelSpec.hasOwnProperty_set_key_same. simpl.
      by rewrite orb_true_r.
    + apply String.eqb_neq in Heq.
      by rewrite ModelSpec.hasOwnProperty_set_key_other.
Qed.

Section Json.
Context `{FieldOps}.

(** The loop of [toRawJSON] over a list of fields. *)
Definition raw_step (r : record) (json : object) (field : Field) : object :=
  match toJSON field r with
  | JUndefined => json
  | value => set_key json (name field) value
  end.

Lemma raw_step_NoDup (r : record) (json : object) (f : Field) :
  NoDup (keys json) -> NoDup (keys (raw_step r json f)).
Proof.
  intros Hnd. unfold raw_step.
  destruct (toJSON f r); try done; by apply keys_set_key_NoDup.
Qed.

Lemma raw_fold_NoDup (r : record) (fs : list Field) (json : object) :
  NoDup (keys json) -> NoDup (keys (fold_left (raw_step r) fs json)).
Proof.
  revert json. induction fs as [|f fs IH]; intros json Hnd; simpl; [done|].
  by apply IH, raw_step_NoDup.
Qed.

Lemma toRawJSON_NoDup (r : record) : NoDup (keys (toRawJSON r)).
Proof. apply (raw_fold_NoDup r (fields (_model r)) []). constructor. Qed.

Lemma raw_step_other (r : record) (json : object) (f : Field) (k : string) :
  name f <> k ->
  get (raw_step r json f) k = get json k /\
  hasOwnProperty (raw_step r json f) k = hasOwnProperty json k.
Proof.
  intros Hne. unfold raw_step.
  destruct (toJSON f r); try done;
    by rewrite ModelSpec.get_set_key_other,
         ModelSpec.hasOwnProperty_set_key_other.
Qed.

Lemma raw_fold_other (r : record) (fs : list Field) (json : object)
    (k : string) :
  k ∉ map name fs ->
  get (fold_left (raw_step r) fs json) k = get json k /\
  hasOwnProperty (fold_left (raw_step r) fs json) k = hasOwnProperty json k.
Proof.
  revert json. induction fs as [|f fs IH]; intros json Hnot; simpl; [done|].
  simpl in Hnot. apply not_elem_of_cons in Hnot as [Hne Hnot].
  destruct (IH (raw_step r json f) Hnot) as [-> ->].
  by apply raw_step_other.
Qed.

(** X15.  [toRawJSON] holds, under the name of each field, what the [toJSON] of
    the field answers, and no key for a field that answers [undefined]
    nor for a name that is not a field. *)
Theorem toRawJSON_holds_defined_fields (r : record) :
  NoDup (map name (fields (_model r))) ->
  (forall f, f ∈ fields (_model r) ->
     get (toRawJSON r) (name f) = toJSON f r /\
     (hasOwnProperty (toRawJSON r) (name f) = true
      <-> toJSON f r <> JUndefined)) /\
  (forall k, k ∉ map name (fields (_model r)) ->
     hasOwnProperty (toRawJSON r) k = false).
Proof.
  intros Hnd. split.
  - intros f Hin. apply list_elem_of_split in Hin as (pre & post & Hfs).
    change (toRawJSON r) with (fold_left (raw_step r) (fields (_model r)) []).
    rewrite Hfs in *. rewrite map_app in Hnd. simpl in Hnd.
    apply NoDup_app in Hnd as (_ & Hpre & Hpost).
    apply NoDup_cons in Hpost as [Hpost _].
    rewrite fold_left_app. simpl.
    destruct (raw_fold_other r post
                (raw_step r (fold_left (raw_step r) pre []) f) (name f) Hpost)
      as [-> ->].
    assert (Hbefore : hasOwnProperty (fold_left (raw_step r) pre []) (name f)
                      = false).
    { destruct (raw_fold_other r pre [] (name f)) as [_ ->]; [|done].
      intros Hin. apply (Hpre _ Hin). by left. }
    set (json := fold_left (raw_step r) pre []) in *. clearbody json.
    unfold raw_step.
    destruct (toJSON f r) eqn:Hj; cbn iota;
      rewrite ?ModelSpec.get_set_key_same,
        ?ModelSpec.hasOwnProperty_set_key_same;
      try (split; [done|]; split; [done|by intros _]).
    split; [by apply get_absent|]. rewrite Hbefore. by split.
  - intros k Hk.
    change (toRawJSON r) with (fold_left (raw_step r) (fields (_model r)) []).
    by destruct (raw_fold_other r (fields (_model r)) [] k Hk) as [_ ->].
Qed.

Lemma record_toJSON_unfold (r : record) :
  record_toJSON r =
  spread (match _parent r with Some p => record_toJSON p | None => [] end)
    (toRawJSON r).
Proof. by destruct r. Qed.

(** X16.  [toJSON] of a record with a parent: a key that the record's own
    [toRawJSON] holds shows the record's value, every other key shows what
    the [toJSON] of the parent shows; no key of either side is lost. *)
Theorem toJSON_overrides_parent (r : record) (k : string) :
  get (record_toJSON r) k =
    (if hasOwnProperty (toRawJSON r) k then get (toRawJSON r) k
     else match _parent r with
          | Some p => get (record_toJSON p) k
          | None => JUndefined
          end) /\
  hasOwnProperty (record_toJSON r) k =
    hasOwnProperty (toRawJSON r) k
    || match _parent r with
       | Some p => hasOwnProperty (record_toJSON p) k
       | None => false
       end.
Proof.
  rewrite record_toJSON_unfold, hasOwnProperty_spread,
    (get_spread _ _ _ (toRawJSON_NoDup r)).
  split.
  - by destruct (_parent r).
  - rewrite orb_comm. by destruct (_parent r).
Qed.

End Json.

(** *** Changed fields *)

Section Changed.
Context `{FieldOps} `{Storage}.
Variable read : Field -> record -> jsval.

(** X17.  [isChanged]: a record whose primary key reads as falsy answers [true]
    for every name, field or not; after a [flush] that resolved on a
    dirty record that has a primary key, every field of the model
    answers [false], and any other name throws. *)
Theorem isChanged_without_key_and_after_flush (r r' : record)
    (tr tr' : list event) (fieldName : string) :
  (truthy (read (primaryField (_model r)) r) = false ->
   isChanged read r fieldName = Ok true) /\
  (flush r tr = (Ok tt, r', tr') -> _isDirty r = true ->
   truthy (read (primaryField (_model r')) r') = true ->
   isChanged read r' fieldName =
   match field_named (_model r) fieldName with
   | Some _ => Ok false
   | None => Throw (no_such_field fieldName (model_name (_model r)))
   end).
Proof.
  split.
  - intros Hid. unfold isChanged. by rewrite Hid.
  - intros Hflush Hdirty Hid.
    destruct (flush_own_state _ _ _ _ _ Hflush)
      as (Hm & Hok & _).
    destruct (Hok Hdirty eq_refl) as (Hc & _).
    unfold isChanged, getField. rewrite Hid, Hm. simpl.
    destruct (field_named (_model r) fieldName) as [f|]; [|done].
    by rewrite Hc, lookup_empty.
Qed.

End Changed.

(** *** Sample records *)

(** A user known by its key only, not loaded yet. *)
Definition user_by_key : record :=
  MkRecord RecSpec.users ∅ None {[ "id" := JNum 1 ]} Pending false false.

Lemma sync_without_field_only_sets_flags_witness :
  sync (H := RecSpec.plain_fields RecSpec.check_email) user_by_key
    [("id", JNum 1)]
  = MkRecord RecSpec.users ∅ None {[ "id" := JNum 1 ]} Ready false false.
Proof.
  apply (@sync_without_field_only_sets_flags
           (RecSpec.plain_fields RecSpec.check_email) user_by_key
           [("id", JNum 1)]).
  reflexivity.
Defined.

Lemma flush_moves_changes_to_data_witness :
  let ops := RecSpec.plain_fields RecSpec.check_email in
  let st := RecSpec.accepting_storage in
  let hooks := RecSpec.Timestampable in
  let '(o, r', _) := flush_hooked RecSpec.account_edited [] in
  o = Ok tt /\
  _changes r' = ∅ /\
  _data r' !! "email" = Some (JStr "new@example.com") /\
  _data r' !! "updated_at" = Some RecSpec.stamp /\
  _data r' !! "id" = Some (JNum 1) /\
  _flushed r' = true.
Proof.
  intros ops st hooks.
  destruct (flush_hooked RecSpec.account_edited [])
    as [[o r'] tr'] eqn:E.
  assert (Ho : o = Ok tt).
  { apply (f_equal (fun x => x.1.1)) in E. vm_compute in E. by subst. }
  subst o.
  destruct (@flush_moves_changes_to_data ops st hooks
              RecSpec.account_edited r' [] tr' (Ok tt) E)
    as (_ & Hok & _).
  destruct (Hok eq_refl eq_refl) as (_ & Hf & Hpost & _).
  destruct Hpost as (Hc & Hd & _); [reflexivity|].
  split; [done|]. split; [done|]. rewrite Hd.
  split; [reflexivity|]. split; [reflexivity|]. split; [reflexivity|done].
Defined.

(** A model whose field [email] is stored in the column [email_address]. *)
Definition address_field : Field :=
  MkField "email" "email_address" None false.

Definition contacts : Model :=
  MkModel "Contacts" "contacts" [RecSpec.id_field; address_field]
    RecSpec.id_field None None None false None false false false.

Definition contact_edited : record :=
  MkRecord contacts {[ "email_address" := JStr "new@example.com" ]} None
    {[ "id" := JNum 1; "email_address" := JStr "ada@example.com" ]}
    Ready false true.

Lemma flush_sends_changed_stored_columns_witness :
  let ops := RecSpec.plain_fields RecSpec.check_email in
  let st := RecSpec.accepting_storage in
  let hooks := RecSpec.Timestampable in
  exists rest,
    (flush_hooked RecSpec.account_edited []).2 =
    [] ++ StorageUpdate "accounts" (JNum 1)
            [("email", JStr "new@example.com");
             ("updated_at", RecSpec.stamp)] :: rest
    /\ storage_updates rest = 0%nat.
Proof.
  intros ops st hooks.
  destruct (@flush_sends_changed_stored_columns ops st hooks
              RecSpec.account_edited [] eq_refl eq_refl) as (_ & _ & Hsent).
  destruct (Hsent [("email", JStr "new@example.com");
                   ("updated_at", RecSpec.stamp)])
    as [_ Hupdate]; try reflexivity.
  exact Hupdate.
Defined.

Lemma flush_rejects_after_update_when_column_names_no_field_witness :
  let ops := RecSpec.plain_fields RecSpec.check_email in
  let st := RecSpec.accepting_storage in
  let hooks := Record_hooks in
  exists r' tr',
    flush_hooked contact_edited [] = (Throw undefined_post_update, r', tr') /\
    storage_updates tr' = 1%nat /\
    _changes r' = ∅ /\ _isDirty r' = false.
Proof.
  intros ops st hooks.
  destruct (@flush_rejects_after_update_when_column_names_no_field ops st
              hooks contact_edited [] address_field)
    as (r' & tr' & Hf & Hn & _ & _ & Hc & _ & Hd); try reflexivity.
  - right. left.
  - discriminate.
  - by eexists.
  - intros g [->|[->|[]%elem_of_nil]%elem_of_cons]%elem_of_cons; reflexivity.
  - by exists r', tr'.
Defined.

Lemma toRawJSON_holds_defined_fields_witness :
  let ops := RecSpec.plain_fields RecSpec.check_email in
  get (toRawJSON (RecSpec.user_edited "new@example.com")) "email"
  = JStr "new@example.com".
Proof.
  intros ops.
  destruct (@toRawJSON_holds_defined_fields ops
              (RecSpec.user_edited "new@example.com")) as [Hf _].
  - simpl. ModelSpec.distinct_strings.
  - apply (Hf RecSpec.email_field). right. left.
Defined.

End RecMore.

(** ** Identity map and creation, continued *)

Module ModelMore.
Import Rec Model.

Section Allocate.
Context `{FieldOps}.

Local Arguments sync : simpl never.
Local Arguments constructor : simpl never.

Lemma allocate_without_id (fuel : nat) (repo : gmap string Model) (m : Model)
    (data : object) (ignoreDiscriminator : bool) (s : state) :
  abstract m = false -> super m = None ->
  ModelSpec.stays repo m data ignoreDiscriminator ->
  truthy (get data "id") = false ->
  allocate (S fuel) repo m data ignoreDiscriminator s =
  Some (Ok (length (heap s)),
        MkState (heap s ++ [constructor m data None]) (entities s)).
Proof.
  intros Habs Hsup Hstay Hid. simpl.
  rewrite Habs, (ModelSpec.stays_here _ _ _ _ Hstay), Hid, Hsup. done.
Qed.

(** X18.  Data without a truthy [id] is never tracked: each call of [allocate]
    builds a new record, also for the same data twice, and the identity
    maps stay as they are. *)
Theorem allocate_without_id_is_never_tracked (fuel : nat)
    (repo : gmap string Model) (m : Model) (data1 data2 : object)
    (ignoreDiscriminator : bool) (s : state) :
  abstract m = false -> super m = None ->
  ModelSpec.stays repo m data1 ignoreDiscriminator ->
  ModelSpec.stays repo m data2 ignoreDiscriminator ->
  truthy (get data1 "id") = false -> truthy (get data2 "id") = false ->
  allocate_each (S fuel) repo m [data1; data2] ignoreDiscriminator s =
  Some ([Ok (length (heap s)); Ok (S (length (heap s)))],
        MkState (heap s ++ [constructor m data1 None; constructor m data2 None])
          (entities s)).
Proof.
  intros Habs Hsup Hs1 Hs2 Hid1 Hid2.
  cbn [allocate_each].
  rewrite (allocate_without_id fuel repo m data1) by done.
  rewrite (allocate_without_id fuel repo m data2) by done.
  cbn [heap entities]. rewrite length_app, <- app_assoc. simpl.
  by rewrite Nat.add_1_r.
Qed.

Lemma allocate_heap_grows (fuel : nat) (repo : gmap string Model) (m : Model)
    (data : object) (ignoreDiscriminator : bool) (s s' : state)
    (o : outcome nat) :
  allocate fuel repo m data ignoreDiscriminator s = Some (o, s') ->
  (length (heap s) <= length (heap s'))%nat.
Proof.
  revert m data ignoreDiscriminator s s' o.
  induction fuel as [|fuel IH]; intros m data ign s s' o; [done|]. simpl.
  destruct (abstract m); [by intros [= _ <-]|].
  destruct (if ign then Ok None else redirect repo m data) as [[child|]|msg];
    [apply IH| |by intros [= _ <-]].
  destruct (if truthy (get data "id") then _ else None) as [l0|].
  { destruct (heap s !! l0); intros [= _ <-]; simpl;
      rewrite ?length_insert; lia. }
  destruct (super m) as [sup|].
  - destruct (inheritField m) as [f|]; [|by intros [= _ <-]].
    destruct (allocate fuel repo sup _ true s) as [[[lp|msg] s1]|] eqn:Hp;
      [| |done].
    + apply IH in Hp.
      destruct (truthy (get data "id")); intros [= _ <-]; simpl;
        rewrite length_app; simpl; lia.
    + apply IH in Hp. by intros [= _ <-].
  - destruct (truthy (get data "id")); intros [= _ <-]; simpl;
      rewrite length_app; simpl; lia.
Qed.

(** X19.  A new instance of a model with a parent is filed under its key in the
    identity map of the model and in the one of the parent model, so that
    the parent model resolves the key to the child instance. *)
Theorem allocate_child_is_filed_under_parent_too (fuel : nat)
    (repo : gmap string Model) (m sup : Model) (data : object)
    (ignoreDiscriminator : bool) (s s' : state) (l : nat) :
  super m = Some sup ->
  ModelSpec.stays repo m data ignoreDiscriminator ->
  truthy (get data "id") = true ->
  same_value_zero (get data "id") (get data "id") = true ->
  map_get (entities_of s m) (get data "id") = None ->
  allocate fuel repo m data ignoreDiscriminator s = Some (Ok l, s') ->
  map_get (entities_of s' m) (get data "id") = Some l /\
  map_get (entities_of s' sup) (get data "id") = Some l /\
  l = (length (heap s') - 1)%nat /\
  (length (heap s) < length (heap s'))%nat.
Proof.
  intros Hsup Hstay Hid Hprim Hnew. destruct fuel as [|fuel]; [done|]. simpl.
  destruct (abstract m); [done|].
  rewrite (ModelSpec.stays_here _ _ _ _ Hstay), Hid, Hnew, Hsup.
  destruct (inheritField m) as [f|]; [|done].
  destruct (allocate fuel repo sup _ true s) as [[[lp|] s1]|] eqn:Hparent;
    [|done..].
  intros [= <- <-].
  pose proof (allocate_heap_grows _ _ _ _ _ _ _ _ Hparent) as Hgrow.
  split; [|split; [|split]].
  - rewrite ModelSpec.entities_of_set.
    destruct (decide (model_name sup = model_name m)).
    + by apply ModelSpec.map_get_set_same.
    + rewrite ModelSpec.entities_of_set.
      rewrite decide_True by done. by apply ModelSpec.map_get_set_same.
  - rewrite ModelSpec.entities_of_set. rewrite decide_True by done.
    by apply ModelSpec.map_get_set_same.
  - simpl. rewrite length_app. simpl. lia.
  - simpl. rewrite length_app. simpl. lia.
Qed.

(** X20.  Allocation through the parent model: when the discriminator of the
    data names a child model that already tracks the key, [allocate] on
    the parent returns the instance the child tracks, synchronised with
    the data, and builds nothing. *)
Theorem allocate_on_parent_returns_tracked_child (fuel : nat)
    (repo : gmap string Model) (sup m : Model) (f : Field) (data : object)
    (s : state) (l : nat) (existing : record) :
  abstract sup = false -> abstract m = false ->
  discriminator_field sup = Some f ->
  discriminator_value f data = JStr (model_name m) ->
  model_name m <> "" ->
  repo !! model_name m = Some m ->
  ModelSpec.stays repo m data false ->
  truthy (get data "id") = true ->
  map_get (entities_of s m) (get data "id") = Some l ->
  heap s !! l = Some existing ->
  allocate (S (S fuel)) repo sup data false s =
  Some (Ok l, store s l (sync existing data)).
Proof.
  intros Hsup Hm Hf Hv Hname Hrepo Hstay Hid Hl Hex.
  rewrite <- (ModelSpec.allocate_tracked fuel repo m data false s l existing)
    by done.
  cbn [allocate]. rewrite Hsup. unfold redirect. rewrite Hf, Hv.
  cbn [truthy negb]. apply String.eqb_neq in Hname. rewrite Hname.
  cbn [negb]. unfold repo_get. cbn [to_string]. rewrite Hrepo. done.
Qed.

End Allocate.

Section Create.
Context `{FieldOps} `{Storage}.

Local Arguments sync : simpl never.
Local Arguments constructor : simpl never.
Local Arguments allocate : simpl never.

Lemma create_record_clean (m : Model) (l l' : nat) (r : record)
    (s s' : state) (tr tr' : list event) :
  super m = None ->
  create_record m l r s tr = (Ok l', s', tr') ->
  exists r3,
    s' = store s l r3 /\ l' = l /\ _model r3 = _model r /\
    _changes r3 = ∅ /\ _isDirty r3 = false.
Proof.
  intros Hsup. unfold create_record, inherits. rewrite Hsup. simpl.
  destruct (build_insert _ _ _) as [row|]; [|done].
  destruct (all_hooks pre_create _ _); [done|].
  destruct (insert_with_id _ _ _) as [[idv|] trI]; [|done].
  destruct (truthy (get_id r)); simpl.
  - destruct (has_cache m && negb (transactional m));
      (destruct (all_hooks post_create _ _); [done|]);
      intros [= <- <- <-]; by eexists.
  - destruct (returned_id idv) as [id'|]; [|done].
    destruct (has_cache m && negb (transactional m));
      (destruct (all_hooks post_create _ _); [done|]);
      intros [= <- <- <-]; by eexists.
Qed.

(** X21.  [create] on a model without parent, for data without [id]: the
    record built is new and ends clean, without pending change; it is
    filed in no identity map, so the model does not resolve the new key
    to it. *)
Theorem create_on_root_model_files_nothing (fuel : nat)
    (repo : gmap string Model) (m : Model) (data data' : object)
    (s s' : state) (tr tr' : list event) (l : nat) :
  super m = None -> truthy (get data "id") = false ->
  create fuel repo m data s tr = Some (Ok l, data', s', tr') ->
  entities s' = entities s /\
  data' = data /\
  l = length (heap s) /\
  length (heap s') = S (length (heap s)) /\
  exists r, heap s' !! l = Some r /\ _model r = m /\
            _changes r = ∅ /\ _isDirty r = false.
Proof.
  intros Hsup Hid. destruct fuel as [|fuel]; [done|]. simpl.
  destruct (abstract m) eqn:Habs; [done|]. rewrite Hsup.
  destruct (allocate fuel repo m data true s) as [[[l0|] s1]|] eqn:Halloc;
    [|done..].
  destruct (ModelSpec.allocate_root_fresh _ _ _ _ _ _ _ Hsup Hid Halloc)
    as [Ha|[[= ->] ->]]; [congruence|].
  cbn [heap]. rewrite lookup_app_r, Nat.sub_diag by done. cbn [lookup].
  simpl.
  destruct (create_record m _ _ _ tr) as [[o s2] tr2] eqn:Hrec.
  intros [= -> <- -> ->].
  apply create_record_clean in Hrec as (r3 & -> & -> & Hm & Hc & Hd); [|done].
  rewrite ModelSpec.constructor_model in Hm.
  simpl. rewrite length_insert, length_app. simpl.
  split; [done|]. split; [done|]. split; [done|]. split; [lia|].
  exists r3. split; [|done].
  apply list_lookup_insert_eq. rewrite length_app. simpl. lia.
Qed.

End Create.

(** *** Samples *)

Lemma allocate_without_id_is_never_tracked_witness :
  let ops := RecSpec.plain_fields RecSpec.check_email in
  let row := [("email", JStr "ada@example.com")] in
  allocate_each 1 ∅ RecSpec.users [row; row] true empty_state =
  Some ([Ok 0%nat; Ok 1%nat],
        MkState [constructor RecSpec.users row None;
                 constructor RecSpec.users row None] ∅).
Proof.
  intros ops row.
  apply (@allocate_without_id_is_never_tracked ops 0 ∅ RecSpec.users row row
           true empty_state); try reflexivity; by left.
Defined.

Lemma allocate_child_is_filed_under_parent_too_witness :
  let ops := RecSpec.plain_fields RecSpec.check_email in
  let row := [("id", JNum 1); ("title", JStr "T"); ("body", JStr "B")] in
  exists s',
    allocate 2 ModelSpec.blog RecSpec.posts row true empty_state
      = Some (Ok 1%nat, s') /\
    map_get (entities_of s' RecSpec.posts) (JNum 1) = Some 1%nat /\
    map_get (entities_of s' RecSpec.documents) (JNum 1) = Some 1%nat.
Proof.
  intros ops row.
  assert (exists s', allocate 2 ModelSpec.blog RecSpec.posts row true empty_state
                     = Some (Ok 1%nat, s')) as [s' E].
  { vm_compute. eexists. reflexivity. }
  exists s'. split; [done|].
  destruct (@allocate_child_is_filed_under_parent_too ops 2 ModelSpec.blog
              RecSpec.posts RecSpec.documents row true empty_state s' 1%nat)
    as (Hm & Hs & _); try reflexivity; try done.
  by left.
Defined.

Lemma allocate_on_parent_returns_tracked_child_witness :
  let ops := RecSpec.plain_fields RecSpec.check_email in
  let row := [("id", JNum 1); ("title", JStr "T"); ("_inherit", JStr "Posts")] in
  let s := MkState [RecSpec.post_clean] {[ "Posts" := [(JNum 1, 0%nat)] ]} in
  allocate 2 ModelSpec.blog RecSpec.documents row false s =
  Some (Ok 0%nat, store s 0 (sync RecSpec.post_clean row)).
Proof.
  intros ops row s.
  apply (@allocate_on_parent_returns_tracked_child ops 0 ModelSpec.blog
           RecSpec.documents RecSpec.posts RecSpec.inherit_field row s 0%nat
           RecSpec.post_clean); try reflexivity; try done.
  right. reflexivity.
Defined.

Lemma create_on_root_model_files_nothing_witness :
  let ops := RecSpec.plain_fields RecSpec.check_email in
  let st := RecSpec.accepting_storage in
  let row := [("email", JStr "ada@example.com")] in
  exists data' s' tr',
    create 2 ∅ RecSpec.users row empty_state [] = Some (Ok 0%nat, data', s', tr')
    /\ entities s' = ∅ /\ length (heap s') = 1%nat.
Proof.
  intros ops st row.
  assert (exists data' s' tr',
            create 2 ∅ RecSpec.users row empty_state []
            = Some (Ok 0%nat, data', s', tr')) as (data' & s' & tr' & E).
  { vm_compute. do 3 eexists. reflexivity. }
  exists data', s', tr'. split; [done|].
  destruct (@create_on_root_model_files_nothing ops st 2 ∅ RecSpec.users row
              data' empty_state s' [] tr' 0%nat eq_refl eq_refl E)
    as (He & _ & _ & Hlen & _).
  by split.
Defined.

End ModelMore.

(** ** Requests, continued *)

Module RequestMore.
Import ScopeBuilder Request.

Lemma _ensureDefaultIdSelect_keeps (r : t) :
  model (_ensureDefaultIdSelect r) = model r /\
  _method (queryBuilder (_ensureDefaultIdSelect r)) = _method (queryBuilder r) /\
  _cacheTTL (queryBuilder (_ensureDefaultIdSelect r))
    = _cacheTTL (queryBuilder r).
Proof.
  unfold _ensureDefaultIdSelect.
  destruct (negb _); [done|]. destruct (existsb _ _); [done|].
  destruct (has_cache (model r)); by destruct (existsb _ _).
Qed.

Lemma push_options_empty (r : t) : push_options r empty_options = r.
Proof. done. Qed.

(** The methods for which [_shouldWrapResults] answers [false]. *)
Definition write_methods : list string :=
  ["insert"; "update"; "upsert"; "del"; "delete"].

Lemma write_method_not_read_like (method : string) :
  toLowerCase method ∈ write_methods ->
  String.eqb method "" || String.eqb method "select"
  || String.eqb method "first" = false.
Proof.
  intros Hin.
  destruct (String.eqb method "") eqn:E1.
  { apply String.eqb_eq in E1. subst. vm_compute in Hin.
    by repeat (apply elem_of_cons in Hin as [Hin|Hin]; [discriminate Hin|]);
       apply elem_of_nil in Hin. }
  destruct (String.eqb method "select") eqn:E2.
  { apply String.eqb_eq in E2. subst. vm_compute in Hin.
    by repeat (apply elem_of_cons in Hin as [Hin|Hin]; [discriminate Hin|]);
       apply elem_of_nil in Hin. }
  destruct (String.eqb method "first") eqn:E3; [|done].
  apply String.eqb_eq in E3. subst. vm_compute in Hin.
  by repeat (apply elem_of_cons in Hin as [Hin|Hin]; [discriminate Hin|]);
     apply elem_of_nil in Hin.
Qed.

Section Then.
Context `{Backend}.

(** X22.  A [then] answered from the cache: when the results are wrapped, the
    model and the request cache, and the cache holds a truthy item under
    the key of the request, the item is wrapped and returned, and the
    query is not sent to the storage. *)
Theorem then_answered_from_cache_sends_no_query (r r1 : t)
    (log log1 : list io) :
  _applyScopes r log = (Ok tt, r1, log1) ->
  _shouldWrapResults r1 = true -> caches r1 = true ->
  truthy (read_cache r1 log1).1 = true ->
  then_ r log = (wrapResult (read_cache r1 log1).1, r1, (read_cache r1 log1).2)
  /\ executions (read_cache r1 log1).2 = executions log1
  /\ queryBuilder (then_ r log).1.2 = queryBuilder r1.
Proof.
  intros Hs Hw Hc Hitem. unfold then_. rewrite Hs, Hw, Hc. simpl.
  destruct (read_cache r1 log1) as [item log2] eqn:Hread. simpl in *.
  rewrite Hitem. split; [done|]. split; [|done].
  pose proof (RequestSpec.read_cache_log r1 log1) as [_ He].
  by rewrite Hread in He.
Qed.

(** X23.  A [then] that misses the cache: the query is sent once, with the
    default selection added, and the raw result is stored for the TTL of
    the request, raised to one second when it is less, under the key the
    request has after the selection was added; the key read before is the
    one it had before. *)
Theorem then_cache_miss_stores_raw_result (r r1 : t) (log log1 : list io)
    (v : jsval) :
  _applyScopes r log = (Ok tt, r1, log1) ->
  _shouldWrapResults r1 = true -> caches r1 = true ->
  truthy (read_cache r1 log1).1 = false ->
  run_query (read_cache r1 log1).2
    (queryBuilder (_ensureDefaultIdSelect r1)) = Ok v ->
  let r2 := _ensureDefaultIdSelect r1 in
  exists ttl evict,
    _cacheTTL (queryBuilder r1) = Some ttl /\
    then_ r log =
    (wrapResult v, r2,
     (read_cache r1 log1).2
       ++ [Execute (queryBuilder r2);
           CacheSet (_getRequestKey r2) v (Z.max 1 ttl)]) /\
    last (read_cache r1 log1).2 = Some (CacheGet (_getRequestKey r1) evict).
Proof.
  intros Hs Hw Hc Hitem Hrun r2. subst r2.
  destruct (_ensureDefaultIdSelect_keeps r1) as (Hm & Hmeth & Httl).
  assert (Hc2 : caches (_ensureDefaultIdSelect r1) = true).
  { unfold caches in *. by rewrite Hm, Httl. }
  pose proof Hc as Hc'. unfold caches in Hc'.
  apply andb_true_iff in Hc' as [_ Hsome]. apply bool_decide_eq_true in Hsome.
  destruct Hsome as [ttl Hsome]. exists ttl.
  assert (exists evict, last (read_cache r1 log1).2
                        = Some (CacheGet (_getRequestKey r1) evict))
    as [evict Hlast].
  { unfold read_cache. destruct (negb _); simpl; eexists; apply last_snoc. }
  exists evict. split; [done|]. split; [|done].
  unfold then_. rewrite Hs, Hw, Hc. simpl.
  destruct (read_cache r1 log1) as [item log2] eqn:Hread. simpl in *.
  rewrite Hitem. unfold run. rewrite Hrun. simpl. rewrite Hc2, Httl, Hsome.
  simpl. by rewrite <- app_assoc.
Qed.

(** X24.  A write query (insert, update, upsert, del, delete, in any letter
    case) goes straight to the storage: no selection is added, the cache
    is neither read nor written, and the raw answer of the storage is the
    result. *)
Theorem then_on_write_query_bypasses_cache_and_wrapping (r r1 : t)
    (log log1 : list io) (method : string) :
  _applyScopes r log = (Ok tt, r1, log1) ->
  _method (queryBuilder r1) = Some method ->
  toLowerCase method ∈ write_methods ->
  then_ r log =
  (run_query log1 (queryBuilder r1), r1, log1 ++ [Execute (queryBuilder r1)]).
Proof.
  intros Hs Hmeth Hin.
  pose proof (write_method_not_read_like method Hin) as Hread.
  assert (Hnonempty : String.eqb method "" = false).
  { by destruct (String.eqb method ""). }
  assert (Hwrap : _shouldWrapResults r1 = false).
  { unfold _shouldWrapResults. rewrite Hmeth, Hnonempty.
    by rewrite bool_decide_eq_true_2. }
  assert (Hsel : _ensureDefaultIdSelect r1 = r1).
  { unfold _ensureDefaultIdSelect. by rewrite Hmeth, Hread. }
  unfold then_. rewrite Hs, Hwrap. simpl. unfold run. rewrite Hsel.
  by destruct (run_query log1 (queryBuilder r1)).
Qed.


End Then.

(** *** Included relations *)

Definition include_step (set : list string) (rel : string) : list string :=
  if bool_decide (rel ∈ set) then set else set ++ [rel].

Lemma include_fold (relations set : list string) :
  NoDup set ->
  NoDup (fold_left include_step relations set) /\
  (forall rel, rel ∈ fold_left include_step relations set
               <-> rel ∈ set \/ rel ∈ relations) /\
  ((forall rel, rel ∈ relations -> rel ∈ set) ->
   fold_left include_step relations set = set).
Proof.
  revert set. induction relations as [|x relations IH]; intros set Hnd; simpl.
  { split; [done|]. split; [|done]. intros rel. split; [by left|].
    by intros [?|?%elem_of_nil]. }
  assert (Hstep : NoDup (include_step set x)).
  { unfold include_step. case_bool_decide as Hin; [done|].
    apply NoDup_app. split; [done|]. split; [|apply NoDup_singleton].
    by intros y Hy ->%list_elem_of_singleton. }
  destruct (IH _ Hstep) as (Hnd' & Hmem & Hsame).
  split; [done|]. split.
  - intros rel. rewrite Hmem, elem_of_cons. unfold include_step.
    case_bool_decide as Hin.
    + split; [tauto|]. intros [?|[->|?]]; tauto.
    + rewrite elem_of_app, list_elem_of_singleton. tauto.
  - intros Hall.
    assert (Hx : include_step set x = set).
    { unfold include_step. rewrite bool_decide_eq_true_2; [done|].
      apply Hall. by left. }
    rewrite Hx in *. apply Hsame. intros rel Hrel. apply Hall. by right.
Qed.

(** The relations of [relations] that [set] does not hold, each at its
    first occurrence and in the order of [relations]. *)
Fixpoint new_relations (set relations : list string) : list string :=
  match relations with
  | [] => []
  | rel :: rest =>
      if bool_decide (rel ∈ set) then new_relations set rest
      else rel :: new_relations (set ++ [rel]) rest
  end.

Lemma include_fold_in_order (relations set : list string) :
  fold_left include_step relations set = set ++ new_relations set relations.
Proof.
  revert set. induction relations as [|x relations IH]; intros set; simpl.
  { by rewrite app_nil_r. }
  rewrite IH. unfold include_step. case_bool_decide; [done|].
  by rewrite <- app_assoc.
Qed.

(** X26.  [include] keeps the relations as a set does: the relations
    already included stay first and in their order, and the new ones
    follow, each once, at the place of its first occurrence and in the
    order of the call; including again what is already included changes
    nothing. *)
Theorem include_keeps_each_relation_once (r : t) (relations : list string) :
  NoDup (default [] (_includeRelations (queryBuilder r))) ->
  let included := default [] (_includeRelations (queryBuilder r)) in
  let set := included ++ new_relations included relations in
  _includeRelations (queryBuilder (include r relations)) = Some set /\
  NoDup set /\
  (forall rel, rel ∈ set <-> rel ∈ included \/ rel ∈ relations) /\
  include (include r relations) relations = include r relations.
Proof.
  intros Hnd included set.
  destruct (include_fold relations _ Hnd) as (Hnd' & Hmem & _).
  assert (Hset : fold_left include_step relations included = set).
  { apply include_fold_in_order. }
  fold included in Hnd', Hmem. rewrite Hset in Hnd', Hmem.
  split; [by rewrite <- Hset|]. split; [exact Hnd'|]. split; [exact Hmem|].
  unfold include at 1. cbn [queryBuilder include with_qb _includeRelations
    _method _statements _cacheTTL calls model _scopeRequests
    _applyDefaultScope _scopesApplied default].
  unfold include, with_qb. f_equal. f_equal. f_equal.
  fold included. change (fold_left _ relations included)
    with (fold_left include_step relations included). rewrite Hset.
  destruct (include_fold relations set Hnd') as (_ & _ & Hsame).
  apply Hsame. intros rel Hrel. apply Hmem. by right.
Qed.


(** *** Sample requests *)

(** A cache that holds one item, under the key of the plain query on
    [Users]; the storage answers with no row. *)
Definition warm_backend : Backend :=
  {| run_query := fun _ _ => Ok (JArr []);
     cache_get := fun _ key _ =>
       if String.eqb key "Users:[]" then JArr [JObj [("id", JNum 1)]]
       else JNull;
     stringify := fun _ => "[]";
     wrapResult := fun v => Ok v |}.

Definition cached_users : ModelView :=
  MkModelView "Users" "users" ["id"; "email"] (Some "id") true None 0.

(** [Users.query().cache(ttl)] *)
Definition cached_query (ttl : Z) : t :=
  MkRequest cached_users (MkQueryBuilder None [] (Some ttl) None [])
    None None false.

Definition applied (r : t) : t :=
  MkRequest (model r) (queryBuilder r) (_scopeRequests r)
    (_applyDefaultScope r) true.

Lemma then_answered_from_cache_sends_no_query_witness :
  then_ (H := warm_backend) (cached_query 60) [] =
    (Ok (JArr [JObj [("id", JNum 1)]]), applied (cached_query 60),
     [CacheGet "$Users" None; CacheGet "Users:[]" None]) /\
  executions [CacheGet "$Users" None; CacheGet "Users:[]" None] = 0%nat.
Proof.
  destruct (@then_answered_from_cache_sends_no_query warm_backend
              (cached_query 60) (applied (cached_query 60)) [] [])
    as (Hthen & Hexec & _); try reflexivity.
  split; [exact Hthen|exact Hexec].
Defined.

Lemma then_cache_miss_stores_raw_result_witness :
  exists ttl evict,
    _cacheTTL (queryBuilder (applied (cached_query 0))) = Some ttl /\
    then_ (H := RequestSpec.counting_backend) (cached_query 0) [] =
      (Ok (JNum 0), _ensureDefaultIdSelect (applied (cached_query 0)),
       [CacheGet "$Users" None; CacheGet "Users:[]" None]
       ++ [Execute (queryBuilder
                      (_ensureDefaultIdSelect (applied (cached_query 0))));
           CacheSet "Users:[]" (JNum 0) (Z.max 1 ttl)]) /\
    last [CacheGet "$Users" None; CacheGet "Users:[]" None]
      = Some (CacheGet "Users:[]" evict).
Proof.
  apply (@then_cache_miss_stores_raw_result RequestSpec.counting_backend
           (cached_query 0) (applied (cached_query 0)) [] [] (JNum 0));
    reflexivity.
Defined.

(** An insert on a model that caches. *)
Definition insert_users : t :=
  MkRequest cached_users (MkQueryBuilder (Some "insert") [] (Some 60) None [])
    None None false.

Lemma then_on_write_query_bypasses_cache_and_wrapping_witness :
  then_ (H := warm_backend) insert_users [] =
  (Ok (JArr []), applied insert_users,
   [Execute (queryBuilder insert_users)]).
Proof.
  apply (@then_on_write_query_bypasses_cache_and_wrapping warm_backend
           insert_users (applied insert_users) [] [] "insert");
    [reflexivity|reflexivity|].
  by left.
Defined.




Lemma include_keeps_each_relation_once_witness :
  _includeRelations
    (queryBuilder (include (cached_query 60) ["posts"; "posts"; "tags"]))
  = Some ["posts"; "tags"] /\
  include (include (cached_query 60) ["posts"; "posts"; "tags"])
    ["posts"; "posts"; "tags"]
  = include (cached_query 60) ["posts"; "posts"; "tags"].
Proof.
  destruct (@include_keeps_each_relation_once (cached_query 60)
              ["posts"; "posts"; "tags"]) as (Hset & _ & _ & Hagain).
  - apply NoDup_nil_2.
  - split; [exact Hset|exact Hagain].
Defined.

End RequestMore.

(** ** Table names and query entry points *)

Module QueriesMore.
Import ScopeBuilder Request Queries.

(** *** [_inferTable] *)










(** *** [query], [scope], [unscoped] *)

Section Entry.
Context `{Backend}.

(** X28.  [Model.unscoped()]: the request resolves its scopes once, without the
    default scope, and leaves the query builder as it was made, whatever
    the default scope of the model is; [Model.query().unscoped()] is the
    same request. *)
Theorem unscoped_request_skips_default_scope (m : ModelView)
    (qb : QueryBuilder) (sb : ScopeBuilder.t) (log : list io) :
  scopeBuilder m = Some sb ->
  exists r,
    Queries.unscoped false m qb = Ok r /\
    _applyScopes r log =
      (Ok tt, MkRequest m qb None (Some false) true,
       log ++ [ResolveScopes [] false]) /\
    (forall r', query false m qb = Ok r' -> Request.unscoped r' = r).
Proof.
  intros Hsb. eexists. split; [reflexivity|]. split.
  - unfold _applyScopes. simpl. by rewrite Hsb.
  - intros r'. unfold query. simpl. rewrite Hsb.
    by case_bool_decide; intros [= <-].
Qed.

(** X29.  [Model.scope(...)] does not look the names up: naming a scope of
    which [hasScope] is false (no key of the scopes and no member of
    [Object.prototype]) gives a request all the same, and it is the first
    [then] that throws, sending no query. *)
Theorem scope_with_undefined_name_fails_at_then (m : ModelView)
    (qb : QueryBuilder) (sb : ScopeBuilder.t) (scopeName : string)
    (log : list io) :
  scopeBuilder m = Some sb ->
  hasScope sb scopeName = false ->
  exists r,
    scope false m qb [ByName scopeName] = Ok r /\
    queryBuilder r = qb /\
    (then_ r log).1.1
      = Throw (scope_not_defined scopeName (ScopeBuilder.model_name sb)) /\
    executions (then_ r log).2 = executions log.
Proof.
  intros Hsb Hname.
  assert (Hthrow : forall d,
            applyScopes sb [ByName scopeName] d
            = Throw (scope_not_defined scopeName (ScopeBuilder.model_name sb))).
  { intros d. apply ScopeBuilderMore.hasScope_false in Hname.
    unfold applyScopes. simpl. by rewrite Hname. }
  unfold scope, query. simpl. rewrite Hsb.
  case_bool_decide; eexists; (split; [reflexivity|]); (split; [done|]);
    unfold then_, _applyScopes; simpl; rewrite Hsb, Hthrow; simpl;
    (split; [done|]); rewrite RequestSpec.executions_app;
    unfold executions; simpl; lia.
Qed.

End Entry.

Lemma unscoped_request_skips_default_scope_witness :
  let m := MkModelView "Products" "products" ["id"] (Some "id") false
             (Some (MkScopeBuilder "Products" ∅
                      (Some (ScopeBuilderMore.where_scope "active")))) 0 in
  let qb := MkQueryBuilder None [] None None [] in
  exists r,
    Queries.unscoped false m qb = Ok r /\
    _applyScopes r [] =
      (Ok tt, MkRequest m qb None (Some false) true, [ResolveScopes [] false]).
Proof.
  intros m qb.
  destruct (@unscoped_request_skips_default_scope m qb
              (MkScopeBuilder "Products" ∅
                 (Some (ScopeBuilderMore.where_scope "active"))) [] eq_refl)
    as (r & Hr & Ha & _).
  by exists r.
Defined.

Lemma scope_with_undefined_name_fails_at_then_witness :
  let m := MkModelView "Products" "products" ["id"] (Some "id") false
             (Some ScopeBuilderMore.shop_builder) 0 in
  let qb := MkQueryBuilder None [] None None [] in
  exists r,
    scope false m qb [ByName "missing"] = Ok r /\
    (then_ (H := RequestSpec.counting_backend) r []).1.1
      = Throw "Scope 'missing' not defined on model 'Products'".
Proof.
  intros m qb.
  destruct (@scope_with_undefined_name_fails_at_then
              RequestSpec.counting_backend m qb ScopeBuilderMore.shop_builder
              "missing" [] eq_refl eq_refl) as (r & Hr & _ & Ht & _).
  by exists r.
Defined.

End QueriesMore.

(** ** Repository context *)

Module RepositoryMore.
Import Repository.

(** X30.  The context of a repository: a key that was set reads as the value
    set last, also when that value is [undefined] or another falsy value
    and a default is given; a key that was never set reads as the
    default; setting a key leaves the other keys alone. *)
Theorem context_reads_what_was_set (ctx : context) (key other : string)
    (v0 v defaultValue : jsval) :
  get_context (set_context ctx key v) key defaultValue = v /\
  get_context (set_context (set_context ctx key v0) key v) key defaultValue
    = v /\
  get_context no_context key defaultValue = defaultValue /\
  (other <> key ->
   get_context (set_context ctx key v) other defaultValue
   = get_context ctx other defaultValue).
Proof.
  assert (Hset : forall c : context,
            get_context (set_context c key v) key defaultValue = v).
  { intros c. unfold get_context, set_context, context in *.
    rewrite lookup_insert_eq.
    by rewrite bool_decide_eq_true_2. }
  split; [apply Hset|]. split; [apply Hset|]. split.
  - unfold get_context, no_context, context in *. rewrite lookup_empty.
    rewrite bool_decide_eq_false_2; [done|]. by intros [? ?].
  - intros Hne. unfold get_context, set_context, context in *.
    by rewrite lookup_insert_ne.
Qed.

End RepositoryMore.
